(** * blob-tracker: the blob identity tracker, the motion smoother and the
      export loop, embedded from the TypeScript sources

    Sources embedded here:
    - [src/services/cvProcessor.ts]: class [CVProcessor], the constructor and
      the methods [isReady], [ensureMats], [cleanup] and [processFrame];
    - [src/components/BlobTracker.tsx]: the handler of [onloadedmetadata],
      [drawOverlays], [runRender] and [animate];
    - [App.tsx] and [ControlPanel.tsx]: the handlers of the page and the
      controls the panel offers;
    - the [types] module ([TrackerSettings], [Point], [DetectedBlob],
      [ColorMode], [RenderState]).

    Numbers.  A JavaScript [number] is an IEEE double.  Here a finite double
    is the rational it denotes.  Where the last bit of a result can decide
    what the program does, because the result is compared, floored or
    rounded to an integer, the operations are those of the doubles, the exact
    result rounded to the nearest double ([Double.round64]): so in the area
    test, the scaled coordinates and the matching radius of [processFrame],
    in the time and the progress of the export loop, and in the scale and
    the size of the preview.  In the smoother, the colours and the frame
    rate, arithmetic on finite values is exact: rounding moves these values
    in their last bits only.  [Math.hypot] is left to the run time.  Overflow
    to an infinity and the sign of zero are left out.  [NaN], [+Infinity]
    and [-Infinity] are kept, with the IEEE rules, since the tracker's
    comparisons treat them specially.  Numbers that are integers by
    construction (blob ids, [Date.now()] timestamps) are in [Z]; a tracker
    hands out far fewer than [2^53] ids, so [nextBlobId++] is exact.

    Objects.  [processFrame] builds a new object for every update, so its
    state is a value; the only writes through a shared reference are those
    of [drawOverlays] to [visualX] and [visualY] of the blobs it is handed,
    which are the objects stored in [activeBlobs]: between two calls these
    two fields of the active blobs may have changed ([rendered] below).  The
    part on shared objects has the heap itself, and shows that the two views
    agree. *)

From Stdlib Require Import String.
From Stdlib Require Import ZArith QArith Qround Qabs Qpower List Sorted Bool Lia Lqa.
Import ListNotations.

Local Open Scope Z_scope.

(* ================================================================== *)
(** * JavaScript numbers *)
(* ================================================================== *)

Module JsNum.

Inductive num : Type :=
| NaN
| PInf
| NInf
| Fin (q : Q).

Arguments Fin q%_Q.

Definition of_Z (z : Z) : num := Fin (inject_Z z).
Definition of_nat (n : nat) : num := of_Z (Z.of_nat n).

Definition is_finite (a : num) : bool :=
  match a with Fin _ => true | _ => false end.

(** The infinity with the sign of a non-zero finite factor; [0 * Infinity]
    is [NaN]. *)
Definition signed_inf (c : comparison) : num :=
  match c with Gt => PInf | Lt => NInf | Eq => NaN end.

Definition neg (a : num) : num :=
  match a with
  | NaN => NaN
  | PInf => NInf
  | NInf => PInf
  | Fin q => Fin (- q)
  end.

Definition add (a b : num) : num :=
  match a, b with
  | NaN, _ | _, NaN => NaN
  | PInf, NInf | NInf, PInf => NaN
  | PInf, _ | _, PInf => PInf
  | NInf, _ | _, NInf => NInf
  | Fin p, Fin q => Fin (p + q)
  end.

Definition sub (a b : num) : num := add a (neg b).

Definition mul (a b : num) : num :=
  match a, b with
  | NaN, _ | _, NaN => NaN
  | PInf, PInf | NInf, NInf => PInf
  | PInf, NInf | NInf, PInf => NInf
  | PInf, Fin q | Fin q, PInf => signed_inf (q ?= 0)%Q
  | NInf, Fin q | Fin q, NInf => signed_inf (CompOpp (q ?= 0)%Q)
  | Fin p, Fin q => Fin (p * q)
  end.

(** Division; a zero divisor is taken as [+0]. *)
Definition div (a b : num) : num :=
  match a, b with
  | NaN, _ | _, NaN => NaN
  | (PInf | NInf), (PInf | NInf) => NaN
  | Fin _, (PInf | NInf) => Fin 0
  | PInf, Fin q => match (q ?= 0)%Q with Lt => NInf | _ => PInf end
  | NInf, Fin q => match (q ?= 0)%Q with Lt => PInf | _ => NInf end
  | Fin p, Fin q =>
      if Qeq_bool q 0 then signed_inf (p ?= 0)%Q else Fin (p / q)
  end.

(** [a < b]: false as soon as one side is [NaN]. *)
Definition ltb (a b : num) : bool :=
  match a, b with
  | NaN, _ | _, NaN => false
  | _, NInf => false
  | PInf, _ => false
  | NInf, _ => true
  | _, PInf => true
  | Fin p, Fin q => match (p ?= q)%Q with Lt => true | _ => false end
  end.

Definition gtb (a b : num) : bool := ltb b a.

(** [a <= b]. *)
Definition leb (a b : num) : bool :=
  match a, b with
  | NaN, _ | _, NaN => false
  | NInf, _ => true
  | _, PInf => true
  | _, NInf => false
  | PInf, _ => false
  | Fin p, Fin q => match (p ?= q)%Q with Gt => false | _ => true end
  end.

(** [a == b] on numbers: [NaN] equals nothing. *)
Definition eqb (a b : num) : bool :=
  match a, b with
  | PInf, PInf | NInf, NInf => true
  | Fin p, Fin q => Qeq_bool p q
  | _, _ => false
  end.

(** [Math.max(a, b)] and [Math.min(a, b)]: [NaN] when an argument is. *)
Definition max (a b : num) : num :=
  match a, b with
  | NaN, _ | _, NaN => NaN
  | _, _ => if ltb a b then b else a
  end.

Definition min (a b : num) : num :=
  match a, b with
  | NaN, _ | _, NaN => NaN
  | _, _ => if ltb b a then b else a
  end.

(** [Math.round]: the nearest integer, a tie going up. *)
Definition round (a : num) : num :=
  match a with
  | Fin q => of_Z (Qfloor (q + (1 # 2)))
  | _ => a
  end.

(** [ToBoolean] on a number: [0] and [NaN] are falsy. *)
Definition truthy (a : num) : bool :=
  match a with
  | NaN => false
  | Fin q => negb (Qeq_bool q 0)
  | _ => true
  end.

(** [a || b] on numbers. *)
Definition or_else (a b : num) : num := if truthy a then a else b.

End JsNum.

Import JsNum.

Declare Scope js_scope.
Delimit Scope js_scope with js.
Bind Scope js_scope with num.
Infix "+" := add : js_scope.
Infix "-" := sub : js_scope.
Infix "*" := mul : js_scope.
Infix "/" := div : js_scope.
Infix "<?" := ltb : js_scope.
Infix ">?" := gtb : js_scope.
Infix "<=?" := leb : js_scope.
Infix "==?" := eqb (at level 70) : js_scope.

(** Number literals of the sources. *)
Coercion of_Z : Z >-> num.

(* ================================================================== *)
(** * Doubles: the result of an operation, rounded *)
(* ================================================================== *)

(** On finite doubles [+], [-], [*] and [/] give the exact result rounded to
    the nearest double, a tie going to the double whose mantissa is even
    (IEEE 754, binary64).  A double has a mantissa of 53 bits, and below
    [2^-1022] the doubles are the multiples of [2^-1074].  The exponent is
    not bounded above here: no area, size or time below comes near the
    largest double, so no rounded result is turned into an infinity. *)

Module Double.

(** For [q > 0], the [k] with [2^k <= q < 2^(k+1)]. *)
Definition ilog2 (q : Q) : Z :=
  let k := Z.log2 (Qnum q) - Z.log2 (Zpos (Qden q)) in
  if Qle_bool (2 ^ k) q then k else k - 1.

(** The exponent of the last bit of the mantissa of the doubles next to
    [q > 0]. *)
Definition exponent (q : Q) : Z := Z.max (-1074) (ilog2 q - 52).

(** The nearest integer, a tie going to the even one. *)
Definition nearest (x : Q) : Z :=
  let f := Qfloor x in
  match (x - inject_Z f ?= 1 # 2)%Q with
  | Lt => f
  | Gt => f + 1
  | Eq => if Z.even f then f else f + 1
  end.

Definition round_pos (q : Q) : Q :=
  let e := exponent q in
  (inject_Z (nearest (q / 2 ^ e)) * 2 ^ e)%Q.

(** The double nearest to [q], in lowest terms. *)
Definition round64 (q : Q) : Q :=
  match (q ?= 0)%Q with
  | Eq => 0%Q
  | Gt => Qred (round_pos q)
  | Lt => Qred (- round_pos (- q))
  end.

(** What an operation returns when its exact result is [a]. *)
Definition rounded (a : num) : num :=
  match a with
  | Fin q => Fin (round64 q)
  | _ => a
  end.

Definition add (a b : num) : num := rounded (JsNum.add a b).
Definition sub (a b : num) : num := rounded (JsNum.sub a b).
Definition mul (a b : num) : num := rounded (JsNum.mul a b).
Definition div (a b : num) : num := rounded (JsNum.div a b).

End Double.

(** The operators of the sources where the rounding is kept. *)
Declare Scope double_scope.
Delimit Scope double_scope with double.
Arguments Double.add (a b)%_double.
Arguments Double.sub (a b)%_double.
Arguments Double.mul (a b)%_double.
Arguments Double.div (a b)%_double.
Arguments Double.round64 : simpl never.
Infix "+" := Double.add : double_scope.
Infix "-" := Double.sub : double_scope.
Infix "*" := Double.mul : double_scope.
Infix "/" := Double.div : double_scope.

(** ** [Math.hypot]

    ECMAScript fixes the result on non-finite arguments ([+Infinity] when an
    argument is infinite, else [NaN] when one is [NaN]) and leaves the finite
    case to the implementation, as an approximation of the square root of the
    sum of the squares.  The finite case is a parameter of the development. *)

Definition hypot_with (hypot_fin : Q -> Q -> Q) (a b : num) : num :=
  match a, b with
  | (PInf | NInf), _ | _, (PInf | NInf) => PInf
  | NaN, _ | _, NaN => NaN
  | Fin p, Fin q => Fin (hypot_fin p q)
  end.

(** A reference implementation for evaluating examples: the square root of
    [p*p + q*q] rounded down to a multiple of [2^-52]. *)
Definition hypot_ref (p q : Q) : Q :=
  let s := (p * p + q * q)%Q in
  Z.sqrt (Qfloor (s * inject_Z (2 ^ 104))) # (2 ^ 52).

(* ================================================================== *)
(** * [Map<number, V>] and [Set<number>] *)
(* ================================================================== *)

(** A JavaScript [Map] iterates in insertion order and [set] on a present
    key keeps the key's place, so the map is the list of its entries in that
    order.  [forEach] is a left fold over the entries. *)

Module JsMap.

Section Ops.
Context {V : Type}.

Definition t := list (Z * V).

Definition empty : t := [].

Fixpoint get (k : Z) (m : t) : option V :=
  match m with
  | [] => None
  | (k', v) :: m' => if k' =? k then Some v else get k m'
  end.

Definition has (k : Z) (m : t) : bool :=
  match get k m with Some _ => true | None => false end.

Fixpoint set (k : Z) (v : V) (m : t) : t :=
  match m with
  | [] => [(k, v)]
  | (k', v') :: m' => if k' =? k then (k, v) :: m' else (k', v') :: set k v m'
  end.

Fixpoint delete (k : Z) (m : t) : t :=
  match m with
  | [] => []
  | (k', v') :: m' => if k' =? k then m' else (k', v') :: delete k m'
  end.

Definition keys (m : t) : list Z := map fst m.

End Ops.
Arguments t V : clear implicits.

End JsMap.

(** [Set<number>]: only [has] and [add] are used. *)
Module JsSet.

Definition t := list Z.
Definition empty : t := [].
Definition has (k : Z) (s : t) : bool := existsb (Z.eqb k) s.
Definition add (k : Z) (s : t) : t := if has k s then s else s ++ [k].

End JsSet.

(* ================================================================== *)
(** * types: settings, points and blobs *)
(* ================================================================== *)

Record TrackerSettings : Type := {
  threshold : num;
  minArea : num;
  blurSize : num;
  historyLength : num;
  jitter : num;
  drift : num;
  showVideo : bool
}.

Record Point : Type := { pt_x : num; pt_y : num }.

(** [visualX?] and [visualY?] are optional: [None] is [undefined]. *)
Record DetectedBlob : Type := {
  id : Z;
  x : num;
  y : num;
  w : num;
  h : num;
  area : num;
  history : list Point;
  lastSeen : Z;
  visualX : option num;
  visualY : option num
}.

(** What [processFrame] pushes on [currentFrameBlobs]: a
    [Partial<DetectedBlob>] with these five fields set. *)
Record Candidate : Type := {
  cand_x : num;
  cand_y : num;
  cand_w : num;
  cand_h : num;
  cand_area : num
}.

(** What OpenCV reports for one contour: [cv.contourArea(contour)] and
    [cv.boundingRect(contour)]. *)
Record Rect : Type := {
  rect_x : num;
  rect_y : num;
  rect_width : num;
  rect_height : num
}.

Record Contour : Type := { contourArea : num; boundingRect : Rect }.

(** An exception of the JavaScript run time. *)
Inductive result (A : Type) : Type :=
| Ok (a : A)
| TypeError.
Arguments Ok {A} a.
Arguments TypeError {A}.

Definition bind {A B} (r : result A) (f : A -> result B) : result B :=
  match r with
  | Ok a => f a
  | TypeError => TypeError
  end.

Notation "'do' x <- r ; k" := (bind r (fun x => k))
  (at level 10, x name, r at level 100, k at level 200).

(** [xs.forEach(f)] where [f] may throw. *)
Fixpoint forEach {A S} (f : S -> A -> result S) (xs : list A) (s : S)
  : result S :=
  match xs with
  | [] => Ok s
  | a :: xs' => do s' <- f s a; forEach f xs' s'
  end.

(* ================================================================== *)
(** * services/cvProcessor.ts *)
(* ================================================================== *)

Definition MAX_TRACKING_DISTANCE_BASE : num := 100.
Definition BLOB_TIMEOUT : Z := 500.

(** The tracking state of a [CVProcessor]: the two private fields under
    [// State].  The OpenCV matrices carry no tracking state. *)
Record CVProcessor : Type := {
  nextBlobId : Z;
  activeBlobs : JsMap.t DetectedBlob
}.

(** [new CVProcessor(cv)]. *)
Definition newCVProcessor : CVProcessor :=
  {| nextBlobId := 1; activeBlobs := JsMap.empty |}.

(** What the part of [processFrame] before [// 3. Extract & Scale Coords]
    leaves: one of the three early returns, or the contours found.  The
    OpenCV calls of [// 2. CV Pipeline] are taken to return. *)
Inductive Frame : Type :=
| CvMissing                       (* [if (!this.cv) return []] *)
| MatsMissing                     (* [if (!this.src) return []] *)
| FrameAccessError                (* [getImageData] threw *)
| Contours (cs : list Contour).

(** The locals of [// 4. Tracking] that the candidate loop updates, with the
    two fields of [this]. *)
Record Tracking : Type := {
  self : CVProcessor;
  assignedIds : JsSet.t;
  trackedBlobs : list DetectedBlob
}.

Section Tracker.

Variable hypot_fin : Q -> Q -> Q.

Definition hypot : num -> num -> num := hypot_with hypot_fin.

(** [// 3. Extract & Scale Coords]: the body of the loop over the contours,
    every product, sum and quotient rounded as the doubles are.
    ([minAreaScaled] is computed by the source and never read.) *)
Definition extractContour (settings : TrackerSettings) (scaleFactor : num)
    (currentFrameBlobs : list Candidate) (contour : Contour)
  : list Candidate :=
  let area := contourArea contour in
  let realArea := (area * (scaleFactor * scaleFactor))%double in
  if (realArea >? minArea settings)%js then
    let rect := boundingRect contour in
    currentFrameBlobs ++
      [ {| cand_x := ((rect_x rect + rect_width rect / 2) * scaleFactor)%double;
           cand_y := ((rect_y rect + rect_height rect / 2) * scaleFactor)%double;
           cand_w := (rect_width rect * scaleFactor)%double;
           cand_h := (rect_height rect * scaleFactor)%double;
           cand_area := realArea |} ]
  else currentFrameBlobs.

Definition extract (settings : TrackerSettings) (scaleFactor : num)
    (contours : list Contour) : list Candidate :=
  fold_left (extractContour settings scaleFactor) contours [].

(** The distance the matching loop compares. *)
Definition distance (newBlob : Candidate) (existingBlob : DetectedBlob) : num :=
  hypot (cand_x newBlob - x existingBlob)%js (cand_y newBlob - y existingBlob)%js.

(** The callback of the inner [this.activeBlobs.forEach]: the pair is
    [(closestId, minDist)]. *)
Definition closer (assigned : JsSet.t) (newBlob : Candidate)
    (acc : Z * num) (entry : Z * DetectedBlob) : Z * num :=
  let '(closestId, minDist) := acc in
  let '(id, existingBlob) := entry in
  if JsSet.has id assigned then acc
  else
    let dist := distance newBlob existingBlob in
    if (dist <? minDist)%js then (id, dist) else acc.

Definition findClosest (maxDist : num) (st : Tracking) (newBlob : Candidate)
  : Z * num :=
  fold_left (closer (assignedIds st) newBlob) (activeBlobs (self st))
    (-1, maxDist).

(** [const history = [...existing.history, {x, y}]] and the [shift()]. *)
Definition pushHistory (settings : TrackerSettings) (existing : DetectedBlob)
  : list Point :=
  let history0 :=
    history existing ++ [ {| pt_x := x existing; pt_y := y existing |} ] in
  if (of_nat (length history0) >? historyLength settings)%js
  then tl history0 else history0.

(** [const updated: DetectedBlob = { ...existing, ... }]. *)
Definition updated (settings : TrackerSettings) (now : Z)
    (existing : DetectedBlob) (newBlob : Candidate) : DetectedBlob :=
  {| id := id existing;
     x := cand_x newBlob;
     y := cand_y newBlob;
     w := cand_w newBlob;
     h := cand_h newBlob;
     area := cand_area newBlob;
     history := pushHistory settings existing;
     lastSeen := now;
     visualX := visualX existing;
     visualY := visualY existing |}.

(** [const newEntity: DetectedBlob = { id: newId, ... }]. *)
Definition newEntity (now : Z) (newId : Z) (newBlob : Candidate) : DetectedBlob :=
  {| id := newId;
     x := cand_x newBlob;
     y := cand_y newBlob;
     w := cand_w newBlob;
     h := cand_h newBlob;
     area := cand_area newBlob;
     history := [];
     lastSeen := now;
     visualX := Some (cand_x newBlob);
     visualY := Some (cand_y newBlob) |}.

(** The [if (closestId !== -1)] branch. *)
Definition matchBlob (settings : TrackerSettings) (now : Z) (st : Tracking)
    (newBlob : Candidate) (closestId : Z) : result Tracking :=
  match JsMap.get closestId (activeBlobs (self st)) with
  | None => TypeError   (* [existing] is [undefined]: [existing.history] throws *)
  | Some existing =>
      let updated := updated settings now existing newBlob in
      Ok {| self :=
              {| nextBlobId := nextBlobId (self st);
                 activeBlobs := JsMap.set closestId updated (activeBlobs (self st)) |};
            assignedIds := JsSet.add closestId (assignedIds st);
            trackedBlobs := trackedBlobs st ++ [updated] |}
  end.

(** The [else] branch: [const newId = this.nextBlobId++]. *)
Definition spawnBlob (now : Z) (st : Tracking) (newBlob : Candidate) : Tracking :=
  let newId := nextBlobId (self st) in
  let newEntity := newEntity now newId newBlob in
  {| self :=
       {| nextBlobId := newId + 1;
          activeBlobs := JsMap.set newId newEntity (activeBlobs (self st)) |};
     assignedIds := assignedIds st;
     trackedBlobs := trackedBlobs st ++ [newEntity] |}.

(** The callback of [currentFrameBlobs.forEach]. *)
Definition trackBlob (settings : TrackerSettings) (now : Z) (maxDist : num)
    (st : Tracking) (newBlob : Candidate) : result Tracking :=
  let '(closestId, _) := findClosest maxDist st newBlob in
  if negb (closestId =? -1) then matchBlob settings now st newBlob closestId
  else Ok (spawnBlob now st newBlob).

(** [now - blob.lastSeen > BLOB_TIMEOUT]. *)
Definition expired (now : Z) (blob : DetectedBlob) : bool :=
  now - lastSeen blob >? BLOB_TIMEOUT.

(** [// Prune]: the callback of the last [this.activeBlobs.forEach], which
    deletes the entry it is visiting. *)
Definition pruneBlob (now : Z) (blobs : JsMap.t DetectedBlob)
    (entry : Z * DetectedBlob) : JsMap.t DetectedBlob :=
  let '(id, blob) := entry in
  if expired now blob then JsMap.delete id blobs else blobs.

Definition prune (now : Z) (blobs : JsMap.t DetectedBlob) : JsMap.t DetectedBlob :=
  fold_left (pruneBlob now) blobs blobs.

(** [const maxDist = MAX_TRACKING_DISTANCE_BASE * Math.max(1, scaleFactor)],
    a product of doubles. *)
Definition maxDist (scaleFactor : num) : num :=
  (MAX_TRACKING_DISTANCE_BASE * max 1 scaleFactor)%double.

(** The candidate loop of [// 4. Tracking]. *)
Definition matchingPass (settings : TrackerSettings) (scaleFactor : num)
    (now : Z) (currentFrameBlobs : list Candidate) (this : CVProcessor)
  : result Tracking :=
  forEach (trackBlob settings now (maxDist scaleFactor)) currentFrameBlobs
    {| self := this; assignedIds := JsSet.empty; trackedBlobs := [] |}.

(** [// 4. Tracking] and [// Prune] on the candidates of one frame; [now] is
    what [Date.now()] returned. *)
Definition track (settings : TrackerSettings) (scaleFactor : num) (now : Z)
    (currentFrameBlobs : list Candidate) (this : CVProcessor)
  : result (CVProcessor * list DetectedBlob) :=
  do st <- matchingPass settings scaleFactor now currentFrameBlobs this;
  Ok ({| nextBlobId := nextBlobId (self st);
         activeBlobs := prune now (activeBlobs (self st)) |},
      trackedBlobs st).

(** [processFrame(ctx, width, height, settings, scaleFactor)]. *)
Definition processFrame (frame : Frame) (now : Z) (settings : TrackerSettings)
    (scaleFactor : num) (this : CVProcessor)
  : result (CVProcessor * list DetectedBlob) :=
  match frame with
  | CvMissing | MatsMissing | FrameAccessError => Ok (this, [])
  | Contours contours =>
      track settings scaleFactor now (extract settings scaleFactor contours) this
  end.

End Tracker.

(* ================================================================== *)
(** * components/BlobTracker.tsx: [drawOverlays] *)
(* ================================================================== *)

Section Smoother.

(** [Math.sin] and [Math.cos], left to the run time. *)
Variables sin cos : num -> num.

(** [const lerpFactor = 0.8 - (settings.drift * 0.7)]. *)
Definition lerpFactor (settings : TrackerSettings) : num :=
  (Fin 0.8 - drift settings * Fin 0.7)%js.

(** [if (blob.visualX === undefined) blob.visualX = blob.x]. *)
Definition orInit (visual : option num) (pos : num) : num :=
  match visual with
  | None => pos
  | Some v => v
  end.

(** [displayPos + (truePos - displayPos) * lerpFactor]. *)
Definition lerp (displayPos truePos factor : num) : num :=
  (displayPos + (truePos - displayPos) * factor)%js.

(** The position part of the callback of [blobs.forEach] in [drawOverlays]:
    the blob with [visualX] and [visualY] updated in place, and the point
    [(drawX, drawY)] the marker is drawn at. *)
Definition drawOverlay (settings : TrackerSettings) (time : num)
    (blob : DetectedBlob) : DetectedBlob * (num * num) :=
  let visualX0 := orInit (visualX blob) (x blob) in
  let visualY0 := orInit (visualY blob) (y blob) in
  let lerpFactor := lerpFactor settings in
  let visualX1 := lerp visualX0 (x blob) lerpFactor in
  let visualY1 := lerp visualY0 (y blob) lerpFactor in
  let noiseX :=
    ((sin (time * Fin 0.01 + of_Z (id blob)) + cos (time * Fin 0.05))
     * jitter settings * 20)%js in
  let noiseY :=
    ((cos (time * Fin 0.01 + of_Z (id blob)) + sin (time * Fin 0.03))
     * jitter settings * 20)%js in
  let drawX := (visualX1 + noiseX)%js in
  let drawY := (visualY1 + noiseY)%js in
  ({| id := id blob; x := x blob; y := y blob; w := w blob; h := h blob;
      area := area blob; history := history blob; lastSeen := lastSeen blob;
      visualX := Some visualX1; visualY := Some visualY1 |},
   (drawX, drawY)).

Definition drawOverlays (settings : TrackerSettings) (time : num)
    (blobs : list DetectedBlob) : list (DetectedBlob * (num * num)) :=
  map (drawOverlay settings time) blobs.

End Smoother.

(* ================================================================== *)
(** * components/BlobTracker.tsx: [runRender] *)
(* ================================================================== *)

(** What [runRender] does to its collaborators, in order. *)
Inductive Event : Type :=
| RecorderStart                      (* [recorder.start()] *)
| Seek (t : num)                     (* [vid.currentTime = t] *)
| AwaitSeek                          (* ['seeked'], or 500 ms *)
| ProcessFrame (time : num)          (* [drawImage], [processFrame], [drawOverlays] at [time] ms *)
| RequestFrame                       (* [track.requestFrame()] *)
| AwaitSample                        (* [setTimeout(r, 1000/60)] *)
| RenderProgress (progress : num)    (* [onRenderProgress(progress)] *)
| Yield                              (* [setTimeout(r, 0)] *)
| RecorderStop                       (* [recorder.stop()] *)
| RenderComplete (mimeType extension : string)
                                     (* [onRenderComplete(blob, extension)],
                                        [blob] being
                                        [new Blob(chunks, { type: mimeType })] *).

(** What [runRender] reads from the browser.  [cancelled n] is the value of
    the flag [cancelled] of the effect when the loop condition is evaluated
    for the [n]-th time, counting from [0]: the cleanup of the effect sets
    it while [runRender] is suspended in an [await]. *)
Record Browser : Type := {
  hasContext : bool;            (* [renderCanvas.getContext('2d')] is not null *)
  isTypeSupported : string -> bool;   (* [MediaRecorder.isTypeSupported] *)
  hasRequestFrame : bool;       (* [track && track.requestFrame] *)
  videoDuration : num;          (* [vid.duration] *)
  cancelled : nat -> bool
}.

Definition mp4Types : list string :=
  [ "video/mp4; codecs=avc1.42E01E, mp4a.40.2";
    "video/mp4; codecs=h264";
    "video/mp4; codecs=avc1";
    "video/mp4" ]%string.

(** [// 2. Determine Export Format]: the pair [(mimeType, extension)]. *)
Definition exportFormat (browser : Browser) : string * string :=
  match find (isTypeSupported browser) mp4Types with
  | Some supportedMp4 => (supportedMp4, "mp4"%string)
  | None =>
      if isTypeSupported browser "video/webm;codecs=vp9"
      then ("video/webm;codecs=vp9"%string, "webm"%string)
      else ("video/webm"%string, "webm"%string)
  end.

Definition targetFps : num := 30.
Definition frameDuration : num := (1 / targetFps)%double.

(** [Math.min(100, Math.round((currentTime / duration) * 100))]. *)
Definition progressAt (currentTime duration : num) : num :=
  min 100 (round ((currentTime / duration) * 100)%double).

(** One turn of the [while] loop of [// 4. Render Loop]. *)
Definition renderFrame (browser : Browser) (duration currentTime : num)
  : list Event :=
  [ Seek currentTime; AwaitSeek; ProcessFrame (currentTime * 1000)%double ] ++
  [ if hasRequestFrame browser then RequestFrame else AwaitSample ] ++
  [ RenderProgress (progressAt currentTime duration); Yield ].

(** The state of the loop: the turns done, [currentTime], and the events so
    far. *)
Record RenderLoop : Type := {
  turn : nat;
  currentTime : num;
  events : list Event
}.

(** The [while (currentTime < duration && !cancelled)] loop, for at most
    [fuel] turns: [inl] when the loop was left, [inr] when it is still
    running after [fuel] turns.  [currentTime += frameDuration] is a sum of
    doubles, rounded at every turn. *)
Fixpoint renderLoop (fuel : nat) (browser : Browser) (duration : num)
    (l : RenderLoop) : RenderLoop + RenderLoop :=
  if ((currentTime l <? duration)%js && negb (cancelled browser (turn l)))%bool
  then
    match fuel with
    | O => inr l
    | S fuel' =>
        renderLoop fuel' browser duration
          {| turn := S (turn l);
             currentTime := (currentTime l + frameDuration)%double;
             events := events l ++ renderFrame browser duration (currentTime l) |}
    end
  else inl l.

(** [runRender], for at most [fuel] turns of its loop; the result is the
    events, and whether [runRender] ran to its end. *)
Definition runRender (fuel : nat) (browser : Browser) : bool * list Event :=
  if negb (hasContext browser) then (true, [])      (* [if (!ctx) return] *)
  else
    let '(mimeType, extension) := exportFormat browser in
    let duration := or_else (videoDuration browser) 10 in
    match
      renderLoop fuel browser duration
        {| turn := 0; currentTime := 0; events := [RecorderStart; Seek 0] |}
    with
    | inr l => (false, events l)
    | inl l =>
        (true,
         events l ++
         [ RecorderStop; Seek 0; RenderComplete mimeType extension ])
    end.

(* ================================================================== *)
(** * App: the settings the application starts with *)
(* ================================================================== *)

Definition initialSettings : TrackerSettings :=
  {| threshold := 100;
     minArea := 100;
     blurSize := 5;
     historyLength := 15;
     jitter := Fin 0.1;
     drift := Fin 0.2;
     showVideo := true |}.

(* ================================================================== *)
(** * More of JavaScript's numbers: [Math.floor] and [%] *)
(* ================================================================== *)

Module JsMath.

(** [Math.floor]. *)
Definition floor (a : num) : num :=
  match a with
  | Fin q => of_Z (Qfloor q)
  | _ => a
  end.

(** The integer part of a rational, toward zero. *)
Definition truncate (q : Q) : Z :=
  if Qle_bool 0 q then Qfloor q else Qceiling q.

(** [a % b]: what is left of [a] after taking [b] off as often as it fits,
    counted toward zero, so that the result has the sign of [a]; [NaN] for
    an infinite [a] or a zero [b], and [a] for a finite [a] and an infinite
    [b]. *)
Definition rem (a b : num) : num :=
  match a, b with
  | Fin p, Fin q =>
      if Qeq_bool q 0 then NaN
      else Fin (p - q * inject_Z (truncate (p / q)))
  | Fin _, (PInf | NInf) => a
  | _, _ => NaN
  end.

End JsMath.

(* ================================================================== *)
(** * services/cvProcessor.ts: the blur kernel and the matrices *)
(* ================================================================== *)

(** [const b = settings.blurSize % 2 === 0 ? settings.blurSize + 1 :
    settings.blurSize], the side of the kernel given to [GaussianBlur]. *)
Definition blurKernel (settings : TrackerSettings) : num :=
  if (JsMath.rem (blurSize settings) 2 ==? 0)%js
  then (blurSize settings + 1)%js
  else blurSize settings.

(** The objects of OpenCV live outside the JavaScript heap and are released
    by hand.  An object is known by its address; [allocated] counts the
    objects made so far, and [live] holds those not deleted yet. *)
Record Opencv : Type := {
  allocated : nat;
  live : list nat
}.

(** [new this.cv.Mat(...)] and [new this.cv.MatVector()], when they
    return. *)
Definition newMat (heap : Opencv) : nat * Opencv :=
  (allocated heap,
   {| allocated := S (allocated heap); live := live heap ++ [allocated heap] |}).

(** [m.delete()]: OpenCV.js throws on an object that is deleted already. *)
Definition deleteMat (m : nat) (heap : Opencv) : result Opencv :=
  if existsb (Nat.eqb m) (live heap)
  then Ok {| allocated := allocated heap;
             live := filter (fun m' => negb (Nat.eqb m m')) (live heap) |}
  else TypeError.

(** The fields of a [CVProcessor] beside the tracking state: [cv] is
    whether [this.cv] is set, and a matrix field is [None] when it is
    [null]. *)
Record Mats : Type := {
  cv : bool;
  src : option nat;
  dst : option nat;
  gray : option nat;
  hierarchy : option nat;
  contours : option nat;
  lastDimensions : num * num
}.

(** [new CVProcessor(cv)]: [this.cv = cv || window.cv], no matrix yet. *)
Definition newMats (cvGiven windowCv : bool) : Mats :=
  {| cv := cvGiven || windowCv;
     src := None; dst := None; gray := None; hierarchy := None;
     contours := None;
     lastDimensions := (of_Z 0, of_Z 0) |}.

(** [isReady()]. *)
Definition isReady (windowCv : bool) (this : Mats) : bool :=
  cv this || windowCv.

(** [if (!this.cv && typeof window !== 'undefined' && window.cv)
    this.cv = window.cv]. *)
Definition lazyInit (windowCv : bool) (this : Mats) : Mats :=
  if negb (cv this) && windowCv then
    {| cv := true;
       src := src this; dst := dst this; gray := gray this;
       hierarchy := hierarchy this; contours := contours this;
       lastDimensions := lastDimensions this |}
  else this.

(** [if (this.src) this.src.delete()], for any of the five fields. *)
Definition deleteIf (m : option nat) (heap : Opencv) : result Opencv :=
  match m with
  | Some a => deleteMat a heap
  | None => Ok heap
  end.

(** [cleanup()]. *)
Definition cleanup (windowCv : bool) (this : Mats) (heap : Opencv)
  : result (Mats * Opencv) :=
  let this := lazyInit windowCv this in
  if negb (cv this) then Ok (this, heap)
  else
    do heap1 <- deleteIf (src this) heap;
    do heap2 <- deleteIf (dst this) heap1;
    do heap3 <- deleteIf (gray this) heap2;
    do heap4 <- deleteIf (hierarchy this) heap3;
    do heap5 <- deleteIf (contours this) heap4;
    Ok ({| cv := cv this;
           src := None; dst := None; gray := None; hierarchy := None;
           contours := None;
           lastDimensions := (of_Z 0, of_Z 0) |},
        heap5).

(** The [try] block of [ensureMats]: the five constructors in order, then
    [lastDimensions].  [throwsAt = Some i] when the constructor number [i],
    from [0], throws: the fields assigned before it keep their new values,
    and the [catch] only logs. *)
Definition allocate (throwsAt : option nat) (width height : num)
    (this : Mats) (heap : Opencv) : Mats * Opencv :=
  let throws i :=
    match throwsAt with Some j => Nat.eqb i j | None => false end in
  if throws 0%nat then (this, heap) else
  let '(m0, heap0) := newMat heap in
  let this0 :=
    {| cv := cv this; src := Some m0; dst := dst this; gray := gray this;
       hierarchy := hierarchy this; contours := contours this;
       lastDimensions := lastDimensions this |} in
  if throws 1%nat then (this0, heap0) else
  let '(m1, heap1) := newMat heap0 in
  let this1 :=
    {| cv := cv this0; src := src this0; dst := Some m1; gray := gray this0;
       hierarchy := hierarchy this0; contours := contours this0;
       lastDimensions := lastDimensions this0 |} in
  if throws 2%nat then (this1, heap1) else
  let '(m2, heap2) := newMat heap1 in
  let this2 :=
    {| cv := cv this1; src := src this1; dst := dst this1; gray := Some m2;
       hierarchy := hierarchy this1; contours := contours this1;
       lastDimensions := lastDimensions this1 |} in
  if throws 3%nat then (this2, heap2) else
  let '(m3, heap3) := newMat heap2 in
  let this3 :=
    {| cv := cv this2; src := src this2; dst := dst this2; gray := gray this2;
       hierarchy := Some m3; contours := contours this2;
       lastDimensions := lastDimensions this2 |} in
  if throws 4%nat then (this3, heap3) else
  let '(m4, heap4) := newMat heap3 in
  ({| cv := cv this3; src := src this3; dst := dst this3; gray := gray this3;
      hierarchy := hierarchy this3; contours := Some m4;
      lastDimensions := (width, height) |},
   heap4).

(** [ensureMats(width, height)]. *)
Definition ensureMats (windowCv : bool) (throwsAt : option nat)
    (width height : num) (this : Mats) (heap : Opencv)
  : result (Mats * Opencv) :=
  let this := lazyInit windowCv this in
  if negb (cv this) then Ok (this, heap)
  else if (match src this with Some _ => true | None => false end
           && (fst (lastDimensions this) ==? width)%js
           && (snd (lastDimensions this) ==? height)%js)%bool
  then Ok (this, heap)
  else
    do cleaned <- cleanup windowCv this heap;
    Ok (allocate throwsAt width height (fst cleaned) (snd cleaned)).

(** A call of one of the two methods that touch the matrices. *)
Inductive MatsCall : Type :=
| EnsureMats (windowCv : bool) (throwsAt : option nat) (width height : num)
| Cleanup (windowCv : bool).

Definition matsCall (call : MatsCall) (state : Mats * Opencv)
  : result (Mats * Opencv) :=
  match call with
  | EnsureMats windowCv throwsAt width height =>
      ensureMats windowCv throwsAt width height (fst state) (snd state)
  | Cleanup windowCv => cleanup windowCv (fst state) (snd state)
  end.

(* ================================================================== *)
(** * components/BlobTracker.tsx: the preview and the colours *)
(* ================================================================== *)

Definition PREVIEW_MAX_DIMENSION : num := 480.

(** [onloadedmetadata]: the [scale] given to [setPreviewScale], from
    [videoWidth] and [videoHeight]; the quotient is a double. *)
Definition previewScale (vw vh : num) : num :=
  let maxDim := max vw vh in
  if (maxDim >? PREVIEW_MAX_DIMENSION)%js
  then (maxDim / PREVIEW_MAX_DIMENSION)%double
  else 1.

(** [animate]: [pW] and [pH], the size of the canvas the frame is analysed
    on: [Math.floor] of a quotient of doubles. *)
Definition processSize (w h previewScale : num) : num * num :=
  (JsMath.floor (w / previewScale)%double, JsMath.floor (h / previewScale)%double).


(** [settings.colorMode]. *)
Inductive ColorMode : Type := Solid | Cycle | Random.

(** What [drawOverlays] strokes and fills with: [settings.baseColor], or
    [hsl(hue, 100%, 60%)]. *)
Inductive Color : Type :=
| BaseColor
| Hsl (hue : num).

(** [// Color Logic]. *)
Definition blobColor (colorMode : ColorMode) (time : num) (blob : DetectedBlob)
  : Color :=
  match colorMode with
  | Cycle => Hsl (JsMath.rem (time * Fin 0.1 + of_Z (id blob) * 30)%js 360)
  | Random => Hsl (JsMath.rem (of_Z (id blob) * Fin 137.508)%js 360)
  | Solid => BaseColor
  end.

(* ================================================================== *)
(** * App and ControlPanel: the state of the page *)
(* ================================================================== *)

(** [RenderState] of types.ts. *)
Inductive RenderState : Type := Idle | Rendering | Completed.

(** The state of [App]: its [useState] cells, without the settings, and the
    object URLs it has made and revoked.  A file and a URL are known by a
    number; [renderTime] is [stats.renderTime]. *)
Record App : Type := {
  videoFile : option nat;
  isPlaying : bool;
  renderState : RenderState;
  renderProgress : num;
  downloadUrl : option nat;
  downloadExt : string;
  renderTime : num;
  objectUrls : nat;
  revokedUrls : list nat
}.

Definition newApp : App :=
  {| videoFile := None; isPlaying := false; renderState := Idle;
     renderProgress := 0; downloadUrl := None; downloadExt := "webm";
     renderTime := 0; objectUrls := 0; revokedUrls := [] |}.

(** [handleUpload]: [files] is [e.target.files]. *)
Definition handleUpload (files : list nat) (app : App) : App :=
  match files with
  | file :: _ =>
      {| videoFile := Some file;
         isPlaying := true;
         renderState := Idle;
         renderProgress := 0;
         downloadUrl := None;
         downloadExt := downloadExt app;
         renderTime := renderTime app;
         objectUrls := objectUrls app;
         revokedUrls :=
           match downloadUrl app with
           | Some url => revokedUrls app ++ [url]
           | None => revokedUrls app
           end |}
  | [] => app
  end.

(** [handleGenerate]. *)
Definition handleGenerate (app : App) : App :=
  match videoFile app with
  | None => app
  | Some _ =>
      {| videoFile := videoFile app;
         isPlaying := false;
         renderState := Rendering;
         renderProgress := 0;
         downloadUrl := None;
         downloadExt := downloadExt app;
         renderTime := renderTime app;
         objectUrls := objectUrls app;
         revokedUrls := revokedUrls app |}
  end.

(** [handleRenderUpdate]. *)
Definition handleRenderUpdate (progress : num) (app : App) : App :=
  {| videoFile := videoFile app;
     isPlaying := isPlaying app;
     renderState := renderState app;
     renderProgress := progress;
     downloadUrl := downloadUrl app;
     downloadExt := downloadExt app;
     renderTime := renderTime app;
     objectUrls := objectUrls app;
     revokedUrls := revokedUrls app |}.

(** [handleRenderComplete]: [URL.createObjectURL] gives a new URL. *)
Definition handleRenderComplete (extension : string) (app : App) : App :=
  {| videoFile := videoFile app;
     isPlaying := false;
     renderState := Completed;
     renderProgress := renderProgress app;
     downloadUrl := Some (objectUrls app);
     downloadExt := extension;
     renderTime := renderTime app;
     objectUrls := S (objectUrls app);
     revokedUrls := revokedUrls app |}.

(** [onTogglePlay]. *)
Definition togglePlay (app : App) : App :=
  {| videoFile := videoFile app;
     isPlaying := negb (isPlaying app);
     renderState := renderState app;
     renderProgress := renderProgress app;
     downloadUrl := downloadUrl app;
     downloadExt := downloadExt app;
     renderTime := renderTime app;
     objectUrls := objectUrls app;
     revokedUrls := revokedUrls app |}.

(** [setStats], as far as [renderTime] goes. *)
Definition statsUpdate (time : num) (app : App) : App :=
  {| videoFile := videoFile app;
     isPlaying := isPlaying app;
     renderState := renderState app;
     renderProgress := renderProgress app;
     downloadUrl := downloadUrl app;
     downloadExt := downloadExt app;
     renderTime := time;
     objectUrls := objectUrls app;
     revokedUrls := revokedUrls app |}.

(** What can happen to the page: the user works a control of the panel, or
    the tracker calls back. *)
Inductive Action : Type :=
| Upload (files : list nat)
| TogglePlay
| Generate
| RenderUpdate (progress : num)
| RenderCompleted (extension : string)
| StatsUpdate (time : num).

Definition act (action : Action) (app : App) : App :=
  match action with
  | Upload files => handleUpload files app
  | TogglePlay => togglePlay app
  | Generate => handleGenerate app
  | RenderUpdate progress => handleRenderUpdate progress app
  | RenderCompleted extension => handleRenderComplete extension app
  | StatsUpdate time => statsUpdate time app
  end.

(** [const isRendering = renderState === 'rendering']. *)
Definition isRendering (app : App) : bool :=
  match renderState app with Rendering => true | _ => false end.

(** The footer of the panel: the progress bar, the download link, or the
    button, which may be disabled. *)
Inductive Footer : Type :=
| ProgressBar (progress : num)
| DownloadLink (url : nat) (extension : string)
| GenerateButton (disabled : bool).

Definition footer (app : App) : Footer :=
  if isRendering app then ProgressBar (renderProgress app)
  else
    match downloadUrl app with
    | Some url => DownloadLink url (downloadExt app)
    | None =>
        GenerateButton ((renderTime app ==? 0)%js && negb (isPlaying app))
    end.

(** Whether the panel lets the action through: the file input and the
    preview button are disabled while rendering, and [onGenerate] is on the
    button of the footer.  The callbacks of the tracker are not the
    panel's. *)
Definition offered (app : App) (action : Action) : bool :=
  match action with
  | Upload _ | TogglePlay => negb (isRendering app)
  | Generate =>
      match footer app with
      | GenerateButton disabled => negb disabled
      | _ => false
      end
  | RenderUpdate _ | RenderCompleted _ | StatsUpdate _ => true
  end.

(** The page after the actions, in order; an action the panel does not
    offer does nothing. *)
Definition session (actions : list Action) (app : App) : App :=
  fold_left (fun app action => if offered app action then act action app else app)
    actions app.

(* ================================================================== *)
(** * The blobs as shared objects *)
(* ================================================================== *)

(** [processFrame] returns the very objects it keeps in [activeBlobs], and
    [drawOverlays] writes [visualX] and [visualY] into the objects it is
    given.  Here the blobs live in a heap and are known by their address,
    the position in the heap; [activeBlobs] and the list returned hold
    addresses. *)

(** What stands at an address that was never allocated; no address of the
    tracker is such. *)
Definition noBlob : DetectedBlob :=
  {| id := 0; x := NaN; y := NaN; w := NaN; h := NaN; area := NaN;
     history := []; lastSeen := 0; visualX := None; visualY := None |}.

Definition object (heap : list DetectedBlob) (address : nat) : DetectedBlob :=
  nth address heap noBlob.

(** An assignment to fields of the object at [address]. *)
Definition assign (address : nat) (blob : DetectedBlob)
    (heap : list DetectedBlob) : list DetectedBlob :=
  if (address <? length heap)%nat
  then firstn address heap ++ blob :: skipn (S address) heap
  else heap.

(** The tracking state with its heap. *)
Record Shared : Type := {
  counter : Z;                    (* [this.nextBlobId] *)
  entries : JsMap.t nat;          (* [this.activeBlobs] *)
  objects : list DetectedBlob
}.

(** The tracking state by value, as [CVProcessor] has it. *)
Definition contents (this : Shared) : CVProcessor :=
  {| nextBlobId := counter this;
     activeBlobs :=
       map (fun e => (fst e, object (objects this) (snd e))) (entries this) |}.

(** The locals of [// 4. Tracking], the blobs by address. *)
Record SharedTracking : Type := {
  sharedSelf : Shared;
  sharedAssigned : JsSet.t;
  sharedTracked : list nat
}.

Definition trackingContents (st : SharedTracking) : Tracking :=
  {| self := contents (sharedSelf st);
     assignedIds := sharedAssigned st;
     trackedBlobs := map (object (objects (sharedSelf st))) (sharedTracked st) |}.

Section SharedTracker.

Variable hypot_fin : Q -> Q -> Q.
Variables sin cos : num -> num.

(** The callback of [currentFrameBlobs.forEach]: [updated] and [newEntity]
    are new objects, and the same object goes into [activeBlobs] and into
    [trackedBlobs]. *)
Definition trackShared (settings : TrackerSettings) (now : Z) (maxDist : num)
    (st : SharedTracking) (newBlob : Candidate) : result SharedTracking :=
  let this := sharedSelf st in
  let '(closestId, _) :=
    findClosest hypot_fin maxDist (trackingContents st) newBlob in
  if negb (closestId =? -1) then
    match JsMap.get closestId (entries this) with
    | None => TypeError
    | Some existing =>
        let updated :=
          updated settings now (object (objects this) existing) newBlob in
        let address := length (objects this) in
        Ok {| sharedSelf :=
                {| counter := counter this;
                   entries := JsMap.set closestId address (entries this);
                   objects := objects this ++ [updated] |};
              sharedAssigned := JsSet.add closestId (sharedAssigned st);
              sharedTracked := sharedTracked st ++ [address] |}
    end
  else
    let newId := counter this in
    let newEntity := newEntity now newId newBlob in
    let address := length (objects this) in
    Ok {| sharedSelf :=
            {| counter := newId + 1;
               entries := JsMap.set newId address (entries this);
               objects := objects this ++ [newEntity] |};
          sharedAssigned := sharedAssigned st;
          sharedTracked := sharedTracked st ++ [address] |}.

(** [// Prune]. *)
Definition pruneShared (now : Z) (this : Shared) : Shared :=
  {| counter := counter this;
     entries :=
       fold_left
         (fun es e =>
            if expired now (object (objects this) (snd e))
            then JsMap.delete (fst e) es else es)
         (entries this) (entries this);
     objects := objects this |}.

(** [processFrame]: the state left, and the addresses of the blobs
    returned. *)
Definition processFrameShared (frame : Frame) (now : Z)
    (settings : TrackerSettings) (scaleFactor : num) (this : Shared)
  : result (Shared * list nat) :=
  match frame with
  | CvMissing | MatsMissing | FrameAccessError => Ok (this, [])
  | Contours contours =>
      do st <- forEach (trackShared settings now (maxDist scaleFactor))
                 (extract settings scaleFactor contours)
                 {| sharedSelf := this; sharedAssigned := JsSet.empty;
                    sharedTracked := [] |};
      Ok (pruneShared now (sharedSelf st), sharedTracked st)
  end.

(** [drawOverlays(ctx, blobs, w, h, time)]: the callback of
    [blobs.forEach] writes the display position into the blob. *)
Definition drawShared (settings : TrackerSettings) (time : num)
    (heap : list DetectedBlob) (blob : nat) : list DetectedBlob :=
  assign blob (fst (drawOverlay sin cos settings time (object heap blob))) heap.

Definition drawOverlaysShared (settings : TrackerSettings) (time : num)
    (blobs : list nat) (this : Shared) : Shared :=
  {| counter := counter this;
     entries := entries this;
     objects := fold_left (drawShared settings time) blobs (objects this) |}.

End SharedTracker.

(** [new CVProcessor(cv)]. *)
Definition newShared : Shared :=
  {| counter := 1; entries := JsMap.empty; objects := [] |}.

(* ================================================================== *)
(** * Facts on numbers, maps and sets *)
(* ================================================================== *)

Module JsNumFacts.

Lemma ltb_irrefl (a : num) : (a <? a)%js = false.
Proof.
  destruct a as [| | |q]; simpl; trivial.
  now rewrite (proj1 (Qeq_alt q q) (Qeq_refl q)).
Qed.

Lemma ltb_Fin (p q : Q) : (Fin p <? Fin q)%js = true <-> (p < q)%Q.
Proof.
  simpl. rewrite Qlt_alt. destruct (p ?= q)%Q; split; congruence.
Qed.

Lemma ltb_trans (a b c : num) :
  (a <? b)%js = true -> (b <? c)%js = true -> (a <? c)%js = true.
Proof.
  destruct a as [| | |p], b as [| | |q], c as [| | |r];
    simpl; trivial; try discriminate.
  intros H1 H2. apply (ltb_Fin p r).
  apply Qlt_trans with q; [apply (ltb_Fin p q) | apply (ltb_Fin q r)]; assumption.
Qed.

Lemma ltb_asym (a b : num) : (a <? b)%js = true -> (b <? a)%js = false.
Proof.
  intros H. destruct (b <? a)%js eqn:E; trivial.
  pose proof (ltb_trans _ _ _ H E) as F. now rewrite ltb_irrefl in F.
Qed.

Lemma leb_Fin (p q : Q) : (Fin p <=? Fin q)%js = true <-> (p <= q)%Q.
Proof.
  simpl. rewrite Qle_alt. destruct (p ?= q)%Q; split; congruence.
Qed.

(** On finite numbers [a > b] is the negation of [a <= b]. *)
Lemma gtb_Fin_leb (p q : Q) : (Fin p >? Fin q)%js = negb (Fin p <=? Fin q)%js.
Proof.
  unfold gtb. simpl. rewrite <- (Qcompare_antisym p q).
  destruct (p ?= q)%Q; reflexivity.
Qed.

(** A difference with a non-finite term is not finite. *)
Lemma sub_not_finite_l (a b : num) : is_finite a = false -> is_finite (a - b)%js = false.
Proof. destruct a, b; simpl; trivial; discriminate. Qed.

(** Nothing non-finite that [hypot] returns is below anything. *)
Lemma hypot_not_finite (f : Q -> Q -> Q) (a b m : num) :
  is_finite a = false \/ is_finite b = false ->
  (hypot_with f a b <? m)%js = false.
Proof.
  intros [H | H]; destruct a, b; simpl in *; try discriminate; destruct m; trivial.
Qed.

End JsNumFacts.

(* ================================================================== *)
(** * Facts on doubles: order, exactness and error of the rounding *)
(* ================================================================== *)

Module DoubleFacts.
Import Double.

Section Facts.
Local Open Scope Q_scope.

(** ** Powers of two *)

Lemma pow2_pos e : 0 < 2 ^ e.
Proof. apply Qpower_0_lt. reflexivity. Qed.

Lemma pow2_le a b : (a <= b)%Z -> 2 ^ a <= 2 ^ b.
Proof. intros H. apply Qpower_le_compat_l; [exact H | discriminate]. Qed.

Lemma pow2_lt a b : (a < b)%Z -> 2 ^ a < 2 ^ b.
Proof. intros H. apply Qpower_lt_compat_l; [exact H | reflexivity]. Qed.

Lemma pow2_lt_inv a b : 2 ^ a < 2 ^ b -> (a < b)%Z.
Proof.
  intros H. apply Qpower_lt_compat_l_inv with 2; [exact H | reflexivity].
Qed.

Lemma pow2_plus a b : 2 ^ (a + b) == 2 ^ a * 2 ^ b.
Proof. apply Qpower_plus. discriminate. Qed.

Lemma pow2_Z a : (0 <= a)%Z -> inject_Z (2 ^ a) == 2 ^ a.
Proof. intros H. apply (Zpower_Qpower 2 a H). Qed.

(** ** The binade of a positive number *)

Lemma ilog2_spec q : 0 < q -> 2 ^ ilog2 q <= q /\ q < 2 ^ (ilog2 q + 1).
Proof.
  intros Hq. unfold ilog2.
  destruct q as [n d]. cbn [Qnum Qden].
  assert (Hn : (0 < n)%Z) by (unfold Qlt in Hq; simpl in Hq; lia).
  set (a := Z.log2 n). set (b := Z.log2 (Z.pos d)).
  destruct (Z.log2_spec n Hn) as [Ha1 Ha2]. fold a in Ha1, Ha2.
  destruct (Z.log2_spec (Z.pos d) (Pos2Z.is_pos d)) as [Hb1 Hb2].
  fold b in Hb1, Hb2.
  assert (Ha0 : (0 <= a)%Z) by apply Z.log2_nonneg.
  assert (Hb0 : (0 <= b)%Z) by apply Z.log2_nonneg.
  assert (Hd : 0 < inject_Z (Z.pos d)) by (unfold Qlt; simpl; lia).
  assert (Hmul : (n # d) * inject_Z (Z.pos d) == inject_Z n).
  { rewrite (Qmake_Qdiv n d). field. intros H0. rewrite H0 in Hd. discriminate. }
  assert (HA1 : 2 ^ a <= inject_Z n).
  { rewrite <- pow2_Z by trivial. rewrite <- Zle_Qle. exact Ha1. }
  assert (HA2 : inject_Z n < 2 ^ (a + 1)).
  { rewrite <- pow2_Z by lia. rewrite <- Zlt_Qlt. exact Ha2. }
  assert (HB1 : 2 ^ b <= inject_Z (Z.pos d)).
  { rewrite <- pow2_Z by trivial. rewrite <- Zle_Qle. exact Hb1. }
  assert (HB2 : inject_Z (Z.pos d) < 2 ^ (b + 1)).
  { rewrite <- pow2_Z by lia. rewrite <- Zlt_Qlt. exact Hb2. }
  pose proof (pow2_pos b) as Hpb.
  destruct (Qle_bool (2 ^ (a - b)) (n # d)) eqn:Hle.
  - apply Qle_bool_iff in Hle. split; trivial.
    apply Qnot_le_lt. intros Hc.
    assert (H : 2 ^ (a - b + 1) * 2 ^ b <= (n # d) * inject_Z (Z.pos d)).
    { apply Qle_trans with ((n # d) * 2 ^ b).
      - apply Qmult_le_compat_r; [exact Hc | apply Qlt_le_weak, Hpb].
      - rewrite !(Qmult_comm (n # d)).
        apply Qmult_le_compat_r; [exact HB1 | apply Qlt_le_weak, Hq]. }
    rewrite Hmul, <- pow2_plus in H.
    replace (a - b + 1 + b)%Z with (a + 1)%Z in H by lia.
    apply (Qlt_irrefl (inject_Z n)). eapply Qlt_le_trans; eassumption.
  - assert (Hlt : n # d < 2 ^ (a - b)).
    { apply Qnot_le_lt. intros Hc. apply Qle_bool_iff in Hc. congruence. }
    split; [|replace (a - b - 1 + 1)%Z with (a - b)%Z by lia; exact Hlt].
    apply Qnot_lt_le. intros Hc.
    pose proof (pow2_pos (b + 1)) as Hpb1.
    pose proof (pow2_pos (a - b - 1)) as Hpk1.
    assert (H : (n # d) * inject_Z (Z.pos d) < 2 ^ (a - b - 1) * 2 ^ (b + 1)).
    { apply Qle_lt_trans with (2 ^ (a - b - 1) * inject_Z (Z.pos d)).
      - apply Qmult_le_compat_r; [apply Qlt_le_weak, Hc | apply Qlt_le_weak, Hd].
      - rewrite !(Qmult_comm (2 ^ (a - b - 1))).
        apply Qmult_lt_compat_r; trivial. }
    rewrite Hmul, <- pow2_plus in H.
    replace (a - b - 1 + (b + 1))%Z with a in H by lia.
    apply (Qlt_irrefl (inject_Z n)). eapply Qlt_le_trans; eassumption.
Qed.

Lemma ilog2_mono p q : 0 < p -> p <= q -> (ilog2 p <= ilog2 q)%Z.
Proof.
  intros Hp Hpq.
  destruct (ilog2_spec p Hp) as [H1 _].
  destruct (ilog2_spec q (Qlt_le_trans _ _ _ Hp Hpq)) as [_ H2].
  assert (H : 2 ^ ilog2 p < 2 ^ (ilog2 q + 1)) by lra.
  apply pow2_lt_inv in H. lia.
Qed.

Lemma exponent_mono p q : 0 < p -> p <= q -> (exponent p <= exponent q)%Z.
Proof.
  intros Hp Hpq. unfold exponent. pose proof (ilog2_mono p q Hp Hpq). lia.
Qed.

(** ** The nearest integer *)

Lemma nearest_floor x :
  nearest x = Qfloor x \/ nearest x = (Qfloor x + 1)%Z.
Proof.
  unfold nearest. destruct (x - inject_Z (Qfloor x) ?= 1 # 2); auto.
  destruct (Z.even (Qfloor x)); auto.
Qed.

Lemma nearest_mono x y : x <= y -> (nearest x <= nearest y)%Z.
Proof.
  intros Hxy. pose proof (Qfloor_resp_le x y Hxy) as Hf.
  destruct (Z.eq_dec (Qfloor x) (Qfloor y)) as [He|Hne].
  - unfold nearest. rewrite <- He.
    destruct (Qcompare_spec (x - inject_Z (Qfloor x)) (1 # 2));
      destruct (Qcompare_spec (y - inject_Z (Qfloor x)) (1 # 2));
      try lia; try (destruct (Z.even (Qfloor x)); lia); exfalso; lra.
  - destruct (nearest_floor x) as [-> | ->], (nearest_floor y) as [-> | ->]; lia.
Qed.

Lemma nearest_Z n : nearest (inject_Z n) = n.
Proof.
  unfold nearest. rewrite Qfloor_Z.
  generalize (inject_Z n). intros z.
  destruct (Qcompare_spec (z - z) (1 # 2)); trivial; exfalso; lra.
Qed.

Lemma nearest_ge a x : inject_Z a <= x -> (a <= nearest x)%Z.
Proof. intros H. rewrite <- (nearest_Z a). apply nearest_mono, H. Qed.

Lemma nearest_le b x : x <= inject_Z b -> (nearest x <= b)%Z.
Proof. intros H. rewrite <- (nearest_Z b). apply nearest_mono, H. Qed.

Lemma nearest_close x :
  x - (1 # 2) <= inject_Z (nearest x) <= x + (1 # 2).
Proof.
  pose proof (Qfloor_le x) as Hl. pose proof (Qlt_floor x) as Hu.
  rewrite inject_Z_plus in Hu. change (inject_Z 1) with 1 in Hu.
  unfold nearest.
  destruct (Qcompare_spec (x - inject_Z (Qfloor x)) (1 # 2)).
  - destruct (Z.even (Qfloor x)); rewrite ?inject_Z_plus;
      change (inject_Z 1) with 1; split; lra.
  - split; lra.
  - rewrite inject_Z_plus. change (inject_Z 1) with 1. split; lra.
Qed.

(** ** Rounding keeps the order *)

Lemma scaled_pos q e : 0 < q -> 0 < q / 2 ^ e.
Proof.
  intros Hq. apply Qlt_shift_div_l; [apply pow2_pos | lra].
Qed.

Lemma round_pos_nonneg q : 0 < q -> 0 <= round_pos q.
Proof.
  intros Hq. unfold round_pos.
  apply Qmult_le_0_compat; [|apply Qlt_le_weak, pow2_pos].
  change 0 with (inject_Z 0). rewrite <- Zle_Qle. apply nearest_ge.
  apply Qlt_le_weak, scaled_pos, Hq.
Qed.

Lemma round_pos_mono p q : 0 < p -> p <= q -> round_pos p <= round_pos q.
Proof.
  intros Hp Hpq. assert (Hq : 0 < q) by lra.
  pose proof (exponent_mono p q Hp Hpq) as He.
  unfold round_pos.
  destruct (Z.eq_dec (exponent p) (exponent q)) as [Heq|Hne].
  - rewrite Heq. apply Qmult_le_compat_r; [|apply Qlt_le_weak, pow2_pos].
    rewrite <- Zle_Qle. apply nearest_mono.
    apply Qmult_le_compat_r; trivial.
    apply Qlt_le_weak, Qinv_lt_0_compat, pow2_pos.
  - assert (Hlt : (exponent p < exponent q)%Z) by lia. clear He Hne.
    set (ep := exponent p) in *. set (eq := exponent q) in *.
    pose proof (pow2_pos ep) as Hpp. pose proof (pow2_pos eq) as Hpq'.
    (* the larger one is at least [2^52] grid steps *)
    assert (Hbig : (2 ^ 52 <= nearest (q / 2 ^ eq))%Z).
    { apply nearest_ge. rewrite pow2_Z by lia.
      apply Qle_shift_div_l; trivial. rewrite <- pow2_plus.
      assert (E : eq = (ilog2 q - 52)%Z) by (unfold eq, ep, exponent in *; lia).
      rewrite E. replace (52 + (ilog2 q - 52))%Z with (ilog2 q) by lia.
      apply ilog2_spec, Hq. }
    (* the smaller one is at most [2^53] grid steps *)
    assert (Hsmall : (nearest (p / 2 ^ ep) <= 2 ^ 53)%Z).
    { apply nearest_le. rewrite pow2_Z by lia.
      apply Qle_shift_div_r; trivial. rewrite <- pow2_plus.
      destruct (ilog2_spec p Hp) as [_ Hu].
      apply Qlt_le_weak. eapply Qlt_le_trans; [exact Hu|].
      apply pow2_le. unfold ep, exponent. lia. }
    apply Qle_trans with (inject_Z (2 ^ 53) * 2 ^ ep).
    { apply Qmult_le_compat_r; [|lra]. rewrite <- Zle_Qle. exact Hsmall. }
    apply Qle_trans with (inject_Z (2 ^ 52) * 2 ^ eq).
    2:{ apply Qmult_le_compat_r; [|lra]. rewrite <- Zle_Qle. exact Hbig. }
    rewrite !pow2_Z by lia. rewrite <- !pow2_plus. apply pow2_le. lia.
Qed.


Lemma round64_pos q : 0 < q -> round64 q == round_pos q.
Proof.
  intros H. unfold round64.
  destruct (Qcompare_spec q 0); try (exfalso; lra). apply Qred_correct.
Qed.

Lemma round64_neg q : q < 0 -> round64 q == - round_pos (- q).
Proof.
  intros H. unfold round64.
  destruct (Qcompare_spec q 0); try (exfalso; lra). apply Qred_correct.
Qed.

Lemma round64_zero q : q == 0 -> round64 q == 0.
Proof.
  intros H. unfold round64.
  destruct (Qcompare_spec q 0); try (exfalso; lra). reflexivity.
Qed.

Lemma round64_nonneg q : 0 <= q -> 0 <= round64 q.
Proof.
  intros H. destruct (Qlt_le_dec 0 q) as [Hp|Hz].
  - rewrite round64_pos by trivial. now apply round_pos_nonneg.
  - rewrite round64_zero by lra. apply Qle_refl.
Qed.

Lemma round64_nonpos q : q <= 0 -> round64 q <= 0.
Proof.
  intros H. destruct (Qlt_le_dec q 0) as [Hn|Hz].
  - rewrite round64_neg by trivial.
    assert (0 <= round_pos (- q)) by (apply round_pos_nonneg; lra). lra.
  - rewrite round64_zero by lra. apply Qle_refl.
Qed.

(** Rounding keeps the order. *)
Lemma round64_mono p q : p <= q -> round64 p <= round64 q.
Proof.
  intros H.
  destruct (Qlt_le_dec 0 p) as [Hp|Hp].
  - rewrite (round64_pos p), (round64_pos q) by lra. now apply round_pos_mono.
  - destruct (Qlt_le_dec 0 q) as [Hq|Hq].
    + apply Qle_trans with 0; [now apply round64_nonpos | apply round64_nonneg; lra].
    + destruct (Qlt_le_dec q 0) as [Hq'|Hq'].
      * rewrite (round64_neg p), (round64_neg q) by lra.
        assert (round_pos (- q) <= round_pos (- p)) by (apply round_pos_mono; lra).
        lra.
      * rewrite (round64_zero q) by lra. now apply round64_nonpos.
Qed.


(** ** What is a double, and how far a double is *)





(** Rounding a number that is not below [2^-1022] moves it by at most one
    part in [2^53]. *)
Lemma round64_error q :
  2 ^ (-1022) <= q ->
  q * (1 - 2 ^ (-53)) <= round64 q <= q * (1 + 2 ^ (-53)).
Proof.
  intros Hmin. pose proof (pow2_pos (-1022)) as Hp.
  assert (Hq : 0 < q) by lra.
  rewrite round64_pos by trivial. unfold round_pos.
  destruct (ilog2_spec q Hq) as [Hl Hu].
  assert (Hlog : (-1022 <= ilog2 q)%Z).
  { assert (H : 2 ^ (-1022) < 2 ^ (ilog2 q + 1)) by lra.
    apply pow2_lt_inv in H. lia. }
  assert (Hg : exponent q = (ilog2 q - 52)%Z) by (unfold exponent; lia).
  rewrite Hg. set (g := (ilog2 q - 52)%Z).
  pose proof (pow2_pos g) as Hpg.
  pose proof (nearest_close (q / 2 ^ g)) as [Hn1 Hn2].
  assert (Hgrid : 2 ^ g <= q * (2 * 2 ^ (-53))).
  { assert (E : 2 ^ g == 2 ^ ilog2 q * (2 * 2 ^ (-53))).
    { assert (E52 : 2 * 2 ^ (-53) == 2 ^ (-52)) by reflexivity.
      rewrite E52, <- pow2_plus.
      unfold g. replace (ilog2 q + -52)%Z with (ilog2 q - 52)%Z by lia.
      reflexivity. }
    rewrite E. apply Qmult_le_compat_r; [exact Hl | discriminate]. }
  assert (E : q / 2 ^ g * 2 ^ g == q) by (field; lra).
  set (N := inject_Z (nearest (q / 2 ^ g))) in *.
  assert (H1 : (q / 2 ^ g - (1 # 2)) * 2 ^ g <= N * 2 ^ g)
    by (apply Qmult_le_compat_r; lra).
  assert (H2 : N * 2 ^ g <= (q / 2 ^ g + (1 # 2)) * 2 ^ g)
    by (apply Qmult_le_compat_r; lra).
  split; lra.
Qed.

End Facts.

End DoubleFacts.

Module JsMapFacts.
Import JsMap.

Section Facts.
Context {V : Type}.
Implicit Types (m : JsMap.t V) (k : Z) (v : V).

Lemma get_In m k v : get k m = Some v -> In (k, v) m.
Proof.
  induction m as [|[k' v'] m IH]; simpl; [discriminate|].
  destruct (Z.eqb_spec k' k) as [->|Hne].
  - intros [= ->]. now left.
  - intros H. right. auto.
Qed.

Lemma get_keys m k v : get k m = Some v -> In k (keys m).
Proof. intros H. apply get_In in H. now apply (in_map fst) in H. Qed.

Lemma get_None m k : get k m = None <-> ~ In k (keys m).
Proof.
  induction m as [|[k' v'] m IH]; simpl; [tauto|].
  destruct (Z.eqb_spec k' k) as [->|Hne].
  - split; [discriminate | tauto].
  - rewrite IH. tauto.
Qed.

Lemma In_get m k v : NoDup (keys m) -> In (k, v) m -> get k m = Some v.
Proof.
  induction m as [|[k' v'] m IH]; simpl; [tauto|].
  intros Hnd [[= -> ->]|Hin].
  - now rewrite Z.eqb_refl.
  - inversion Hnd as [|? ? Hk' Hnd']; subst.
    destruct (Z.eqb_spec k' k) as [->|Hne].
    + exfalso. apply Hk'. now apply (in_map fst) in Hin.
    + auto.
Qed.

Lemma get_set_eq m k v : get k (set k v m) = Some v.
Proof.
  induction m as [|[k' v'] m IH]; simpl.
  - now rewrite Z.eqb_refl.
  - destruct (Z.eqb_spec k' k) as [->|Hne]; simpl.
    + now rewrite Z.eqb_refl.
    + destruct (Z.eqb_spec k' k); [contradiction | assumption].
Qed.

Lemma get_set_neq m k k' v : k <> k' -> get k' (set k v m) = get k' m.
Proof.
  intros Hne. induction m as [|[k0 v0] m IH]; simpl.
  - destruct (Z.eqb_spec k k'); [contradiction | reflexivity].
  - destruct (Z.eqb_spec k0 k) as [->|Hne0]; simpl.
    + destruct (Z.eqb_spec k k'); [contradiction | reflexivity].
    + now rewrite IH.
Qed.

Lemma keys_set_in m k v : In k (keys m) -> keys (set k v m) = keys m.
Proof.
  induction m as [|[k' v'] m IH]; simpl; [tauto|].
  destruct (Z.eqb_spec k' k) as [->|Hne]; simpl; trivial.
  intros [?|Hin]; [contradiction|]. now rewrite IH.
Qed.

Lemma set_notin m k v : ~ In k (keys m) -> set k v m = m ++ [(k, v)].
Proof.
  induction m as [|[k' v'] m IH]; simpl; trivial.
  intros Hn. destruct (Z.eqb_spec k' k) as [->|Hne]; [tauto|].
  rewrite IH; tauto.
Qed.

Lemma keys_set m k v :
  keys (set k v m) = if has k m then keys m else keys m ++ [k].
Proof.
  unfold has. destruct (get k m) eqn:E.
  - apply keys_set_in. eapply get_keys; eauto.
  - apply get_None in E. rewrite set_notin by assumption.
    unfold keys. now rewrite map_app.
Qed.

Lemma NoDup_keys_set m k v : NoDup (keys m) -> NoDup (keys (set k v m)).
Proof.
  intros Hnd. rewrite keys_set. unfold has.
  destruct (get k m) eqn:E; trivial.
  apply get_None in E.
  apply NoDup_app; [assumption | constructor; [intros []|constructor] |].
  intros a Ha [<-|[]]. contradiction.
Qed.

Lemma delete_middle (l r : JsMap.t V) k v :
  ~ In k (keys l) -> delete k (l ++ (k, v) :: r) = l ++ r.
Proof.
  induction l as [|[k' v'] l IH]; simpl.
  - now rewrite Z.eqb_refl.
  - intros Hn. destruct (Z.eqb_spec k' k) as [->|Hne]; [tauto|].
    rewrite IH; tauto.
Qed.

Lemma keys_filter_In (f : Z * V -> bool) m k :
  In k (keys (filter f m)) -> In k (keys m).
Proof.
  unfold keys. rewrite !in_map_iff. intros ([k' v] & Hk & Hin).
  apply filter_In in Hin. exists (k', v). tauto.
Qed.

Lemma NoDup_keys_filter (f : Z * V -> bool) m :
  NoDup (keys m) -> NoDup (keys (filter f m)).
Proof.
  induction m as [|[k v] m IH]; simpl; trivial.
  intros Hnd. inversion Hnd as [|? ? Hk Hnd']; subst.
  destruct (f (k, v)); simpl; auto.
  constructor; auto. intros Hin. apply Hk. eapply keys_filter_In; eauto.
Qed.

Lemma get_filter (f : Z * V -> bool) m k :
  NoDup (keys m) ->
  get k (filter f m) =
  match get k m with
  | Some v => if f (k, v) then Some v else None
  | None => None
  end.
Proof.
  induction m as [|[k' v'] m IH]; simpl; trivial.
  intros Hnd. inversion Hnd as [|? ? Hk Hnd']; subst.
  destruct (Z.eqb_spec k' k) as [->|Hne].
  - destruct (f (k, v')) eqn:E; simpl.
    + now rewrite Z.eqb_refl.
    + rewrite IH by assumption.
      apply get_None in Hk. now rewrite Hk.
  - destruct (f (k', v')); simpl; auto.
    destruct (Z.eqb_spec k' k); [contradiction | auto].
Qed.

End Facts.
End JsMapFacts.

Module JsSetFacts.
Import JsSet.

Lemma has_In k s : has k s = true <-> In k s.
Proof.
  unfold has. rewrite existsb_exists. split.
  - intros [k' [Hin Heq]]. apply Z.eqb_eq in Heq. now subst.
  - intros Hin. exists k. split; [assumption | apply Z.eqb_refl].
Qed.

Lemma has_add k k' s : has k' (add k s) = (has k' s || (k' =? k))%bool.
Proof.
  unfold add. destruct (has k s) eqn:E.
  - destruct (Z.eqb_spec k' k) as [->|]; [now rewrite E | now rewrite orb_false_r].
  - unfold has. rewrite existsb_app. simpl. now rewrite orb_false_r.
Qed.

End JsSetFacts.

(** ** [forEach] *)

Lemma forEach_app {A S} (f : S -> A -> result S) (xs ys : list A) (s : S) :
  forEach f (xs ++ ys) s = do s' <- forEach f xs s; forEach f ys s'.
Proof.
  revert s. induction xs as [|a xs IH]; intros s; simpl; trivial.
  destruct (f s a); simpl; trivial.
Qed.

(** A loop whose body cannot throw from a state satisfying [P], and keeps
    [P] of the elements done so far, does not throw. *)
Lemma forEach_ind {A S} (f : S -> A -> result S) (P : list A -> S -> Prop) :
  (forall done s a, P done s -> exists s', f s a = Ok s' /\ P (done ++ [a]) s') ->
  forall xs done s, P done s ->
    exists s', forEach f xs s = Ok s' /\ P (done ++ xs) s'.
Proof.
  intros Hstep. induction xs as [|a xs IH]; intros done s HP; simpl.
  - exists s. now rewrite app_nil_r.
  - destruct (Hstep _ _ a HP) as (s1 & -> & HP1). simpl.
    destruct (IH _ _ HP1) as (s2 & Hs2 & HP2).
    exists s2. split; trivial. now rewrite <- app_assoc in HP2.
Qed.

(* ================================================================== *)
(** * The tracker: invariants of [processFrame] *)
(* ================================================================== *)

(** The state invariant: the keys of [activeBlobs] are distinct, each blob
    is stored under its own [id], and every id in use is at least [1] and
    below [nextBlobId]. *)
Definition wf (p : CVProcessor) : Prop :=
  NoDup (JsMap.keys (activeBlobs p)) /\
  1 <= nextBlobId p /\
  forall k b, JsMap.get k (activeBlobs p) = Some b ->
              id b = k /\ 1 <= k < nextBlobId p.

(** An active blob that no candidate of this frame has been matched to. *)
Definition unassigned (st : Tracking) (k : Z) (b : DetectedBlob) : Prop :=
  In (k, b) (activeBlobs (self st)) /\ JsSet.has k (assignedIds st) = false.

Section TrackerFacts.

Variable hypot_fin : Q -> Q -> Q.

Import JsNumFacts JsMapFacts JsSetFacts.

Lemma wf_new : wf newCVProcessor.
Proof.
  repeat split; simpl; try lia; try constructor; discriminate.
Qed.

(** ** The inner loop: the closest unassigned blob *)

Lemma fold_closer assigned c l : forall k0 d0 k d,
  fold_left (closer hypot_fin assigned c) l (k0, d0) = (k, d) ->
  ((k, d) = (k0, d0) \/
   exists b, In (k, b) l /\ JsSet.has k assigned = false /\
             d = distance hypot_fin c b /\ (d <? d0)%js = true) /\
  (forall k' b', In (k', b') l -> JsSet.has k' assigned = false ->
                 (distance hypot_fin c b' <? d0)%js = false ->
                 (distance hypot_fin c b' <? d)%js = false) /\
  (forall k' b', In (k', b') l -> JsSet.has k' assigned = false ->
                 (distance hypot_fin c b' <? d0)%js = true ->
                 (distance hypot_fin c b' <? d)%js = false /\ (k, d) <> (k0, d0)).
Proof.
  induction l as [|[k1 b1] l IH]; intros k0 d0 k d Hf; simpl in Hf.
  - injection Hf as <- <-. split; [now left|]. split; intros ? ? [].
  - destruct (JsSet.has k1 assigned) eqn:Ha.
    + destruct (IH _ _ _ _ Hf) as (H1 & H2 & H3). split; [|split].
      * destruct H1 as [H1|(b & Hin & Hb)]; [now left|].
        right. exists b. split; [now right | assumption].
      * intros k' b' [[= <- <-]|Hin] Hu; [congruence | eauto].
      * intros k' b' [[= <- <-]|Hin] Hu; [congruence | eauto].
    + destruct (distance hypot_fin c b1 <? d0)%js eqn:Hlt.
      * destruct (IH _ _ _ _ Hf) as (H1 & H2 & H3).
        assert (Hd : (d <? d0)%js = true /\
                     (distance hypot_fin c b1 <? d)%js = false).
        { destruct H1 as [[= -> ->]|(b & _ & _ & _ & Hb)].
          - split; [assumption | apply ltb_irrefl].
          - split; [eapply ltb_trans; eauto | now apply ltb_asym]. }
        destruct Hd as [Hd0 Hd1].
        assert (Hne : (k, d) <> (k0, d0)).
        { intros [= _ ->]. now rewrite ltb_irrefl in Hd0. }
        split; [|split].
        -- right. destruct H1 as [[= -> ->]|(b & Hin & Hu & Hb & _)].
           ++ exists b1. repeat split; trivial. now left.
           ++ exists b. repeat split; trivial. now right.
        -- intros k' b' [[= <- <-]|Hin] Hu Hn0; [assumption|].
           destruct (distance hypot_fin c b' <? distance hypot_fin c b1)%js eqn:E.
           ++ rewrite (ltb_trans _ _ _ E Hlt) in Hn0. discriminate.
           ++ eauto.
        -- intros k' b' [[= <- <-]|Hin] Hu Hn0; [now split|].
           split; [|assumption].
           destruct (distance hypot_fin c b' <? distance hypot_fin c b1)%js eqn:E.
           ++ now apply (H3 k' b').
           ++ eauto.
      * destruct (IH _ _ _ _ Hf) as (H1 & H2 & H3). split; [|split].
        -- destruct H1 as [H1|(b & Hin & Hb)]; [now left|].
           right. exists b. split; [now right | assumption].
        -- intros k' b' [[= <- <-]|Hin] Hu Hn0; [|eauto].
           destruct H1 as [[= -> ->]|(b & _ & _ & _ & Hb)]; [assumption|].
           destruct (distance hypot_fin c b1 <? d)%js eqn:E; trivial.
           rewrite (ltb_trans _ _ _ E Hb) in Hlt. discriminate.
        -- intros k' b' [[= <- <-]|Hin] Hu Hn0; [congruence | eauto].
Qed.

(** What [findClosest] leaves in [(closestId, minDist)]: either the
    sentinel [-1], and then no unassigned blob is below [maxDist]; or an
    unassigned blob below [maxDist] that no unassigned blob is closer than. *)
Lemma findClosest_spec maxDist st c k d :
  wf (self st) ->
  findClosest hypot_fin maxDist st c = (k, d) ->
  (k = -1 /\ d = maxDist /\
   forall k' b', unassigned st k' b' ->
                 (distance hypot_fin c b' <? maxDist)%js = false) \/
  (k <> -1 /\
   exists b, unassigned st k b /\ d = distance hypot_fin c b /\
             (d <? maxDist)%js = true /\
             forall k' b', unassigned st k' b' ->
                           (distance hypot_fin c b' <? d)%js = false).
Proof.
  intros (Hnd & Hn & Hids) Hf. unfold findClosest in Hf.
  destruct (fold_closer _ _ _ _ _ _ _ Hf) as (H1 & H2 & H3).
  destruct H1 as [[= -> ->]|(b & Hin & Hu & Hd & Hlt)].
  - left. repeat split. intros k' b' [Hin Hu].
    destruct (distance hypot_fin c b' <? maxDist)%js eqn:E; trivial.
    destruct (H3 _ _ Hin Hu E) as [_ Hne]. now elim Hne.
  - right. split.
    + intros ->. apply In_get in Hin; trivial.
      apply Hids in Hin. lia.
    + exists b. repeat split; trivial. intros k' b' [Hin' Hu'].
      destruct (distance hypot_fin c b' <? maxDist)%js eqn:E.
      * now apply (H3 _ _ Hin' Hu' E).
      * now apply (H2 _ _ Hin' Hu' E).
Qed.


(** ** One candidate *)

(** The state after a candidate was matched to [existing]. *)
Definition matchedState (settings : TrackerSettings) (now : Z) (st : Tracking)
    (c : Candidate) (existing : DetectedBlob) : Tracking :=
  {| self :=
       {| nextBlobId := nextBlobId (self st);
          activeBlobs :=
            JsMap.set (id existing) (updated settings now existing c)
              (activeBlobs (self st)) |};
     assignedIds := JsSet.add (id existing) (assignedIds st);
     trackedBlobs := trackedBlobs st ++ [updated settings now existing c] |}.

(** The two outcomes of [trackBlob] on a candidate [c]: matched to an
    unassigned active blob that is nearer than [maxDist] and that no
    unassigned active blob is nearer than; or, when no unassigned active
    blob is nearer than [maxDist], a new blob under the next id. *)
Inductive tracked_as (settings : TrackerSettings) (now : Z) (maxDist : num)
    (st : Tracking) (c : Candidate) : Tracking -> Prop :=
| Matched (existing : DetectedBlob) :
    unassigned st (id existing) existing ->
    (distance hypot_fin c existing <? maxDist)%js = true ->
    (forall k' b', unassigned st k' b' ->
       (distance hypot_fin c b' <? distance hypot_fin c existing)%js = false) ->
    tracked_as settings now maxDist st c (matchedState settings now st c existing)
| Spawned :
    (forall k' b', unassigned st k' b' ->
       (distance hypot_fin c b' <? maxDist)%js = false) ->
    tracked_as settings now maxDist st c (spawnBlob now st c).

Lemma trackBlob_spec settings now maxDist st c :
  wf (self st) ->
  exists st', trackBlob hypot_fin settings now maxDist st c = Ok st' /\
              tracked_as settings now maxDist st c st'.
Proof.
  intros Hwf. unfold trackBlob.
  destruct (findClosest hypot_fin maxDist st c) as [k d] eqn:Hf.
  destruct (findClosest_spec _ _ _ _ _ Hwf Hf)
    as [(-> & -> & Hnone)|(Hk & b & Hu & -> & Hlt & Hmin)].
  - simpl. eexists. split; [reflexivity|]. now constructor.
  - destruct (Z.eqb_spec k (-1)) as [|_]; [contradiction|]. simpl.
    unfold matchBlob.
    destruct Hwf as (Hnd & Hn & Hids). pose proof Hu as [Hin Hun].
    apply In_get in Hin; trivial. rewrite Hin.
    destruct (Hids _ _ Hin) as [Hid _]. subst k.
    eexists. split; [reflexivity|].
    now apply (Matched settings now maxDist st c b).
Qed.

Lemma tracked_as_wf settings now maxDist st c st' :
  wf (self st) -> tracked_as settings now maxDist st c st' -> wf (self st').
Proof.
  intros (Hnd & Hn & Hids) [existing [Hin Hun] Hlt Hmin | Hnone].
  - apply In_get in Hin; trivial.
    split; [now apply NoDup_keys_set|]. split; [assumption|].
    intros k b H. simpl in H.
    destruct (Z.eq_dec (id existing) k) as [<-|Hne].
    + rewrite get_set_eq in H. injection H as <-. simpl.
      split; [reflexivity | now apply Hids in Hin].
    + rewrite get_set_neq in H by assumption. now apply Hids in H.
  - split; [now apply NoDup_keys_set|]. split; [simpl; lia|].
    intros k b H. simpl in H |- *.
    destruct (Z.eq_dec (nextBlobId (self st)) k) as [<-|Hne].
    + rewrite get_set_eq in H. injection H as <-. simpl. lia.
    + rewrite get_set_neq in H by assumption. apply Hids in H. lia.
Qed.


(** ** The prune pass *)

(** Deleting each expired entry while visiting it leaves the entries that
    are not expired, in order. *)
Lemma prune_filter now m :
  NoDup (JsMap.keys m) ->
  prune now m = filter (fun e => negb (expired now (snd e))) m.
Proof.
  unfold prune. set (keep := fun e : Z * DetectedBlob => negb (expired now (snd e))).
  assert (H : forall l2 l1, NoDup (JsMap.keys (l1 ++ l2)) ->
            fold_left (pruneBlob now) l2 (filter keep l1 ++ l2) =
            filter keep (l1 ++ l2)).
  { induction l2 as [|[k b] l2 IH]; intros l1 Hnd; simpl.
    - now rewrite !app_nil_r.
    - assert (Hk : ~ In k (JsMap.keys (filter keep l1))).
      { intros Hin. apply keys_filter_In in Hin.
        unfold JsMap.keys in Hnd. rewrite map_app in Hnd. simpl in Hnd.
        apply NoDup_remove_2 in Hnd. apply Hnd. apply in_or_app. now left. }
      replace (l1 ++ (k, b) :: l2) with ((l1 ++ [(k, b)]) ++ l2) in Hnd |- *
        by now rewrite <- app_assoc.
      rewrite <- (IH _ Hnd). f_equal.
      rewrite filter_app. simpl.
      replace (keep (k, b)) with (negb (expired now b)) by reflexivity.
      destruct (expired now b); simpl.
      + rewrite delete_middle by assumption. now rewrite app_nil_r.
      + now rewrite <- app_assoc. }
  intros Hnd. apply (H m []). assumption.
Qed.

Lemma prune_wf now p :
  wf p ->
  wf {| nextBlobId := nextBlobId p; activeBlobs := prune now (activeBlobs p) |}.
Proof.
  intros (Hnd & Hn & Hids). rewrite prune_filter by assumption.
  split; [now apply NoDup_keys_filter|]. split; [assumption|].
  intros k b H. simpl in H. rewrite get_filter in H by assumption.
  destruct (JsMap.get k (activeBlobs p)) as [b'|] eqn:E; [|discriminate].
  destruct (negb _); [|discriminate]. injection H as <-. now apply Hids.
Qed.


(** ** The candidate loop of one frame *)

(** The record that the result holds last under the id [k]. *)
Definition lastTracked (k : Z) (tracked : list DetectedBlob) : option DetectedBlob :=
  find (fun b => id b =? k) (rev tracked).

(** What holds of the loop's state [st] once the candidates [done] of a
    frame processed at [now], from the state [this], have been visited. *)
Record frame_inv (now : Z) (this : CVProcessor) (done : list Candidate)
    (st : Tracking) : Prop := {
  fi_wf : wf (self st);
  fi_next : nextBlobId this <= nextBlobId (self st);
  fi_area : map area (trackedBlobs st) = map cand_area done;
  fi_seen : forall b, In b (trackedBlobs st) -> lastSeen b = now;
  fi_last : forall k b, lastTracked k (trackedBlobs st) = Some b ->
                        JsMap.get k (activeBlobs (self st)) = Some b;
  fi_rest : forall k, ~ In k (map id (trackedBlobs st)) ->
                      JsMap.get k (activeBlobs (self st)) =
                      JsMap.get k (activeBlobs this);
  fi_ids : forall b, In b (trackedBlobs st) ->
                     In (id b) (JsMap.keys (activeBlobs this)) \/
                     nextBlobId this <= id b < nextBlobId (self st)
}.

Lemma frame_inv_init now this :
  wf this ->
  frame_inv now this []
    {| self := this; assignedIds := JsSet.empty; trackedBlobs := [] |}.
Proof.
  intros Hwf. constructor; simpl; trivial; try lia; try tauto; discriminate.
Qed.

Lemma lastTracked_snoc k tracked u :
  lastTracked k (tracked ++ [u]) =
  if id u =? k then Some u else lastTracked k tracked.
Proof. unfold lastTracked. now rewrite rev_app_distr. Qed.

Lemma frame_inv_step settings now maxDist this done st c st' :
  frame_inv now this done st ->
  tracked_as settings now maxDist st c st' ->
  frame_inv now this (done ++ [c]) st'.
Proof.
  intros [Hwf Hnext Harea Hseen Hlast Hrest Hids] Hstep.
  pose proof (tracked_as_wf _ _ _ _ _ _ Hwf Hstep) as Hwf'.
  destruct Hstep as [existing [Hin Hun] Hlt Hmin | Hnone].
  - apply In_get in Hin; [|apply Hwf].
    constructor; simpl; trivial.
    + rewrite !map_app, Harea. reflexivity.
    + intros b Hb. apply in_app_or in Hb as [Hb|[<-|[]]]; auto.
    + intros k b. rewrite lastTracked_snoc. simpl.
      destruct (Z.eqb_spec (id existing) k) as [<-|Hne].
      * intros [= <-]. apply get_set_eq.
      * intros Hl. rewrite get_set_neq by assumption. auto.
    + intros k Hk. rewrite map_app, in_app_iff in Hk. simpl in Hk.
      rewrite get_set_neq by tauto. apply Hrest. tauto.
    + intros b Hb. apply in_app_or in Hb as [Hb|[<-|[]]]; auto. simpl.
      destruct (in_dec Z.eq_dec (id existing) (map id (trackedBlobs st)))
        as [Hi|Hi].
      * apply in_map_iff in Hi as (b' & <- & Hb'). auto.
      * left. rewrite (Hrest _ Hi) in Hin. eapply get_keys; eauto.
  - constructor; simpl; trivial; try lia.
    + rewrite !map_app, Harea. reflexivity.
    + intros b Hb. apply in_app_or in Hb as [Hb|[<-|[]]]; auto.
    + intros k b. rewrite lastTracked_snoc. simpl.
      destruct (Z.eqb_spec (nextBlobId (self st)) k) as [<-|Hne].
      * intros [= <-]. apply get_set_eq.
      * intros Hl. rewrite get_set_neq by assumption. auto.
    + intros k Hk. rewrite map_app, in_app_iff in Hk. simpl in Hk.
      rewrite get_set_neq by tauto. apply Hrest. tauto.
    + intros b Hb. apply in_app_or in Hb as [Hb|[<-|[]]]; simpl; [|lia].
      destruct (Hids _ Hb); [now left | right; lia].
Qed.

(** The candidate loop never throws from a well-formed state. *)
Lemma matchingPass_inv settings scaleFactor now cands this :
  wf this ->
  exists st, matchingPass hypot_fin settings scaleFactor now cands this = Ok st /\
             frame_inv now this cands st.
Proof.
  intros Hwf. unfold matchingPass.
  apply (forEach_ind _ (frame_inv now this)) with (done := []).
  - intros done s a Hinv.
    destruct (trackBlob_spec settings now
                (maxDist scaleFactor) s a
                (fi_wf _ _ _ _ Hinv)) as (s' & Hs' & Has).
    exists s'. split; trivial. eapply frame_inv_step; eauto.
  - now apply frame_inv_init.
Qed.

(** [track] and [processFrame] never throw from a well-formed state, and
    leave one. *)
Lemma track_ok settings scaleFactor now cands this :
  wf this ->
  exists st,
    matchingPass hypot_fin settings scaleFactor now cands this = Ok st /\
    frame_inv now this cands st /\
    track hypot_fin settings scaleFactor now cands this =
    Ok ({| nextBlobId := nextBlobId (self st);
           activeBlobs :=
             filter (fun e => negb (expired now (snd e))) (activeBlobs (self st)) |},
        trackedBlobs st).
Proof.
  intros Hwf.
  destruct (matchingPass_inv settings scaleFactor now cands this Hwf)
    as (st & Hst & Hinv).
  exists st. split; [assumption|]. split; [assumption|].
  unfold track. rewrite Hst. simpl.
  rewrite prune_filter; [reflexivity|]. apply (fi_wf _ _ _ _ Hinv).
Qed.

Lemma processFrame_ok frame now settings scaleFactor this :
  wf this ->
  exists this' tracked,
    processFrame hypot_fin frame now settings scaleFactor this = Ok (this', tracked) /\
    wf this'.
Proof.
  intros Hwf. destruct frame as [| | |cs]; simpl; eauto.
  destruct (track_ok settings scaleFactor now (extract settings scaleFactor cs)
              this Hwf) as (st & _ & Hinv & ->).
  do 2 eexists. split; [reflexivity|].
  rewrite <- prune_filter by apply (fi_wf _ _ _ _ Hinv).
  apply (prune_wf now (self st)), (fi_wf _ _ _ _ Hinv).
Qed.


(** ** Sequences of calls *)

(** The renderer writes [visualX] and [visualY] of the blobs it was handed,
    which are the objects stored in [activeBlobs]; it writes nothing else. *)
Definition sameButVisual (b b' : DetectedBlob) : Prop :=
  id b' = id b /\ x b' = x b /\ y b' = y b /\ w b' = w b /\ h b' = h b /\
  area b' = area b /\ history b' = history b /\ lastSeen b' = lastSeen b.

Definition rendered (p p' : CVProcessor) : Prop :=
  nextBlobId p' = nextBlobId p /\
  Forall2 (fun e e' => fst e' = fst e /\ sameButVisual (snd e) (snd e'))
    (activeBlobs p) (activeBlobs p').

(** [runs allowed p results p']: from the state [p], a sequence of
    [processFrame] calls whose settings satisfy [allowed], with renderings
    in between, returns the lists [results] in this order and leaves [p']. *)
Inductive runs (allowed : TrackerSettings -> Prop)
  : CVProcessor -> list (list DetectedBlob) -> CVProcessor -> Prop :=
| runs_done p : runs allowed p [] p
| runs_frame p frame now settings scaleFactor p1 tracked results p' :
    allowed settings ->
    processFrame hypot_fin frame now settings scaleFactor p = Ok (p1, tracked) ->
    runs allowed p1 results p' ->
    runs allowed p (tracked :: results) p'
| runs_render p p1 results p' :
    rendered p p1 ->
    runs allowed p1 results p' ->
    runs allowed p results p'.

(** The states a tracker can be in. *)
Definition reachable (p : CVProcessor) : Prop :=
  exists results, runs (fun _ => True) newCVProcessor results p.

Lemma rendered_get p p' k :
  rendered p p' ->
  match JsMap.get k (activeBlobs p), JsMap.get k (activeBlobs p') with
  | Some b, Some b' => sameButVisual b b'
  | None, None => True
  | _, _ => False
  end.
Proof.
  intros [_ HF]. induction HF as [|[k1 b1] [k2 b2] l l' [Hk Hb] _ IH]; simpl; trivial.
  simpl in Hk. subst k2. destruct (k1 =? k); assumption.
Qed.

Lemma rendered_keys p p' :
  rendered p p' -> JsMap.keys (activeBlobs p') = JsMap.keys (activeBlobs p).
Proof.
  intros [_ HF]. induction HF as [|[k1 b1] [k2 b2] l l' [Hk Hb] _ IH]; simpl; trivial.
  simpl in Hk. now rewrite Hk, IH.
Qed.

Lemma rendered_wf p p' : wf p -> rendered p p' -> wf p'.
Proof.
  intros (Hnd & Hn & Hids) Hr. pose proof Hr as [Hnext _].
  split; [now rewrite (rendered_keys _ _ Hr)|]. split; [now rewrite Hnext|].
  intros k b' Hb'. pose proof (rendered_get _ _ k Hr) as Hg. rewrite Hb' in Hg.
  destruct (JsMap.get k (activeBlobs p)) as [b|] eqn:E; [|contradiction].
  destruct Hg as (Hid & _). rewrite Hid, Hnext. now apply Hids.
Qed.

Lemma runs_wf allowed p results p' : wf p -> runs allowed p results p' -> wf p'.
Proof.
  intros Hwf Hruns. induction Hruns as [|? ? ? ? ? ? ? ? ? _ Hpf _ IH|? ? ? ? Hr _ IH];
    trivial.
  - apply IH.
    destruct (processFrame_ok frame now settings scaleFactor p Hwf)
      as (p2 & t2 & Heq & Hwf2).
    rewrite Hpf in Heq. now injection Heq as -> ->.
  - apply IH. eapply rendered_wf; eauto.
Qed.

Lemma reachable_wf p : reachable p -> wf p.
Proof. intros [results Hruns]. eapply runs_wf; eauto using wf_new. Qed.

Lemma reachable_new : reachable newCVProcessor.
Proof. exists []. constructor. Qed.

(** ** Ids are handed out once *)

(** What one call does to ids: [nextBlobId] does not decrease, and every id
    returned or active afterwards was active before the call or is one of
    the ids the call handed out. *)
Lemma processFrame_ids frame now settings scaleFactor this this' tracked :
  wf this ->
  processFrame hypot_fin frame now settings scaleFactor this = Ok (this', tracked) ->
  nextBlobId this <= nextBlobId this' /\
  (forall b, In b tracked ->
     In (id b) (JsMap.keys (activeBlobs this)) \/
     nextBlobId this <= id b < nextBlobId this') /\
  (forall k, In k (JsMap.keys (activeBlobs this')) ->
     In k (JsMap.keys (activeBlobs this)) \/
     nextBlobId this <= k < nextBlobId this').
Proof.
  intros Hwf Hpf. destruct frame as [| | |cs]; simpl in Hpf;
    try (injection Hpf as <- <-; split; [lia|]; split; [intros ? []|tauto]).
  destruct (track_ok settings scaleFactor now (extract settings scaleFactor cs)
              this Hwf) as (st & _ & Hinv & Heq).
  rewrite Hpf in Heq. injection Heq as -> ->. simpl.
  destruct Hinv as [Hwf' Hnext Harea Hseen Hlast Hrest Hids].
  split; [assumption|]. split; [assumption|].
  intros k Hk. apply keys_filter_In in Hk.
  destruct (in_dec Z.eq_dec k (map id (trackedBlobs st))) as [Hi|Hi].
  - apply in_map_iff in Hi as (b & <- & Hb). auto.
  - left. destruct (JsMap.get k (activeBlobs (self st))) as [b|] eqn:E.
    + rewrite (Hrest _ Hi) in E. eapply get_keys; eauto.
    + apply get_None in E. contradiction.
Qed.

(** An id that has been handed out and is no longer active. *)
Definition retired (p : CVProcessor) (k : Z) : Prop :=
  k < nextBlobId p /\ ~ In k (JsMap.keys (activeBlobs p)).

(** A retired id stays retired, and no later call returns it. *)
Lemma retired_forever allowed p results p' k :
  wf p -> retired p k -> runs allowed p results p' ->
  retired p' k /\
  forall tracked b, In tracked results -> In b tracked -> id b <> k.
Proof.
  intros Hwf Hret Hruns. revert Hwf Hret.
  induction Hruns as [|? ? ? ? ? ? ? ? ? _ Hpf _ IH|? ? ? ? Hr _ IH];
    intros Hwf [Hlt Hnin].
  - split; [now split | intros ? ? []].
  - destruct (processFrame_ids _ _ _ _ _ _ _ Hwf Hpf) as (Hn & Ht & Hk).
    destruct (processFrame_ok frame now settings scaleFactor p Hwf)
      as (p2 & t2 & Heq & Hwf2).
    rewrite Hpf in Heq. injection Heq as <- <-.
    assert (Hret1 : retired p1 k).
    { split; [lia|]. intros Hin. destruct (Hk _ Hin); [contradiction | lia]. }
    destruct (IH Hwf2 Hret1) as [Hret' Hres]. split; trivial.
    intros t b [<-|Hin] Hb; [|eauto].
    intros <-. destruct (Ht _ Hb); [contradiction | lia].
  - apply IH; [eapply rendered_wf; eauto|].
    destruct Hr as [Hnext HF]. split; [now rewrite Hnext|].
    now rewrite (rendered_keys p p1 (conj Hnext HF)).
Qed.


(** ** Matching *)

Lemma wf_keys_below p k :
  wf p -> In k (JsMap.keys (activeBlobs p)) -> 1 <= k < nextBlobId p.
Proof.
  intros (Hnd & Hn & Hids) Hin.
  destruct (JsMap.get k (activeBlobs p)) as [b|] eqn:E.
  - now apply Hids in E.
  - apply get_None in E. contradiction.
Qed.

Lemma frame_inv_fresh now this done st :
  wf this -> frame_inv now this done st ->
  ~ In (nextBlobId (self st)) (JsMap.keys (activeBlobs (self st))) /\
  ~ In (nextBlobId (self st)) (map id (trackedBlobs st)).
Proof.
  intros Hwf [Hwf' Hnext _ _ _ _ Hids]. split.
  - intros Hin. apply (wf_keys_below _ _ Hwf') in Hin. lia.
  - intros Hin. apply in_map_iff in Hin as (b & Hb & Hin).
    destruct (Hids _ Hin) as [Hk|Hk]; [|lia].
    apply (wf_keys_below _ _ Hwf) in Hk. lia.
Qed.

(** The state in which the loop reaches the candidate [c] of
    [cs1 ++ c :: cs2], with what [trackBlob] makes of it. *)
Lemma matchingPass_at settings scaleFactor now this cs1 c cs2 :
  wf this ->
  exists st st',
    matchingPass hypot_fin settings scaleFactor now cs1 this = Ok st /\
    frame_inv now this cs1 st /\
    trackBlob hypot_fin settings now
      (maxDist scaleFactor) st c = Ok st' /\
    tracked_as settings now
      (maxDist scaleFactor) st c st' /\
    matchingPass hypot_fin settings scaleFactor now (cs1 ++ c :: cs2) this =
    forEach (trackBlob hypot_fin settings now
               (maxDist scaleFactor)) cs2 st'.
Proof.
  intros Hwf.
  destruct (matchingPass_inv settings scaleFactor now cs1 this Hwf)
    as (st & Hst & Hinv).
  destruct (trackBlob_spec settings now
              (maxDist scaleFactor) st c
              (fi_wf _ _ _ _ Hinv)) as (st' & Hst' & Has).
  exists st, st'. repeat (split; [assumption|]).
  unfold matchingPass in *. rewrite forEach_app, Hst. cbn [bind forEach].
  now rewrite Hst'.
Qed.


Local Arguments distance : simpl never.
Local Arguments maxDist : simpl never.
Local Arguments updated : simpl never.
Local Arguments newEntity : simpl never.

(** The tracked list of a call, when it does not throw. *)
Definition returned (r : result (CVProcessor * list DetectedBlob))
  : option (list DetectedBlob) :=
  match r with
  | Ok (_, tracked) => Some tracked
  | TypeError => None
  end.

(** The matching step as the code has it.  Each candidate, in input order,
    is matched to an active blob that is not in [assignedIds], whose distance
    to it is below the matching radius and that no such blob is nearer than;
    when no such blob is nearer than the radius the candidate is not matched:
    it becomes a new blob under the next id, which no active and no returned
    blob carries.  [assignedIds] holds the ids matched earlier in the call,
    and not the ids made in it.  So with one active blob [b], a candidate
    [near] at a distance below the radius and a candidate [far] at a distance
    above it: in the order [near, far], [near] is matched to [b] and [far]
    gets the next id; in the order [far, near], [far] gets the next id and
    [near] is matched to the blob just made for [far] when that one is
    strictly nearer than [b], and to [b] otherwise. *)
Theorem nearest_unassigned_within_radius_or_new_id
    (settings : TrackerSettings) (scaleFactor : num) (now : Z) :
  (forall this cs1 c cs2, reachable this ->
     exists st st',
       matchingPass hypot_fin settings scaleFactor now cs1 this = Ok st /\
       trackBlob hypot_fin settings now (maxDist scaleFactor) st c = Ok st' /\
       matchingPass hypot_fin settings scaleFactor now (cs1 ++ c :: cs2) this =
       forEach (trackBlob hypot_fin settings now (maxDist scaleFactor)) cs2 st' /\
       ((exists existing,
           unassigned st (id existing) existing /\
           (distance hypot_fin c existing <? maxDist scaleFactor)%js = true /\
           (forall k' b', unassigned st k' b' ->
              (distance hypot_fin c b' <? distance hypot_fin c existing)%js = false) /\
           st' = matchedState settings now st c existing)
        \/
        ((forall k' b', unassigned st k' b' ->
            (distance hypot_fin c b' <? maxDist scaleFactor)%js = false) /\
         st' = spawnBlob now st c /\
         ~ In (nextBlobId (self st)) (JsMap.keys (activeBlobs (self st))) /\
         ~ In (nextBlobId (self st)) (map id (trackedBlobs st)))))
  /\
  (forall b n near far,
     1 <= id b < n ->
     (distance hypot_fin near b <? maxDist scaleFactor)%js = true ->
     (maxDist scaleFactor <? distance hypot_fin far b)%js = true ->
     let this := {| nextBlobId := n; activeBlobs := [(id b, b)] |} in
     let new := newEntity now n far in
     returned (track hypot_fin settings scaleFactor now [near; far] this) =
       Some [updated settings now b near; new] /\
     returned (track hypot_fin settings scaleFactor now [far; near] this) =
       Some [new;
             updated settings now
               (if (distance hypot_fin near new <? distance hypot_fin near b)%js
                then new else b) near]).
Proof.
  split.
  - intros this cs1 c cs2 Hr. apply reachable_wf in Hr.
    destruct (matchingPass_at settings scaleFactor now this cs1 c cs2 Hr)
      as (st & st' & Hst & Hinv & Hst' & Has & Heq).
    exists st, st'. repeat (split; [assumption|]).
    destruct Has as [existing Hu Hlt Hmin | Hnone].
    + left. exists existing. auto.
    + right. destruct (frame_inv_fresh _ _ _ _ Hr Hinv). auto.
  - intros b n near far Hid Hnear Hfar this new.
    assert (Hk : (id b =? -1) = false) by (apply Z.eqb_neq; lia).
    assert (Hn : (n =? -1) = false) by (apply Z.eqb_neq; lia).
    assert (Hnk : (id b =? n) = false) by (apply Z.eqb_neq; lia).
    apply ltb_asym in Hfar. subst this new.
    split.
    + unfold track, matchingPass, trackBlob, findClosest, matchBlob. cbn.
      repeat (progress (rewrite ?Hk, ?Hnear, ?Z.eqb_refl; cbn)).
      reflexivity.
    + unfold track, matchingPass, trackBlob, findClosest, matchBlob. cbn.
      repeat (progress (rewrite ?Hnk, ?Hfar, ?Hnear; cbn)).
      destruct (distance hypot_fin near (newEntity now n far)
                <? distance hypot_fin near b)%js; cbn;
        repeat (progress (rewrite ?Hnk, ?Hk, ?Hn, ?Z.eqb_refl; cbn));
        reflexivity.
Qed.


(** ** Area *)

(** [const realArea = area * (scaleFactor * scaleFactor)]: the double the
    source computes, the square rounded and then the product. *)
Definition realArea (scaleFactor : num) (contour : Contour) : num :=
  (contourArea contour * (scaleFactor * scaleFactor))%double.

(** [realArea > settings.minArea]. *)
Definition admitted (settings : TrackerSettings) (scaleFactor : num)
    (contour : Contour) : bool :=
  (realArea scaleFactor contour >? minArea settings)%js.

(** The candidate pushed for an admitted contour. *)
Definition candidateOf (scaleFactor : num) (contour : Contour) : Candidate :=
  let rect := boundingRect contour in
  {| cand_x := ((rect_x rect + rect_width rect / 2) * scaleFactor)%double;
     cand_y := ((rect_y rect + rect_height rect / 2) * scaleFactor)%double;
     cand_w := (rect_width rect * scaleFactor)%double;
     cand_h := (rect_height rect * scaleFactor)%double;
     cand_area := realArea scaleFactor contour |}.

Lemma extract_filter settings scaleFactor contours :
  extract settings scaleFactor contours =
  map (candidateOf scaleFactor) (filter (admitted settings scaleFactor) contours).
Proof.
  unfold extract.
  assert (H : forall acc,
            fold_left (extractContour settings scaleFactor) contours acc =
            acc ++ map (candidateOf scaleFactor)
                     (filter (admitted settings scaleFactor) contours)).
  { induction contours as [|c cs IH]; intros acc; simpl.
    - now rewrite app_nil_r.
    - rewrite IH. unfold extractContour, admitted, candidateOf, realArea.
      destruct (_ >? _)%js; simpl; trivial.
      now rewrite <- app_assoc. }
  apply (H []).
Qed.

(** ** What a call returns is active after the call *)

Lemma lastTracked_In k tracked b :
  lastTracked k tracked = Some b -> In b tracked /\ id b = k.
Proof.
  unfold lastTracked. intros H. apply find_some in H as [Hin Hk].
  split; [now apply in_rev | now apply Z.eqb_eq].
Qed.

Lemma lastTracked_exists tracked b :
  In b tracked -> exists b', lastTracked (id b) tracked = Some b'.
Proof.
  intros Hin. unfold lastTracked.
  destruct (find _ (rev tracked)) as [b'|] eqn:E; [eauto|].
  apply in_rev in Hin. apply (find_none _ _ E) in Hin.
  now rewrite Z.eqb_refl in Hin.
Qed.

Lemma In_same_id_NoDup (l : list DetectedBlob) a b :
  NoDup (map id l) -> In a l -> In b l -> id a = id b -> a = b.
Proof.
  induction l as [|c l IH]; simpl; [tauto|].
  intros Hnd Ha Hb Hid. inversion Hnd as [|? ? Hc Hnd']; subst.
  destruct Ha as [->|Ha], Hb as [->|Hb]; trivial.
  - exfalso. apply Hc. rewrite Hid. now apply in_map.
  - exfalso. apply Hc. rewrite <- Hid. now apply in_map.
  - auto.
Qed.

Lemma not_expired_now now b : lastSeen b = now -> expired now b = false.
Proof.
  intros H. unfold expired. rewrite H, Z.sub_diag. reflexivity.
Qed.

(** What [processFrame] returns on a frame with contours, through the state
    [st] its candidate loop ends in. *)
Lemma processFrame_contours cs now settings scaleFactor this :
  wf this ->
  exists st,
    matchingPass hypot_fin settings scaleFactor now
      (extract settings scaleFactor cs) this = Ok st /\
    frame_inv now this (extract settings scaleFactor cs) st /\
    processFrame hypot_fin (Contours cs) now settings scaleFactor this =
    Ok ({| nextBlobId := nextBlobId (self st);
           activeBlobs :=
             filter (fun e => negb (expired now (snd e))) (activeBlobs (self st)) |},
        trackedBlobs st) /\
    (forall k,
       JsMap.get k
         (filter (fun e => negb (expired now (snd e))) (activeBlobs (self st))) =
       match JsMap.get k (activeBlobs (self st)) with
       | Some b => if expired now b then None else Some b
       | None => None
       end).
Proof.
  intros Hwf.
  destruct (track_ok settings scaleFactor now (extract settings scaleFactor cs)
              this Hwf) as (st & Hst & Hinv & Heq).
  exists st. repeat (split; [assumption|]).
  intros k. rewrite get_filter by apply (fi_wf _ _ _ _ Hinv).
  destruct (JsMap.get k (activeBlobs (self st))) as [b|]; trivial.
  simpl. now destruct (expired now b).
Qed.


(** The prune keeps the entry under the id of a tracked blob: it is the
    last record tracked with this id, seen at [now]. *)
Lemma tracked_entry_kept now this done st b :
  frame_inv now this done st ->
  In b (trackedBlobs st) ->
  exists b',
    lastTracked (id b) (trackedBlobs st) = Some b' /\
    In b' (trackedBlobs st) /\ id b' = id b /\ lastSeen b' = now /\
    JsMap.get (id b)
      (filter (fun e => negb (expired now (snd e))) (activeBlobs (self st))) =
    Some b'.
Proof.
  intros Hinv Hb.
  destruct (lastTracked_exists _ _ Hb) as (b' & Hb').
  pose proof (lastTracked_In _ _ _ Hb') as [Hin' Hid'].
  pose proof (fi_seen _ _ _ _ Hinv b' Hin') as Hseen'.
  exists b'. repeat (split; [assumption|]).
  rewrite get_filter by apply (fi_wf _ _ _ _ Hinv).
  rewrite (fi_last _ _ _ _ Hinv _ _ Hb'). simpl.
  now rewrite (not_expired_now _ _ Hseen').
Qed.

(** The id of every blob that [processFrame] returns is active when the
    call returns: the blob's [lastSeen] is the call's [now], which
    [BLOB_TIMEOUT] being positive keeps from expiring, so the prune pass
    keeps the entry under its id.  The record stored under that id is the
    last record of the result with this id, a record of this call; it is the
    returned blob itself when the ids of the result are distinct. *)
Theorem returned_blob_is_active
    (frame : Frame) (now : Z) (settings : TrackerSettings) (scaleFactor : num)
    (this : CVProcessor) :
  reachable this ->
  exists this' tracked,
    processFrame hypot_fin frame now settings scaleFactor this = Ok (this', tracked) /\
    forall b, In b tracked ->
      lastSeen b = now /\
      (now - lastSeen b >? BLOB_TIMEOUT) = false /\
      exists b',
        JsMap.get (id b) (activeBlobs this') = Some b' /\
        lastTracked (id b) tracked = Some b' /\
        lastSeen b' = now /\
        (NoDup (map id tracked) -> b' = b).
Proof.
  intros Hr. apply reachable_wf in Hr.
  destruct frame as [| | |cs];
    try solve [exists this, []; split; [reflexivity | intros ? []]].
  destruct (processFrame_contours cs now settings scaleFactor this Hr)
    as (st & _ & Hinv & Heq & _).
  do 2 eexists. split; [exact Heq|]. simpl.
  intros b Hb. pose proof (fi_seen _ _ _ _ Hinv b Hb) as Hseen.
  split; [assumption|]. split; [now apply not_expired_now|].
  destruct (tracked_entry_kept _ _ _ _ _ Hinv Hb)
    as (b' & Hlast & Hin' & Hid' & Hseen' & Hget).
  exists b'. repeat (split; [assumption|]).
  intros Hnd. eapply In_same_id_NoDup; eauto.
Qed.

(** C5, as amended.  In a call that gets to the tracking step, the prune
    runs after the candidate loop and removes exactly the entries whose
    [now - lastSeen] exceeds [BLOB_TIMEOUT], [lastSeen] being the value the
    loop left; nothing else removes an entry, and the calls that return
    early change nothing.  So a blob that was active before the call and
    that the call does not match is removed if and only if
    [now - lastSeen > BLOB_TIMEOUT]; a blob that the call matches stays,
    however long it had not been matched. *)
Theorem pruned_iff_timed_out_after_matching
    (frame : Frame) (now : Z) (settings : TrackerSettings) (scaleFactor : num)
    (this : CVProcessor) :
  reachable this ->
  exists this' tracked,
    processFrame hypot_fin frame now settings scaleFactor this = Ok (this', tracked) /\
    match frame with
    | Contours cs =>
        exists st,
          matchingPass hypot_fin settings scaleFactor now
            (extract settings scaleFactor cs) this = Ok st /\
          tracked = trackedBlobs st /\
          (forall k,
             JsMap.get k (activeBlobs this') =
             match JsMap.get k (activeBlobs (self st)) with
             | Some b => if now - lastSeen b >? BLOB_TIMEOUT then None else Some b
             | None => None
             end) /\
          (forall k b, JsMap.get k (activeBlobs this) = Some b ->
             (~ In k (map id tracked) ->
              JsMap.get k (activeBlobs this') =
              if now - lastSeen b >? BLOB_TIMEOUT then None else Some b) /\
             (In k (map id tracked) ->
              exists b', JsMap.get k (activeBlobs this') = Some b' /\
                         lastSeen b' = now))
    | _ => this' = this /\ tracked = []
    end.
Proof.
  intros Hr. apply reachable_wf in Hr.
  destruct frame as [| | |cs]; try solve [exists this, []; repeat split].
  destruct (processFrame_contours cs now settings scaleFactor this Hr)
    as (st & Hst & Hinv & Heq & Hget).
  do 2 eexists. split; [exact Heq|]. exists st. simpl.
  split; [assumption|]. split; [reflexivity|]. split; [exact Hget|].
  intros k b Hb. split.
  - intros Hk. rewrite Hget, (fi_rest _ _ _ _ Hinv _ Hk), Hb. reflexivity.
  - intros Hk. apply in_map_iff in Hk as (b1 & <- & Hb1).
    destruct (tracked_entry_kept _ _ _ _ _ Hinv Hb1)
      as (b' & _ & _ & _ & Hseen' & Hget').
    exists b'. split; assumption.
Qed.


(** ** One returned blob for each candidate *)

Lemma trackBlob_tracked settings now radius st c st' :
  trackBlob hypot_fin settings now radius st c = Ok st' ->
  exists u, trackedBlobs st' = trackedBlobs st ++ [u].
Proof.
  unfold trackBlob. destruct (findClosest hypot_fin radius st c) as [k d].
  destruct (negb (k =? -1)).
  - unfold matchBlob. destruct (JsMap.get k (activeBlobs (self st))); [|discriminate].
    intros [= <-]. simpl. eauto.
  - intros [= <-]. simpl. eauto.
Qed.

Lemma forEach_tracked settings now radius cs : forall st st',
  forEach (trackBlob hypot_fin settings now radius) cs st = Ok st' ->
  exists l, trackedBlobs st' = trackedBlobs st ++ l /\ length l = length cs.
Proof.
  induction cs as [|c cs IH]; intros st st' H; simpl in H.
  - injection H as <-. exists []. now rewrite app_nil_r.
  - destruct (trackBlob hypot_fin settings now radius st c) as [st1|] eqn:E;
      [|discriminate].
    simpl in H. destruct (trackBlob_tracked _ _ _ _ _ _ E) as (u & Hu).
    destruct (IH _ _ H) as (l & Hl & Hlen).
    exists (u :: l). rewrite Hl, Hu, <- app_assoc. simpl. auto.
Qed.

(** C3.  A contour becomes a candidate if and only if its area times the
    square of the scale factor exceeds [minArea], the product being the
    double that [area * (scaleFactor * scaleFactor)] evaluates to; the area
    stored in the blobs a call returns, and under their ids in the active
    set, is that product; with [minArea = 100] a region whose product is 50
    is left out, and in a new tracker a region whose product is 150 is
    returned under the id 1. *)
Theorem admitted_iff_scaled_area_exceeds_minArea
    (settings : TrackerSettings) (scaleFactor : num) :
  (forall contours,
     extract settings scaleFactor contours =
     map (candidateOf scaleFactor)
       (filter (fun contour =>
                  ((contourArea contour * (scaleFactor * scaleFactor))%double
                   >? minArea settings)%js) contours)) /\
  (forall this contours now, reachable this ->
     exists this' tracked,
       processFrame hypot_fin (Contours contours) now settings scaleFactor this =
       Ok (this', tracked) /\
       map area tracked =
       map (realArea scaleFactor) (filter (admitted settings scaleFactor) contours) /\
       forall b, In b tracked ->
         exists b', JsMap.get (id b) (activeBlobs this') = Some b' /\
                    In (area b')
                       (map (realArea scaleFactor)
                          (filter (admitted settings scaleFactor) contours))) /\
  (forall small big now,
     (minArea settings ==? Fin 100)%js = true ->
     (realArea scaleFactor small ==? Fin 50)%js = true ->
     (realArea scaleFactor big ==? Fin 150)%js = true ->
     admitted settings scaleFactor small = false /\
     admitted settings scaleFactor big = true /\
     returned (processFrame hypot_fin (Contours [small; big]) now settings
                 scaleFactor newCVProcessor) =
     Some [newEntity now 1 (candidateOf scaleFactor big)] /\
     id (newEntity now 1 (candidateOf scaleFactor big)) = 1 /\
     area (newEntity now 1 (candidateOf scaleFactor big)) =
     realArea scaleFactor big).
Proof.
  split; [|split].
  - intros contours. apply extract_filter.
  - intros this contours now Hr.
    apply reachable_wf in Hr.
    destruct (processFrame_contours contours now settings scaleFactor this Hr)
      as (st & _ & Hinv & Heq & _).
    do 2 eexists. split; [exact Heq|].
    assert (Harea : map area (trackedBlobs st) =
                    map (realArea scaleFactor)
                      (filter (admitted settings scaleFactor) contours)).
    { rewrite (fi_area _ _ _ _ Hinv), extract_filter, map_map.
      reflexivity. }
    split; [assumption|].
    intros b Hb.
    destruct (tracked_entry_kept _ _ _ _ _ Hinv Hb)
      as (b' & _ & Hin' & _ & _ & Hget).
    exists b'. split; [exact Hget|]. rewrite <- Harea. now apply in_map.
  - intros small big now Hmin Hs Hb.
    destruct (minArea settings) as [| | |m] eqn:Em; try discriminate.
    simpl in Hmin. apply Qeq_bool_iff in Hmin.
    assert (Hsmall : admitted settings scaleFactor small = false).
    { unfold admitted. rewrite Em.
      destruct (realArea scaleFactor small) as [| | |q]; try discriminate.
      simpl in Hs. apply Qeq_bool_iff in Hs. unfold gtb. simpl.
      rewrite Hs, Hmin. reflexivity. }
    assert (Hbig : admitted settings scaleFactor big = true).
    { unfold admitted. rewrite Em.
      destruct (realArea scaleFactor big) as [| | |q]; try discriminate.
      simpl in Hb. apply Qeq_bool_iff in Hb. unfold gtb. simpl.
      rewrite Hb, Hmin. reflexivity. }
    repeat (split; [assumption|]). split; [|split; reflexivity].
    unfold processFrame. rewrite extract_filter. simpl.
    rewrite Hsmall, Hbig. reflexivity.
Qed.

(** C7, as amended.  From any state a tracker can be in, [track] and
    [processFrame] return for every input: they never throw.  There is no
    test for non-finite coordinates: a candidate whose [x] or [y] is [NaN]
    or infinite is at a distance below the radius from no blob, so it is
    never matched; it becomes a new blob under the next id, and this blob is
    returned, at the candidate's place in the result. *)
Theorem non_finite_candidate_becomes_new_blob
    (settings : TrackerSettings) (scaleFactor : num) (now : Z)
    (this : CVProcessor) :
  reachable this ->
  (forall frame, exists r,
     processFrame hypot_fin frame now settings scaleFactor this = Ok r) /\
  (forall cands, exists r,
     track hypot_fin settings scaleFactor now cands this = Ok r) /\
  (forall cs1 c cs2,
     is_finite (cand_x c) = false \/ is_finite (cand_y c) = false ->
     exists st,
       matchingPass hypot_fin settings scaleFactor now cs1 this = Ok st /\
       (forall b, (distance hypot_fin c b <? maxDist scaleFactor)%js = false) /\
       trackBlob hypot_fin settings now (maxDist scaleFactor) st c =
       Ok (spawnBlob now st c) /\
       exists this' tracked,
         track hypot_fin settings scaleFactor now (cs1 ++ c :: cs2) this =
         Ok (this', tracked) /\
         nth_error tracked (length cs1) =
         Some (newEntity now (nextBlobId (self st)) c)).
Proof.
  intros Hr. apply reachable_wf in Hr. split; [|split].
  - intros frame.
    destruct (processFrame_ok frame now settings scaleFactor this Hr)
      as (this' & tracked & Heq & _). eauto.
  - intros cands.
    destruct (track_ok settings scaleFactor now cands this Hr)
      as (st & _ & _ & Heq). eauto.
  - intros cs1 c cs2 Hc.
    assert (Hfar : forall b,
              (distance hypot_fin c b <? maxDist scaleFactor)%js = false).
    { intros b. unfold distance, hypot. apply hypot_not_finite.
      destruct Hc as [Hc|Hc]; [left | right]; now apply sub_not_finite_l. }
    destruct (matchingPass_at settings scaleFactor now this cs1 c cs2 Hr)
      as (st & st' & Hst & Hinv & Hst' & Has & Heq).
    exists st. split; [assumption|]. split; [assumption|].
    assert (Hsp : st' = spawnBlob now st c).
    { destruct Has as [existing _ Hlt _|]; trivial.
      rewrite Hfar in Hlt. discriminate. }
    subst st'. split; [assumption|].
    destruct (track_ok settings scaleFactor now (cs1 ++ c :: cs2) this Hr)
      as (st2 & Hst2 & _ & Htrack).
    do 2 eexists. split; [exact Htrack|].
    rewrite Heq in Hst2.
    destruct (forEach_tracked _ _ _ _ _ _ Hst2) as (l2 & Hl2 & _).
    unfold matchingPass in Hst.
    destruct (forEach_tracked _ _ _ _ _ _ Hst) as (l1 & Hl1 & Hlen1).
    simpl in Hl1, Hl2. rewrite Hl2, Hl1. simpl.
    rewrite <- app_assoc. rewrite nth_error_app2 by lia.
    rewrite Hlen1, Nat.sub_diag. reflexivity.
Qed.


(** ** History *)

(** [history.length <= hl]. *)
Definition historyWithin (hl : num) (b : DetectedBlob) : Prop :=
  (of_nat (length (history b)) <=? hl)%js = true.

Lemma pushHistory_length settings existing :
  length (pushHistory settings existing) =
  if (of_nat (S (length (history existing))) >? historyLength settings)%js
  then length (history existing)
  else S (length (history existing)).
Proof.
  unfold pushHistory. rewrite length_app. simpl length. rewrite Nat.add_1_r.
  destruct (_ >? _)%js.
  - destruct (history existing); simpl; trivial.
    rewrite length_app. simpl. lia.
  - rewrite length_app. simpl. apply Nat.add_1_r.
Qed.

Lemma pushHistory_within settings now existing c :
  (0 <=? historyLength settings)%js = true ->
  historyWithin (historyLength settings) existing ->
  historyWithin (historyLength settings) (updated settings now existing c).
Proof.
  unfold historyWithin. simpl. rewrite pushHistory_length.
  destruct (historyLength settings) as [| | |q]; try discriminate; trivial.
  intros _ H. unfold of_nat, of_Z in *. rewrite gtb_Fin_leb.
  destruct (_ <=? _)%js eqn:E; simpl; trivial.
Qed.

Lemma within_zero hl b :
  (hl ==? 0)%js = true -> historyWithin hl b -> history b = [].
Proof.
  unfold historyWithin. destruct hl as [| | |q]; try discriminate.
  simpl. intros Hq. apply Qeq_bool_iff in Hq. rewrite Hq.
  destruct (history b) as [|p l]; trivial. simpl length.
  intros H. exfalso. apply (leb_Fin (inject_Z (Z.of_nat (S (length l)))) 0) in H.
  unfold Qle in H. simpl in H. lia.
Qed.

(** Histories within [hl] stay within [hl] through a call whose
    [historyLength] is [hl]. *)
Lemma processFrame_history frame now settings scaleFactor this this' tracked :
  wf this ->
  (0 <=? historyLength settings)%js = true ->
  (forall k b, JsMap.get k (activeBlobs this) = Some b ->
               historyWithin (historyLength settings) b) ->
  processFrame hypot_fin frame now settings scaleFactor this = Ok (this', tracked) ->
  (forall k b, JsMap.get k (activeBlobs this') = Some b ->
               historyWithin (historyLength settings) b) /\
  (forall b, In b tracked -> historyWithin (historyLength settings) b).
Proof.
  intros Hwf Hhl Hbound Hpf.
  destruct frame as [| | |cs]; simpl in Hpf;
    try (injection Hpf as <- <-; split; [assumption | intros ? []]).
  unfold track in Hpf.
  set (P := fun (_ : list Candidate) st =>
              wf (self st) /\
              (forall k b, JsMap.get k (activeBlobs (self st)) = Some b ->
                           historyWithin (historyLength settings) b) /\
              (forall b, In b (trackedBlobs st) ->
                         historyWithin (historyLength settings) b)).
  destruct (forEach_ind
              (trackBlob hypot_fin settings now (maxDist scaleFactor)) P)
    with (xs := extract settings scaleFactor cs) (done := @nil Candidate)
         (s := {| self := this; assignedIds := JsSet.empty; trackedBlobs := [] |})
    as (st & Hst & Hwf' & Hact & Htr).
  - intros done s a (Hw & Ha & Ht).
    destruct (trackBlob_spec settings now (maxDist scaleFactor) s a Hw)
      as (s' & Hs' & Has).
    exists s'. split; [assumption|].
    split; [eapply tracked_as_wf; eauto|].
    destruct Has as [existing [Hin Hun] Hlt Hmin | Hnone]; simpl.
    + apply In_get in Hin; [|apply Hw]. pose proof (Ha _ _ Hin) as He.
      split.
      * intros k b. destruct (Z.eq_dec (id existing) k) as [<-|Hne].
        -- rewrite get_set_eq. intros [= <-]. now apply pushHistory_within.
        -- rewrite get_set_neq by assumption. apply Ha.
      * intros b Hb. apply in_app_or in Hb as [Hb|[<-|[]]]; [auto|].
        now apply pushHistory_within.
    + split.
      * intros k b. destruct (Z.eq_dec (nextBlobId (self s)) k) as [<-|Hne].
        -- rewrite get_set_eq. intros [= <-]. exact Hhl.
        -- rewrite get_set_neq by assumption. apply Ha.
      * intros b Hb. apply in_app_or in Hb as [Hb|[<-|[]]]; [auto|]. exact Hhl.
  - split; [assumption|]. split; [assumption | intros ? []].
  - unfold matchingPass in Hpf. rewrite Hst in Hpf. simpl in Hpf.
    injection Hpf as <- <-. split; [|assumption]. simpl.
    intros k b. rewrite prune_filter by apply Hwf'.
    rewrite get_filter by apply Hwf'.
    destruct (JsMap.get k (activeBlobs (self st))) as [b'|] eqn:E; [|discriminate].
    destruct (negb _); [|discriminate]. intros [= <-]. eauto.
Qed.

Lemma runs_history hl p results p' :
  wf p ->
  (0 <=? hl)%js = true ->
  (forall k b, JsMap.get k (activeBlobs p) = Some b -> historyWithin hl b) ->
  runs (fun settings => historyLength settings = hl) p results p' ->
  (forall k b, JsMap.get k (activeBlobs p') = Some b -> historyWithin hl b) /\
  (forall tracked b, In tracked results -> In b tracked -> historyWithin hl b).
Proof.
  intros Hwf Hhl Hbound Hruns. revert Hwf Hbound.
  induction Hruns as [|? ? ? ? ? ? ? ? ? Hs Hpf _ IH|? ? ? ? Hr _ IH];
    intros Hwf Hbound.
  - split; [assumption | intros ? ? []].
  - subst hl.
    destruct (processFrame_history _ _ _ _ _ _ _ Hwf Hhl Hbound Hpf) as [Ha Ht].
    destruct (processFrame_ok frame now settings scaleFactor p Hwf)
      as (p2 & t2 & Heq & Hwf2).
    rewrite Hpf in Heq. injection Heq as <- <-.
    destruct (IH Hwf2 Ha) as [Ha' Ht']. split; trivial.
    intros t b [<-|Hin] Hb; eauto.
  - apply IH; trivial; [eapply rendered_wf; eauto|].
    intros k b' Hb'. pose proof (rendered_get _ _ k Hr) as Hg. rewrite Hb' in Hg.
    destruct (JsMap.get k (activeBlobs p)) as [b|] eqn:E; [|contradiction].
    destruct Hg as (_ & _ & _ & _ & _ & _ & Hh & _).
    unfold historyWithin. rewrite Hh. now apply (Hbound k).
Qed.

(** While [historyLength] stays the same: when every call since the tracker
    was made has used the same [historyLength], not below [0], every active
    blob and every returned blob has a history of at most [historyLength]
    entries after every call, and an empty one when [historyLength] is
    [0]. *)
Theorem history_within_a_constant_historyLength
    (hl : num) (results : list (list DetectedBlob)) (p : CVProcessor) :
  (0 <=? hl)%js = true ->
  runs (fun settings => historyLength settings = hl) newCVProcessor results p ->
  (forall k b, JsMap.get k (activeBlobs p) = Some b ->
     (of_nat (length (history b)) <=? hl)%js = true /\
     ((hl ==? 0)%js = true -> history b = [])) /\
  (forall tracked b, In tracked results -> In b tracked ->
     (of_nat (length (history b)) <=? hl)%js = true /\
     ((hl ==? 0)%js = true -> history b = [])).
Proof.
  intros Hhl Hruns.
  assert (H0 : forall k b, JsMap.get k (activeBlobs newCVProcessor) = Some b ->
                           historyWithin hl b) by (intros k b; discriminate).
  destruct (runs_history hl _ _ _ wf_new Hhl H0 Hruns) as [Ha Ht].
  split.
  - intros k b Hb. split; [now apply (Ha k) | intros Hz].
    apply (within_zero hl); [assumption | now apply (Ha k)].
  - intros t b Hin Hb. split; [now apply (Ht t) | intros Hz].
    apply (within_zero hl); [assumption | now apply (Ht t)].
Qed.


(** ** Running a sequence of calls *)

(** The arguments of one [processFrame] call, with what [Date.now()]
    returns in it. *)
Record Call : Type := {
  callFrame : Frame;
  callNow : Z;
  callSettings : TrackerSettings;
  callScaleFactor : num
}.

(** The calls in order, on the same tracker: the results in order, and the
    state left. *)
Fixpoint processFrames (calls : list Call) (this : CVProcessor)
  : result (list (list DetectedBlob) * CVProcessor) :=
  match calls with
  | [] => Ok ([], this)
  | c :: calls' =>
      do r <- processFrame hypot_fin (callFrame c) (callNow c) (callSettings c)
                (callScaleFactor c) this;
      do rs <- processFrames calls' (fst r);
      Ok (snd r :: fst rs, snd rs)
  end.

Lemma processFrames_runs (allowed : TrackerSettings -> Prop) calls :
  forall this results this',
    Forall (fun c => allowed (callSettings c)) calls ->
    processFrames calls this = Ok (results, this') ->
    runs allowed this results this'.
Proof.
  induction calls as [|c calls IH]; intros this results this' Hall H; simpl in H.
  - injection H as <- <-. constructor.
  - inversion Hall as [|? ? Hc Hall']; subst.
    destruct (processFrame hypot_fin _ _ _ _ this) as [[p1 t1]|] eqn:E1;
      [|discriminate].
    simpl in H.
    destruct (processFrames calls p1) as [[rs p2]|] eqn:E2; [|discriminate].
    simpl in H. injection H as <- <-.
    eapply runs_frame; eauto.
Qed.

End TrackerFacts.

(* ================================================================== *)
(** * The smoother: [drawOverlays] *)
(* ================================================================== *)

Section SmootherFacts.

Variables sin cos : num -> num.

(** The factor at [drift = 1] is [0.8 - 0.7 = 0.1]. *)
Lemma lerpFactor_full_drift settings :
  (drift settings ==? 1)%js = true ->
  exists f, lerpFactor settings = Fin f /\ f == 0.1.
Proof.
  unfold lerpFactor. destruct (drift settings) as [| | |d]; try discriminate.
  simpl. intros Hd. apply Qeq_bool_iff in Hd.
  eexists. split; [reflexivity|]. rewrite Hd. reflexivity.
Qed.

(** C6, as amended.  The update is
    [displayPos += (truePos - displayPos) * lerpFactor] with
    [lerpFactor = 0.8 - drift * 0.7].  At [drift = 1.0] the factor is [0.1],
    whatever the jitter: one call moves the display position a tenth of the
    way to the true position, so nine tenths of the gap remain, and the
    display position equals the true position after the call if and only if
    it did before (as it does for a blob drawn for the first time). *)
Theorem one_tenth_of_the_way_at_full_drift
    (settings : TrackerSettings) (time : num) (blob : DetectedBlob)
    (vx vy tx ty : Q) :
  (drift settings ==? 1)%js = true ->
  x blob = Fin tx -> y blob = Fin ty ->
  orInit (visualX blob) (x blob) = Fin vx ->
  orInit (visualY blob) (y blob) = Fin vy ->
  let blob' := fst (drawOverlay sin cos settings time blob) in
  visualX blob' =
    Some (lerp (Fin vx) (Fin tx) (Fin 0.8 - drift settings * Fin 0.7)%js) /\
  visualY blob' =
    Some (lerp (Fin vy) (Fin ty) (Fin 0.8 - drift settings * Fin 0.7)%js) /\
  exists vx' vy',
    visualX blob' = Some (Fin vx') /\ visualY blob' = Some (Fin vy') /\
    vx' == vx + (tx - vx) * 0.1 /\ vy' == vy + (ty - vy) * 0.1 /\
    tx - vx' == 0.9 * (tx - vx) /\ ty - vy' == 0.9 * (ty - vy) /\
    (vx' == tx <-> vx == tx) /\ (vy' == ty <-> vy == ty).
Proof.
  intros Hd Hx Hy Hvx Hvy blob'. subst blob'.
  unfold drawOverlay. cbn [fst visualX visualY].
  rewrite Hvx, Hvy, Hx, Hy.
  split; [reflexivity|]. split; [reflexivity|].
  destruct (lerpFactor_full_drift settings Hd) as (f & -> & Hf).
  do 2 eexists. split; [reflexivity|]. split; [reflexivity|].
  repeat split; try (intros H; rewrite Hf in H); rewrite ?Hf; lra.
Qed.

End SmootherFacts.


(* ================================================================== *)
(** * The export loop: [runRender] *)
(* ================================================================== *)

Module ExportFacts.
Import JsNumFacts DoubleFacts.

(** [currentTime] after [n] turns of the loop: [frameDuration] added [n]
    times to [0], the sum rounded every time. *)
Fixpoint timeAt (n : nat) : num :=
  match n with
  | O => 0
  | S n' => (timeAt n' + frameDuration)%double
  end.

(** [frameDuration] as a rational: the double next to one thirtieth. *)
Definition frameQ : Q := Double.round64 (inject_Z 1 / inject_Z 30).

(** [timeAt] as a rational. *)
Fixpoint timeQ (n : nat) : Q :=
  match n with
  | O => inject_Z 0
  | S n' => Double.round64 (timeQ n' + frameQ)
  end.

Lemma frameDuration_Fin : frameDuration = Fin frameQ.
Proof. reflexivity. Qed.

Lemma timeAt_Fin n : timeAt n = Fin (timeQ n).
Proof.
  induction n as [|n IH]; [reflexivity|].
  cbn [timeAt timeQ]. rewrite IH, frameDuration_Fin. reflexivity.
Qed.

Lemma frameQ_nonneg : (0 <= frameQ)%Q.
Proof. apply round64_nonneg. discriminate. Qed.

Lemma timeQ_nonneg n : (0 <= timeQ n)%Q.
Proof.
  induction n as [|n IH]; [apply Qle_refl|].
  cbn [timeQ]. apply round64_nonneg.
  pose proof frameQ_nonneg. lra.
Qed.

(** The sum never goes down, although a rounded sum may stay where it is. *)
Lemma timeQ_step n : (timeQ n <= timeQ (S n))%Q.
Proof.
  induction n as [|n IH].
  - apply (timeQ_nonneg 1).
  - cbn [timeQ] in *. apply round64_mono. lra.
Qed.

Lemma timeQ_mono i j : (i <= j)%nat -> (timeQ i <= timeQ j)%Q.
Proof.
  induction 1 as [|j _ IH]; [apply Qle_refl|].
  eapply Qle_trans; [exact IH | apply timeQ_step].
Qed.

(** The loop condition at the [n]-th turn. *)
Definition continues (browser : Browser) (duration : num) (n : nat) : bool :=
  ((timeAt n <? duration)%js && negb (cancelled browser n))%bool.

(** The events of the turns [0] to [k - 1]. *)
Definition turnsEvents (browser : Browser) (duration : num) (k : nat)
  : list Event :=
  flat_map (fun n => renderFrame browser duration (timeAt n)) (seq 0 k).

(** The state of the loop after [k] turns. *)
Definition loopAfter (browser : Browser) (duration : num) (k : nat) : RenderLoop :=
  {| turn := k;
     currentTime := timeAt k;
     events := [RecorderStart; Seek 0] ++ turnsEvents browser duration k |}.

Lemma loopAfter_S browser duration k :
  {| turn := S k;
     currentTime := (timeAt k + frameDuration)%double;
     events := ([RecorderStart; Seek 0] ++ turnsEvents browser duration k) ++
               renderFrame browser duration (timeAt k) |} =
  loopAfter browser duration (S k).
Proof.
  unfold loopAfter, turnsEvents. rewrite seq_S, flat_map_app. simpl.
  reflexivity.
Qed.

(** The loop does the turns for which its condition holds, in order, and
    stops at the first turn for which it does not, or when out of fuel. *)
Lemma renderLoop_spec browser duration fuel : forall k,
  (forall i, (i < k)%nat -> continues browser duration i = true) ->
  exists k',
    (k <= k')%nat /\
    (forall i, (i < k')%nat -> continues browser duration i = true) /\
    ((renderLoop fuel browser duration (loopAfter browser duration k) =
        inl (loopAfter browser duration k') /\
      continues browser duration k' = false /\ (k' <= k + fuel)%nat) \/
     (renderLoop fuel browser duration (loopAfter browser duration k) =
        inr (loopAfter browser duration k') /\
      continues browser duration k' = true /\ k' = (k + fuel)%nat)).
Proof.
  induction fuel as [|fuel IH]; intros k Hk.
  - exists k. split; [lia|]. split; [assumption|].
    cbn [renderLoop loopAfter turn currentTime].
    fold (continues browser duration k).
    destruct (continues browser duration k); [right | left]; repeat split; lia.
  - cbn [renderLoop loopAfter turn currentTime events].
    fold (continues browser duration k).
    destruct (continues browser duration k) eqn:Ec.
    + rewrite loopAfter_S.
      destruct (IH (S k)) as (k' & Hle & Hall & Hres).
      { intros i Hi. destruct (Nat.eq_dec i k) as [->|]; [assumption|].
        apply Hk. lia. }
      exists k'. split; [lia|]. split; [assumption|].
      destruct Hres as [(-> & Hc & Hb)|(-> & Hc & Hb)]; [left | right];
        repeat split; trivial; lia.
    + exists k. split; [lia|]. split; [assumption|]. left.
      repeat split; trivial; lia.
Qed.


(** ** What is reported *)

(** The values handed to [onRenderProgress], in order. *)
Definition progressReports (es : list Event) : list num :=
  flat_map (fun e => match e with RenderProgress p => [p] | _ => [] end) es.

(** The times, in milliseconds, of the frames processed, in order. *)
Definition framesProcessed (es : list Event) : list num :=
  flat_map (fun e => match e with ProcessFrame t => [t] | _ => [] end) es.

Lemma progressReports_turns browser duration k :
  progressReports (turnsEvents browser duration k) =
  map (fun n => progressAt (timeAt n) duration) (seq 0 k).
Proof.
  unfold turnsEvents, progressReports. induction (seq 0 k) as [|n l IH]; trivial.
  cbn [flat_map map]. rewrite flat_map_app, IH.
  unfold renderFrame. destruct (hasRequestFrame browser); reflexivity.
Qed.

Lemma framesProcessed_turns browser duration k :
  framesProcessed (turnsEvents browser duration k) =
  map (fun n => (timeAt n * 1000)%double) (seq 0 k).
Proof.
  unfold turnsEvents, framesProcessed. induction (seq 0 k) as [|n l IH]; trivial.
  cbn [flat_map map]. rewrite flat_map_app, IH.
  unfold renderFrame. destruct (hasRequestFrame browser); reflexivity.
Qed.

(** ** The arithmetic of the progress value *)

Lemma ltb_of_Z a b : (of_Z a <? of_Z b)%js = (a <? b)%Z.
Proof.
  unfold of_Z, ltb, Qcompare, inject_Z, Z.ltb. simpl. now rewrite !Z.mul_1_r.
Qed.

Lemma leb_of_Z a b : (of_Z a <=? of_Z b)%js = (a <=? b)%Z.
Proof.
  unfold of_Z, leb, Qcompare, inject_Z, Z.leb. simpl. now rewrite !Z.mul_1_r.
Qed.

(** The integer [Math.round] gives for the double [t / q * 100]. *)
Definition percent (t q : Q) : Z :=
  Qfloor (Double.round64 (Double.round64 (t / q) * inject_Z 100) + (1 # 2)).

Lemma min_of_Z a b : min (of_Z a) (of_Z b) = of_Z (Z.min b a).
Proof.
  change (min (of_Z a) (of_Z b))
    with (if (of_Z b <? of_Z a)%js then of_Z b else of_Z a).
  rewrite ltb_of_Z. destruct (Z.ltb_spec b a).
  - now rewrite Z.min_l by lia.
  - now rewrite Z.min_r by lia.
Qed.

Lemma div_Fin (t q : Q) : ~ (q == 0)%Q -> (Fin t / Fin q)%js = Fin (t / q).
Proof.
  intros Hq. cbn [div].
  destruct (Qeq_bool q 0) eqn:E; [apply Qeq_bool_iff in E; contradiction|].
  reflexivity.
Qed.

(** The quotient and the product of doubles. *)
Lemma ddiv_Fin (t q : Q) :
  ~ (q == 0)%Q -> (Fin t / Fin q)%double = Fin (Double.round64 (t / q)).
Proof. intros Hq. unfold Double.div. now rewrite div_Fin. Qed.

Lemma dmul_Fin_of_Z (t : Q) (z : Z) :
  (Fin t * of_Z z)%double = Fin (Double.round64 (t * inject_Z z)).
Proof. reflexivity. Qed.

Lemma round_Fin (t : Q) : round (Fin t) = of_Z (Qfloor (t + (1 # 2))).
Proof. reflexivity. Qed.

Lemma progressAt_Fin (t q : Q) :
  ~ (q == 0)%Q ->
  progressAt (Fin t) (Fin q) = of_Z (Z.min (percent t q) 100).
Proof.
  intros Hq. unfold progressAt.
  rewrite ddiv_Fin by assumption. rewrite dmul_Fin_of_Z, round_Fin.
  apply min_of_Z.
Qed.

Lemma progressAt_PInf (t : Q) : progressAt (Fin t) PInf = of_Z 0.
Proof. reflexivity. Qed.

Lemma percent_mono (t1 t2 q : Q) :
  (0 < q)%Q -> (t1 <= t2)%Q -> percent t1 q <= percent t2 q.
Proof.
  intros Hq Ht. unfold percent. apply Qfloor_resp_le.
  apply Qplus_le_compat; [|apply Qle_refl].
  apply round64_mono.
  apply Qmult_le_compat_r; [|discriminate].
  apply round64_mono.
  apply Qmult_le_compat_r; [assumption|].
  apply Qinv_le_0_compat. now apply Qlt_le_weak.
Qed.

Lemma percent_nonneg (t q : Q) : (0 < q)%Q -> (0 <= t)%Q -> 0 <= percent t q.
Proof.
  intros Hq Ht. unfold percent.
  change 0 with (Qfloor 0). apply Qfloor_resp_le.
  assert (H : (0 <= t / q)%Q).
  { apply Qle_shift_div_l; [assumption|]. lra. }
  apply round64_nonneg in H.
  assert (H' : (0 <= Double.round64 (t / q) * inject_Z 100)%Q).
  { change (inject_Z 100) with 100%Q. lra. }
  apply round64_nonneg in H'. lra.
Qed.

(** While the loop goes on, the duration is [+Infinity] or a finite number
    above the current time. *)
Lemma continues_duration browser duration n :
  continues browser duration n = true ->
  duration = PInf \/ exists q, duration = Fin q /\ (timeQ n < q)%Q.
Proof.
  unfold continues. rewrite timeAt_Fin. intros H.
  apply andb_prop in H as [H _].
  destruct duration as [| | |q]; try discriminate; [now left|].
  right. exists q. split; trivial. now apply ltb_Fin.
Qed.

Lemma progress_mono browser duration i j :
  (i <= j)%nat ->
  continues browser duration j = true ->
  (progressAt (timeAt i) duration <=? progressAt (timeAt j) duration)%js = true.
Proof.
  intros Hij H. rewrite !timeAt_Fin.
  destruct (continues_duration _ _ _ H) as [->|(q & -> & Hq)].
  - reflexivity.
  - pose proof (timeQ_nonneg j) as Hn.
    assert (Hq0 : (0 < q)%Q) by lra.
    rewrite !progressAt_Fin by lra. rewrite leb_of_Z.
    pose proof (percent_mono _ _ q Hq0 (timeQ_mono _ _ Hij)).
    apply Z.leb_le. lia.
Qed.

Lemma nth_error_map_seq {A} (f : nat -> A) k i a :
  nth_error (map f (seq 0 k)) i = Some a -> (i < k)%nat /\ a = f i.
Proof.
  intros H.
  assert (Hi : (i < k)%nat).
  { rewrite <- (length_seq k 0), <- (length_map f).
    apply nth_error_Some. congruence. }
  split; trivial.
  rewrite nth_error_map, (@nth_error_nth' _ (seq 0 k) i 0%nat) in H
    by now rewrite length_seq.
  rewrite seq_nth in H by assumption. simpl in H. congruence.
Qed.

(** What [runRender] does: with a context, the turns for which the loop
    condition holds, then, when the loop is left, the end of the recording. *)
Lemma runRender_spec fuel browser :
  hasContext browser = true ->
  exists frames,
    (forall i, (i < frames)%nat ->
       continues browser (or_else (videoDuration browser) 10) i = true) /\
    ((continues browser (or_else (videoDuration browser) 10) frames = false /\
      (frames <= fuel)%nat /\
      runRender fuel browser =
      (true,
       ([RecorderStart; Seek 0] ++
        turnsEvents browser (or_else (videoDuration browser) 10) frames) ++
       [RecorderStop; Seek 0;
        RenderComplete (fst (exportFormat browser)) (snd (exportFormat browser))])) \/
     (continues browser (or_else (videoDuration browser) 10) frames = true /\
      frames = fuel /\
      runRender fuel browser =
      (false,
       [RecorderStart; Seek 0] ++
       turnsEvents browser (or_else (videoDuration browser) 10) frames))).
Proof.
  intros Hctx. unfold runRender. rewrite Hctx. cbn [negb].
  destruct (exportFormat browser) as [mimeType extension]. cbn [fst snd].
  set (duration := or_else (videoDuration browser) 10).
  change {| turn := 0; currentTime := 0; events := [RecorderStart; Seek 0] |}
    with (loopAfter browser duration 0).
  destruct (renderLoop_spec browser duration fuel 0) as (k & _ & Hall & Hres);
    [intros i Hi; lia|].
  exists k. split; [assumption|].
  destruct Hres as [(-> & Hc & Hb)|(-> & Hc & Hb)]; [left | right];
    repeat split; trivial.
Qed.

(** The value reported at a turn is an integer from 0 to 100. *)
Lemma progress_integer browser duration n :
  continues browser duration n = true ->
  exists p : Z, progressAt (timeAt n) duration = of_Z p /\ 0 <= p <= 100.
Proof.
  intros H. rewrite timeAt_Fin.
  destruct (continues_duration _ _ _ H) as [->|(q & -> & Hq)].
  - exists 0. rewrite progressAt_PInf. split; [reflexivity | lia].
  - pose proof (timeQ_nonneg n) as Hn.
    assert (Hq0 : (0 < q)%Q) by lra.
    rewrite progressAt_Fin by lra.
    pose proof (percent_nonneg _ _ Hq0 Hn).
    eexists. split; [reflexivity | lia].
Qed.

(** C9, as amended.  In an export, [frames] turns of the loop are done:
    those for which the loop condition holds, up to the first for which it
    does not.  Each turn seeks, processes the frame at [currentTime], commits
    it and then calls [onRenderProgress] once, with
    [min(100, round((currentTime / duration) * 100))], computed in doubles
    from the [currentTime] of the turn, which is [frameDuration] added up
    turn after turn and rounded every time ([duration] being
    [vid.duration || 10]); so there is exactly one report for each frame
    processed.  Every value reported is an integer from 0 to 100, and the
    values reported never decrease. *)
Theorem progress_once_per_frame_clamped_never_decreasing
    (fuel : nat) (browser : Browser) :
  hasContext browser = true ->
  let duration := or_else (videoDuration browser) 10 in
  let report := fun n => min 100 (round ((timeAt n / duration) * 100)%double) in
  let es := snd (runRender fuel browser) in
  let finished := fst (runRender fuel browser) in
  exists frames : nat,
    (frames <= fuel)%nat /\
    (forall n, (n < frames)%nat ->
       (timeAt n <? duration)%js = true /\ cancelled browser n = false) /\
    (if finished
     then ((timeAt frames <? duration)%js && negb (cancelled browser frames))%bool
          = false
     else ((timeAt frames <? duration)%js && negb (cancelled browser frames))%bool
          = true /\ frames = fuel) /\
    es =
      [RecorderStart; Seek 0] ++
      flat_map
        (fun n =>
           [ Seek (timeAt n); AwaitSeek; ProcessFrame (timeAt n * 1000)%double;
             if hasRequestFrame browser then RequestFrame else AwaitSample;
             RenderProgress (report n); Yield ])
        (seq 0 frames) ++
      (if finished
       then [ RecorderStop; Seek 0;
              RenderComplete (fst (exportFormat browser))
                (snd (exportFormat browser)) ]
       else []) /\
    progressReports es = map report (seq 0 frames) /\
    framesProcessed es = map (fun n => (timeAt n * 1000)%double) (seq 0 frames) /\
    (forall n, (n < frames)%nat ->
       exists p : Z, report n = of_Z p /\ 0 <= p <= 100) /\
    (forall i j, (i <= j < frames)%nat -> (report i <=? report j)%js = true).
Proof.
  intros Hctx duration report es finished.
  destruct (runRender_spec fuel browser Hctx) as (frames & Hall & Hres).
  fold duration in Hall, Hres.
  assert (Hturns : turnsEvents browser duration frames =
            flat_map
              (fun n =>
                 [ Seek (timeAt n); AwaitSeek; ProcessFrame (timeAt n * 1000)%double;
                   if hasRequestFrame browser then RequestFrame else AwaitSample;
                   RenderProgress (report n); Yield ])
              (seq 0 frames)) by reflexivity.
  assert (Hes : exists tail,
            es = [RecorderStart; Seek 0] ++
                 turnsEvents browser duration frames ++ tail /\
            progressReports tail = [] /\ framesProcessed tail = [] /\
            tail = if finished
                   then [ RecorderStop; Seek 0;
                          RenderComplete (fst (exportFormat browser))
                            (snd (exportFormat browser)) ]
                   else []).
  { subst es finished. destruct Hres as [(_ & _ & ->)|(_ & _ & ->)]; cbn [fst snd].
    - eexists. rewrite <- app_assoc. repeat split; reflexivity.
    - exists []. rewrite app_nil_r. repeat split; reflexivity. }
  destruct Hes as (tail & Hes & Htp & Htf & Htail).
  assert (Hp : progressReports es = map report (seq 0 frames)).
  { rewrite Hes. unfold progressReports at 1. rewrite !flat_map_app.
    fold (progressReports tail).
    fold (progressReports (turnsEvents browser duration frames)).
    rewrite Htp, progressReports_turns, app_nil_r. reflexivity. }
  assert (Hf : framesProcessed es =
               map (fun n => (timeAt n * 1000)%double) (seq 0 frames)).
  { rewrite Hes. unfold framesProcessed at 1. rewrite !flat_map_app.
    fold (framesProcessed tail).
    fold (framesProcessed (turnsEvents browser duration frames)).
    rewrite Htf, framesProcessed_turns, app_nil_r. reflexivity. }
  exists frames.
  split; [destruct Hres as [(_ & ? & _)|(_ & ? & _)]; lia|].
  split; [intros n Hn; pose proof (Hall n Hn) as Hc; unfold continues in Hc;
          apply andb_prop in Hc as [Ht Hc]; split; trivial;
          now destruct (cancelled browser n)|].
  split; [subst finished; destruct Hres as [(Hc & _ & ->)|(Hc & ? & ->)];
          cbn [fst]; [exact Hc | split; [exact Hc | assumption]]|].
  split; [rewrite Hes, Hturns, Htail; reflexivity|].
  split; [assumption|]. split; [assumption|]. split.
  - intros n Hn. apply (progress_integer browser). now apply Hall.
  - intros i j [Hij Hj]. apply (progress_mono browser); [assumption|].
    now apply Hall.
Qed.

(** C8, as amended.  When the flag [cancelled] is found set at the check
    before the turn [k], having been clear at the checks before, and the
    video had not run out before that, the loop stops there: [k] frames have
    been processed and committed and none is after.  There is no separate
    path for a cancelled export: [runRender] then stops the recorder, sets
    the video back to time 0, and the recorder's [onstop] calls
    [onRenderComplete] with the blob of what the recorder was given, and the
    extension. *)
Theorem cancelled_export_completes_with_partial_recording
    (fuel k : nat) (browser : Browser) :
  let duration := or_else (videoDuration browser) 10 in
  hasContext browser = true ->
  (forall i, (i < k)%nat -> cancelled browser i = false) ->
  cancelled browser k = true ->
  (forall i, (i < k)%nat -> (timeAt i <? duration)%js = true) ->
  (k <= fuel)%nat ->
  runRender fuel browser =
  (true,
   ([RecorderStart; Seek 0] ++ turnsEvents browser duration k) ++
   [RecorderStop; Seek 0;
    RenderComplete (fst (exportFormat browser)) (snd (exportFormat browser))]).
Proof.
  intros duration Hctx Hclear Hset Htime Hfuel.
  destruct (runRender_spec fuel browser Hctx) as (frames & Hall & Hres).
  fold duration in Hall, Hres.
  assert (Hk : continues browser duration k = false).
  { unfold continues. rewrite Hset. apply andb_false_r. }
  assert (Hbefore : forall i, (i < k)%nat -> continues browser duration i = true).
  { intros i Hi. unfold continues. now rewrite Htime, Hclear. }
  assert (Heq : frames = k).
  { destruct (Nat.lt_trichotomy frames k) as [Hlt|[Heq|Hgt]]; trivial.
    - destruct Hres as [(Hc & _)|(_ & Hf & _)]; [|lia].
      rewrite Hbefore in Hc by assumption. discriminate.
    - rewrite Hall in Hk by assumption. discriminate. }
  subst frames. destruct Hres as [(_ & _ & Hr)|(Hc & _)]; [assumption|].
  rewrite Hk in Hc. discriminate.
Qed.

End ExportFacts.


(* ================================================================== *)
(** * The tracker on concrete frames *)
(* ================================================================== *)

(** A contour of the given area whose bounding box is the square of side 20
    centred at [(cx, cy)]. *)
Definition contourAt (cx cy : Z) (a : num) : Contour :=
  {| contourArea := a;
     boundingRect :=
       {| rect_x := cx - 10; rect_y := cy - 10;
          rect_width := 20; rect_height := 20 |} |}.

Definition withMinArea (a : num) : TrackerSettings :=
  {| threshold := threshold initialSettings;
     minArea := a;
     blurSize := blurSize initialSettings;
     historyLength := historyLength initialSettings;
     jitter := jitter initialSettings;
     drift := drift initialSettings;
     showVideo := showVideo initialSettings |}.

Definition withHistoryLength (hl : num) : TrackerSettings :=
  {| threshold := threshold initialSettings;
     minArea := minArea initialSettings;
     blurSize := blurSize initialSettings;
     historyLength := hl;
     jitter := jitter initialSettings;
     drift := drift initialSettings;
     showVideo := showVideo initialSettings |}.

(** C1 (the code breaks it).  In a new tracker, one frame with two separate
    regions centred at (10,10) and (60,10), both above [minArea] and nearer
    to each other than the matching radius, returns two blobs with the id 1:
    the first candidate becomes the blob 1, which is not put in
    [assignedIds], and the second candidate is matched to it. *)
Theorem two_near_candidates_share_an_id :
  exists this' b1 b2,
    processFrame hypot_ref
      (Contours [contourAt 10 10 150; contourAt 60 10 150])
      0 initialSettings 1 newCVProcessor = Ok (this', [b1; b2]) /\
    id b1 = 1 /\ id b2 = 1 /\
    (x b1 ==? 10)%js = true /\ (x b2 ==? 60)%js = true /\
    ~ NoDup (map id [b1; b2]).
Proof.
  do 3 eexists. split; [vm_compute; reflexivity|].
  repeat (split; [reflexivity|]).
  simpl. intros H. inversion H as [|? ? Hin _]. apply Hin. now left.
Qed.

(** C2 (the code breaks it).  A blob at (10,10), and in the next frame two
    regions: first one at (111,10), further from the blob than the matching
    radius 100, then one at (109,10), nearer to it than the radius.  The far
    region becomes the new blob 2, which is not put in [assignedIds]; the
    near region is then found nearer to the blob 2, at a distance of 2, than
    to the blob 1, at 99, and is matched to the blob 2, made in this very
    call for the other region.  Both blobs returned have the id 2, and the
    blob 1, the one the near region should have been matched to, is left as
    it was. *)
Theorem near_candidate_is_matched_to_the_blob_just_made :
  exists this1 b1 this2 far near,
    processFrame hypot_ref (Contours [contourAt 10 10 150]) 0
      initialSettings 1 newCVProcessor = Ok (this1, [b1]) /\
    id b1 = 1 /\ JsMap.get 1 (activeBlobs this1) = Some b1 /\
    (maxDist 1 <?
     distance hypot_ref (candidateOf 1 (contourAt 111 10 150)) b1)%js = true /\
    (distance hypot_ref (candidateOf 1 (contourAt 109 10 150)) b1 <?
     maxDist 1)%js = true /\
    processFrame hypot_ref
      (Contours [contourAt 111 10 150; contourAt 109 10 150]) 16
      initialSettings 1 this1 = Ok (this2, [far; near]) /\
    (x far ==? 111)%js = true /\ (x near ==? 109)%js = true /\
    id far = 2 /\ id near = 2 /\
    ~ In (id b1) (map id [far; near]) /\
    JsMap.get 1 (activeBlobs this2) = Some b1 /\
    JsMap.get 2 (activeBlobs this2) = Some near.
Proof.
  do 5 eexists. split; [vm_compute; reflexivity|].
  split; [reflexivity|]. split; [reflexivity|].
  split; [vm_compute; reflexivity|]. split; [vm_compute; reflexivity|].
  split; [vm_compute; reflexivity|].
  repeat (split; [reflexivity|]).
  split; [|split; reflexivity].
  simpl. intros [H|[H|[]]]; discriminate.
Qed.

(** The same with two regions whose bounding boxes are well apart: after the
    blob at (10,10), a region at (100,70), at a distance of 108 from the
    blob, and then one at (100,10), at 90 from the blob and 60 from the
    first region.  Both blobs returned have the id 2. *)
Example near_region_is_matched_to_the_far_region_of_its_frame :
  exists results this b1,
    processFrames hypot_ref
      [ {| callFrame := Contours [contourAt 10 10 150];
           callNow := 0; callSettings := initialSettings; callScaleFactor := 1 |};
        {| callFrame := Contours [contourAt 100 70 150; contourAt 100 10 150];
           callNow := 16; callSettings := initialSettings; callScaleFactor := 1 |} ]
      newCVProcessor = Ok (results, this) /\
    map (map id) results = [[1]; [2; 2]] /\
    JsMap.get 1 (activeBlobs this) = Some b1 /\ lastSeen b1 = 0 /\
    (distance hypot_ref (candidateOf 1 (contourAt 100 10 150)) b1 <?
     maxDist 1)%js = true /\
    (maxDist 1 <?
     distance hypot_ref (candidateOf 1 (contourAt 100 70 150)) b1)%js = true.
Proof.
  do 3 eexists. split; [vm_compute; reflexivity|].
  split; [reflexivity|]. split; [reflexivity|]. split; [reflexivity|].
  split; vm_compute; reflexivity.
Qed.

(** C10 (the code breaks it).  On the frame of C1, two regions at (10,10)
    and (60,10) in a new tracker, the first blob returned, the record made
    for the region at (10,10), is not in the active set when the call
    returns: the second region was matched to it, so that the only entry,
    under the id 1, holds the record of the region at (60,10). *)
Theorem first_returned_blob_is_not_active :
  exists this' b1 b2,
    processFrame hypot_ref
      (Contours [contourAt 10 10 150; contourAt 60 10 150])
      0 initialSettings 1 newCVProcessor = Ok (this', [b1; b2]) /\
    lastSeen b1 = 0 /\ (0 - lastSeen b1 >? BLOB_TIMEOUT) = false /\
    (x b1 ==? 10)%js = true /\ (x b2 ==? 60)%js = true /\
    activeBlobs this' = [(1, b2)] /\
    b1 <> b2 /\
    forall k b, JsMap.get k (activeBlobs this') = Some b -> b <> b1.
Proof.
  do 3 eexists. split; [vm_compute; reflexivity|].
  repeat (split; [reflexivity|]).
  split; [discriminate|].
  intros k b H Hb. subst b. simpl in H.
  destruct k as [|q|q]; try discriminate H.
  destruct (1 =? q)%positive; discriminate H.
Qed.

(** Regions further apart than the radius get the ids 1 and 2, and a region
    near the first one in the next frame is matched to the blob 1. *)
Example far_regions_get_two_ids_and_the_near_one_matches :
  exists results this,
    processFrames hypot_ref
      [ {| callFrame := Contours [contourAt 10 10 150; contourAt 600 600 150];
           callNow := 0; callSettings := initialSettings; callScaleFactor := 1 |};
        {| callFrame := Contours [contourAt 15 12 150];
           callNow := 16; callSettings := initialSettings; callScaleFactor := 1 |} ]
      newCVProcessor = Ok (results, this) /\
    map (map id) results = [[1; 2]; [1]] /\
    JsMap.keys (activeBlobs this) = [1; 2].
Proof. do 2 eexists. split; [vm_compute; reflexivity|]. split; reflexivity. Qed.

(** C4 (the code breaks it).  Three frames with [historyLength = 2] and the
    same region, then one with [historyLength = 0], as after the trail
    length slider is moved down: the match of the last call appends the old
    position and takes one entry off, the [if] of the source running
    [shift()] once and not until the bound is met, so that after the call
    the blob's history, active and returned, has two entries and
    [historyLength] is [0]. *)
Theorem history_exceeds_a_lowered_historyLength :
  exists results this b,
    processFrames hypot_ref
      [ {| callFrame := Contours [contourAt 10 10 150]; callNow := 0;
           callSettings := withHistoryLength 2; callScaleFactor := 1 |};
        {| callFrame := Contours [contourAt 10 10 150]; callNow := 10;
           callSettings := withHistoryLength 2; callScaleFactor := 1 |};
        {| callFrame := Contours [contourAt 10 10 150]; callNow := 20;
           callSettings := withHistoryLength 2; callScaleFactor := 1 |};
        {| callFrame := Contours [contourAt 10 10 150]; callNow := 30;
           callSettings := withHistoryLength 0; callScaleFactor := 1 |} ]
      newCVProcessor = Ok (results, this) /\
    JsMap.get 1 (activeBlobs this) = Some b /\
    last results [] = [b] /\
    length (history b) = 2%nat /\
    (of_nat (length (history b)) <=? historyLength (withHistoryLength 0))%js
    = false.
Proof.
  do 3 eexists. split; [vm_compute; reflexivity|].
  split; [reflexivity|]. split; [reflexivity|]. split; reflexivity.
Qed.

(** C5, as stated, fails: a blob last matched at time 0 is matched again by
    the call at time 1000, although [1000 - 0 > BLOB_TIMEOUT]; it is in the
    result of that call and active after it. *)
Lemma stale_blob_is_matched_and_kept :
  exists this1 b1 this2 b2,
    processFrame hypot_ref (Contours [contourAt 10 10 150]) 0
      initialSettings 1 newCVProcessor = Ok (this1, [b1]) /\
    id b1 = 1 /\ lastSeen b1 = 0 /\
    1000 - lastSeen b1 > BLOB_TIMEOUT /\
    processFrame hypot_ref (Contours [contourAt 10 10 150]) 1000
      initialSettings 1 this1 = Ok (this2, [b2]) /\
    id b2 = 1 /\
    JsMap.get 1 (activeBlobs this2) = Some b2.
Proof.
  do 4 eexists. split; [vm_compute; reflexivity|].
  split; [reflexivity|]. split; [reflexivity|]. split; [reflexivity|].
  split; [vm_compute; reflexivity|]. split; reflexivity.
Qed.

(** C7, as stated, fails: with the scale factor [+Infinity] the candidate's
    coordinates are infinite, and the candidate becomes the blob 1, which is
    returned and active; a candidate with [x = NaN] handed to the tracking
    step does the same. *)
Lemma non_finite_candidate_is_tracked :
  (exists this' b,
     processFrame hypot_ref (Contours [contourAt 10 10 150]) 0
       initialSettings PInf newCVProcessor = Ok (this', [b]) /\
     x b = PInf /\ y b = PInf /\ id b = 1 /\
     JsMap.get 1 (activeBlobs this') = Some b) /\
  (exists this' b,
     track hypot_ref initialSettings 1 0
       [ {| cand_x := NaN; cand_y := 10; cand_w := 10; cand_h := 10;
            cand_area := 150 |} ]
       newCVProcessor = Ok (this', [b]) /\
     x b = NaN /\ id b = 1 /\
     JsMap.get 1 (activeBlobs this') = Some b).
Proof.
  split; do 2 eexists; (split; [vm_compute; reflexivity|]);
    repeat (split; [reflexivity|]); reflexivity.
Qed.

(** ** The theorems above at concrete inputs *)

(** A blob with the id 1 at the origin, alone in the active set. *)
Definition blobAtOrigin : DetectedBlob :=
  {| id := 1; x := 0; y := 0; w := 10; h := 10; area := 150; history := [];
     lastSeen := 0; visualX := Some (Fin 0); visualY := Some (Fin 0) |}.

Definition candidateAt (cx cy : Z) : Candidate :=
  {| cand_x := cx; cand_y := cy; cand_w := 10; cand_h := 10; cand_area := 150 |}.

(** The tracker after a first frame, at time 0, with one region at (10,10). *)
Definition afterFirstFrame : CVProcessor :=
  Eval vm_compute in
    match
      processFrame hypot_ref (Contours [contourAt 10 10 150]) 0
        initialSettings 1 newCVProcessor
    with
    | Ok (this, _) => this
    | TypeError => newCVProcessor
    end.

Lemma afterFirstFrame_reachable : reachable hypot_ref afterFirstFrame.
Proof.
  eexists.
  eapply (runs_frame hypot_ref (fun _ => True) newCVProcessor
            (Contours [contourAt 10 10 150]) 0 initialSettings 1 afterFirstFrame);
    [exact I | vm_compute; reflexivity | apply runs_done].
Defined.

Lemma nearest_unassigned_within_radius_or_new_id_witness :
  (1 <= id blobAtOrigin < 2 /\
   (distance hypot_ref (candidateAt 30 40) blobAtOrigin <? maxDist 1)%js = true /\
   (maxDist 1 <? distance hypot_ref (candidateAt 300 400) blobAtOrigin)%js = true) /\
  returned
    (track hypot_ref initialSettings 1 5 [candidateAt 300 400; candidateAt 30 40]
       {| nextBlobId := 2; activeBlobs := [(id blobAtOrigin, blobAtOrigin)] |}) =
  Some [newEntity 5 2 (candidateAt 300 400);
        updated initialSettings 5 blobAtOrigin (candidateAt 30 40)].
Proof.
  split; [split; [simpl; lia | split; vm_compute; reflexivity]|].
  apply (proj2 (nearest_unassigned_within_radius_or_new_id hypot_ref
                  initialSettings 1 5)
           blobAtOrigin 2 (candidateAt 30 40) (candidateAt 300 400));
    [simpl; lia | vm_compute; reflexivity | vm_compute; reflexivity].
Defined.

Lemma admitted_iff_scaled_area_exceeds_minArea_witness :
  (minArea initialSettings = Fin 100 /\
   (realArea 2 (contourAt 10 10 (Fin 12.5)) ==? Fin 50)%js = true /\
   (realArea 2 (contourAt 40 40 (Fin 37.5)) ==? Fin 150)%js = true) /\
  returned
    (processFrame hypot_ref
       (Contours [contourAt 10 10 (Fin 12.5); contourAt 40 40 (Fin 37.5)])
       0 initialSettings 2 newCVProcessor) =
  Some [newEntity 0 1 (candidateOf 2 (contourAt 40 40 (Fin 37.5)))].
Proof.
  split; [split; [reflexivity | split; vm_compute; reflexivity]|].
  apply (proj2 (proj2 (admitted_iff_scaled_area_exceeds_minArea hypot_ref
                         initialSettings 2))
           (contourAt 10 10 (Fin 12.5)) (contourAt 40 40 (Fin 37.5)) 0);
    [reflexivity | vm_compute; reflexivity | vm_compute; reflexivity].
Defined.

(** The product that is compared is the rounded one.  For a video 864
    pixels wide the scale is the double next to 1.8, a little above it; the
    exact product of 250 and the square of that double is a little above
    810, the double product is 810, and the region is left out at
    [minArea = 810]. *)
Example region_at_the_boundary_is_left_out :
  let s := previewScale 864 480 in
  let region := contourAt 100 100 250 in
  (Fin 1.8 <? s)%js = true /\
  ((contourArea region * (s * s))%js >? 810)%js = true /\
  realArea s region = Fin 810 /\
  admitted (withMinArea 810) s region = false /\
  returned (processFrame hypot_ref (Contours [region]) 0 (withMinArea 810) s
              newCVProcessor) = Some [].
Proof. repeat split; vm_compute; reflexivity. Qed.

(** Three frames with [historyLength = 2] and the same region. *)
Definition threeFrames : list Call :=
  [ {| callFrame := Contours [contourAt 10 10 150]; callNow := 0;
       callSettings := withHistoryLength 2; callScaleFactor := 1 |};
    {| callFrame := Contours [contourAt 10 10 150]; callNow := 10;
       callSettings := withHistoryLength 2; callScaleFactor := 1 |};
    {| callFrame := Contours [contourAt 10 10 150]; callNow := 20;
       callSettings := withHistoryLength 2; callScaleFactor := 1 |} ].

Lemma history_within_a_constant_historyLength_witness :
  exists results this b,
    processFrames hypot_ref threeFrames newCVProcessor = Ok (results, this) /\
    JsMap.get 1 (activeBlobs this) = Some b /\
    (of_nat (length (history b)) <=? 2)%js = true.
Proof.
  destruct (processFrames hypot_ref threeFrames newCVProcessor)
    as [[results this]|] eqn:E; [|vm_compute in E; discriminate].
  assert (Hruns : runs hypot_ref (fun settings => historyLength settings = 2)
                    newCVProcessor results this).
  { apply processFrames_runs with (calls := threeFrames);
      [repeat constructor | exact E]. }
  destruct (history_within_a_constant_historyLength hypot_ref 2 results this
              eq_refl Hruns) as [Hactive _].
  vm_compute in E. injection E as <- <-.
  do 3 eexists. split; [reflexivity|]. split; [reflexivity|].
  exact (proj1 (Hactive 1 _ eq_refl)).
Defined.

Lemma pruned_iff_timed_out_after_matching_witness :
  reachable hypot_ref afterFirstFrame /\
  exists this' tracked,
    processFrame hypot_ref (Contours []) 1000 initialSettings 1 afterFirstFrame =
    Ok (this', tracked) /\
    JsMap.get 1 (activeBlobs this') = None.
Proof.
  split; [exact afterFirstFrame_reachable|].
  destruct (pruned_iff_timed_out_after_matching hypot_ref (Contours []) 1000
              initialSettings 1 afterFirstFrame afterFirstFrame_reachable)
    as (this' & tracked & Heq & st & Hst & Htr & Hget & _).
  exists this', tracked. split; [exact Heq|].
  rewrite Hget. injection Hst as <-. reflexivity.
Defined.

Lemma non_finite_candidate_becomes_new_blob_witness :
  reachable hypot_ref afterFirstFrame /\
  exists st,
    matchingPass hypot_ref initialSettings 1 10 [] afterFirstFrame = Ok st /\
    trackBlob hypot_ref initialSettings 10 (maxDist 1) st
      {| cand_x := 10; cand_y := NaN; cand_w := 10; cand_h := 10;
         cand_area := 150 |} =
    Ok (spawnBlob 10 st
          {| cand_x := 10; cand_y := NaN; cand_w := 10; cand_h := 10;
             cand_area := 150 |}).
Proof.
  split; [exact afterFirstFrame_reachable|].
  destruct (proj2 (proj2 (non_finite_candidate_becomes_new_blob hypot_ref
                            initialSettings 1 10 afterFirstFrame
                            afterFirstFrame_reachable))
              [] {| cand_x := 10; cand_y := NaN; cand_w := 10; cand_h := 10;
                    cand_area := 150 |} [])
    as (st & Hst & _ & Htb & _); [right; reflexivity|].
  exists st. split; assumption.
Defined.

Lemma returned_blob_is_active_witness :
  reachable hypot_ref afterFirstFrame /\
  exists this' tracked,
    processFrame hypot_ref (Contours [contourAt 12 11 150]) 1000
      initialSettings 1 afterFirstFrame = Ok (this', tracked) /\
    forall b, In b tracked ->
      exists b', JsMap.get (id b) (activeBlobs this') = Some b' /\ lastSeen b' = 1000.
Proof.
  split; [exact afterFirstFrame_reachable|].
  destruct (returned_blob_is_active hypot_ref (Contours [contourAt 12 11 150])
              1000 initialSettings 1 afterFirstFrame afterFirstFrame_reachable)
    as (this' & tracked & Heq & Hall).
  exists this', tracked. split; [exact Heq|].
  intros b Hb. destruct (Hall b Hb) as (_ & _ & b' & Hget & _ & Hseen & _).
  exists b'. split; assumption.
Defined.

(* ================================================================== *)
(** * The smoother and the export on concrete inputs *)
(* ================================================================== *)

Definition fullDrift : TrackerSettings :=
  {| threshold := 100; minArea := 100; blurSize := 5; historyLength := 15;
     jitter := 0; drift := 1; showVideo := true |}.

(** A blob at (10,10) that is displayed at (0,0). *)
Definition laggingBlob : DetectedBlob :=
  {| id := 1; x := 10; y := 10; w := 10; h := 10; area := 150; history := [];
     lastSeen := 0; visualX := Some (Fin 0); visualY := Some (Fin 0) |}.

(** C6, as stated, fails: with [jitter = 0] and [drift = 1.0], one call
    takes the display position from (0,0) to (1,1), not to the true
    position (10,10). *)
Lemma display_position_lags_at_full_drift :
  jitter fullDrift = 0 /\ drift fullDrift = 1 /\
  forall (sin cos : num -> num) (time : num),
    exists vx' vy',
      visualX (fst (drawOverlay sin cos fullDrift time laggingBlob)) = Some vx' /\
      visualY (fst (drawOverlay sin cos fullDrift time laggingBlob)) = Some vy' /\
      (vx' ==? 1)%js = true /\ (vy' ==? 1)%js = true /\
      (vx' ==? x laggingBlob)%js = false /\
      (vy' ==? y laggingBlob)%js = false.
Proof.
  split; [reflexivity|]. split; [reflexivity|].
  intros sin cos time. do 2 eexists.
  split; [reflexivity|]. split; [reflexivity|].
  split; [reflexivity|]. split; [reflexivity|]. split; reflexivity.
Qed.

Lemma one_tenth_of_the_way_at_full_drift_witness :
  exists vx',
    visualX (fst (drawOverlay (fun _ => Fin 0) (fun _ => Fin 0) fullDrift 0
                    laggingBlob)) = Some (Fin vx') /\
    (10 - vx' == 9)%Q.
Proof.
  destruct (one_tenth_of_the_way_at_full_drift (fun _ => Fin 0) (fun _ => Fin 0)
              fullDrift 0 laggingBlob 0 0 (inject_Z 10) (inject_Z 10)
              eq_refl eq_refl eq_refl eq_refl eq_refl)
    as (_ & _ & vx' & vy' & Hx & _ & _ & _ & Hgap & _).
  exists vx'. split; [exact Hx|].
  change (inject_Z 10) with 10%Q in Hgap. rewrite Hgap. reflexivity.
Defined.

(** A two-second video, a browser with [requestFrame] and MP4, and an
    export cancelled while the third frame is processed: the flag is found
    set at the check before the turn 3. *)
Definition cancelledAtThird : Browser :=
  {| hasContext := true;
     isTypeSupported := fun _ => true;
     hasRequestFrame := true;
     videoDuration := 2;
     cancelled := fun n => (3 <=? n)%nat |}.

Definition neverCancelled : Browser :=
  {| hasContext := true;
     isTypeSupported := fun _ => true;
     hasRequestFrame := true;
     videoDuration := 2;
     cancelled := fun _ => false |}.

(** Left alone, the export of the two-second video processes 60 frames and
    ends with the progress 98. *)
Example two_seconds_sixty_frames :
  exists es,
    runRender 100 neverCancelled = (true, es) /\
    length (ExportFacts.framesProcessed es) = 60%nat /\
    last (ExportFacts.progressReports es) 0 = 98.
Proof. eexists. split; [vm_compute; reflexivity|]. split; reflexivity. Qed.

(** A four-second video, exported to its end. *)
Definition fourSeconds : Browser :=
  {| hasContext := true;
     isTypeSupported := fun _ => true;
     hasRequestFrame := true;
     videoDuration := 4;
     cancelled := fun _ => false |}.

(** C9, as stated, fails: in the export of a four-second video the report
    made for the frame 15, the frames counted from 0, is 12, where
    [round(100 * n * frameDuration / duration)] is 13, whether computed in
    doubles or exactly: the [currentTime] of that turn, [frameDuration]
    added up fifteen times in doubles, is a little below one half, so that
    the export has the progress a little below 12.5 where the formula has
    12.5.  (Were the frames counted from 1, the first report would have to
    be 1, and it is 0.)  The sum also lets the loop do a turn more than
    120. *)
Lemma report_of_frame_15_is_12_where_the_formula_gives_13 :
  exists es,
    runRender 200 fourSeconds = (true, es) /\
    length (ExportFacts.framesProcessed es) = 121%nat /\
    nth_error (ExportFacts.progressReports es) 15 = Some (of_Z 12) /\
    min 100 (round (100 * 15 * frameDuration / 4)%double) = of_Z 13 /\
    min 100 (round (100 * 15 * (1 / 30) / 4)%js) = of_Z 13 /\
    (ExportFacts.timeAt 15 <? Fin 0.5)%js = true /\
    nth_error (ExportFacts.progressReports es) 0 = Some (of_Z 0) /\
    min 100 (round (100 * 1 * frameDuration / 4)%double) = of_Z 1.
Proof.
  eexists. split; [vm_compute; reflexivity|].
  split; [reflexivity|]. split; [reflexivity|].
  split; [vm_compute; reflexivity|]. split; [vm_compute; reflexivity|].
  split; [vm_compute; reflexivity|]. split; [reflexivity|].
  vm_compute. reflexivity.
Qed.

Lemma progress_once_per_frame_clamped_never_decreasing_witness :
  hasContext fourSeconds = true /\
  let report :=
    fun n => min 100 (round ((ExportFacts.timeAt n / 4) * 100)%double) in
  ExportFacts.progressReports (snd (runRender 200 fourSeconds)) =
    map report (seq 0 121) /\
  report 15%nat = of_Z 12 /\
  (forall n, (n < 121)%nat -> exists p : Z, report n = of_Z p /\ 0 <= p <= 100) /\
  (forall i j, (i <= j < 121)%nat -> (report i <=? report j)%js = true).
Proof.
  split; [reflexivity|].
  destruct (ExportFacts.progress_once_per_frame_clamped_never_decreasing
              200 fourSeconds eq_refl)
    as (frames & _ & _ & _ & _ & Hp & _ & Hint & Hmono).
  assert (Hlen : frames = 121%nat).
  { apply (f_equal (@length num)) in Hp.
    rewrite length_map, length_seq in Hp. rewrite <- Hp.
    vm_compute. reflexivity. }
  subst frames. cbv zeta.
  split; [exact Hp|]. split; [vm_compute; reflexivity|].
  split; [exact Hint | exact Hmono].
Defined.

(** C8, as stated, fails: the export cancelled at the turn 3, with the
    video far from its end, still ends in [onRenderComplete], after the
    three frames processed and committed so far. *)
Lemma cancelled_export_still_completes :
  cancelled cancelledAtThird 3 = true /\
  (ExportFacts.timeAt 3 <? or_else (videoDuration cancelledAtThird) 10)%js = true /\
  exists es,
    runRender 100 cancelledAtThird = (true, es) /\
    In (RenderComplete "video/mp4; codecs=avc1.42E01E, mp4a.40.2" "mp4") es /\
    length (ExportFacts.framesProcessed es) = 3%nat /\
    length (filter (fun e => match e with RequestFrame => true | _ => false end) es)
    = 3%nat.
Proof.
  split; [reflexivity|]. split; [vm_compute; reflexivity|].
  eexists. split; [vm_compute; reflexivity|].
  split; [repeat (try (left; reflexivity); right) | split; reflexivity].
Qed.

Lemma cancelled_export_completes_with_partial_recording_witness :
  runRender 100 cancelledAtThird =
  (true,
   ([RecorderStart; Seek 0] ++
    ExportFacts.turnsEvents cancelledAtThird
      (or_else (videoDuration cancelledAtThird) 10) 3) ++
   [RecorderStop; Seek 0;
    RenderComplete (fst (exportFormat cancelledAtThird))
      (snd (exportFormat cancelledAtThird))]).
Proof.
  apply (ExportFacts.cancelled_export_completes_with_partial_recording
           100 3 cancelledAtThird).
  - reflexivity.
  - intros i Hi. destruct i as [|[|[|i]]]; try reflexivity. lia.
  - reflexivity.
  - intros i Hi. destruct i as [|[|[|i]]]; try reflexivity. lia.
  - lia.
Defined.

(* ================================================================== *)
(** * The tracker: the ids of one call and the order of the active blobs *)
(* ================================================================== *)

(** The ids [n], [n + 1], ..., [n + c - 1]. *)
Definition idsFrom (n : Z) (c : nat) : list Z :=
  map (fun i => n + Z.of_nat i) (seq 0 c).

(** How often the id [k] occurs among the blobs. *)
Definition occurrences (k : Z) (blobs : list DetectedBlob) : nat :=
  count_occ Z.eq_dec (map id blobs) k.

(** The number of blobs the candidate loop has created so far. *)
Definition created (this : CVProcessor) (st : Tracking) : nat :=
  Z.to_nat (nextBlobId (self st) - nextBlobId this).

(** The keys of a [Map], in iteration order, go up. *)
Definition ascending (ks : list Z) : Prop := StronglySorted Z.lt ks.

(** The five fields a returned blob takes from its candidate. *)
Definition detection (b : DetectedBlob) : Candidate :=
  {| cand_x := x b; cand_y := y b; cand_w := w b; cand_h := h b;
     cand_area := area b |}.

Lemma leb_beaten (a b c : num) :
  (a <? b)%js = true -> (c <? b)%js = false -> (c <=? a)%js = false.
Proof.
  intros H1 H2.
  destruct a as [| | |p], b as [| | |q], c as [| | |r];
    try (simpl in *; first [reflexivity | discriminate]).
  apply JsNumFacts.ltb_Fin in H1.
  destruct (Fin r <=? Fin p)%js eqn:E; trivial.
  apply JsNumFacts.leb_Fin in E.
  assert (H : (Fin r <? Fin q)%js = true) by (apply JsNumFacts.ltb_Fin; lra).
  congruence.
Qed.

Lemma In_idsFrom k n c : In k (idsFrom n c) <-> n <= k < n + Z.of_nat c.
Proof.
  unfold idsFrom. rewrite in_map_iff. split.
  - intros (i & <- & Hi). apply in_seq in Hi. lia.
  - intros H. exists (Z.to_nat (k - n)). split; [lia|]. apply in_seq. lia.
Qed.

Lemma idsFrom_S n c : idsFrom n (S c) = idsFrom n c ++ [n + Z.of_nat c].
Proof.
  unfold idsFrom. now rewrite seq_S, map_app.
Qed.

Lemma ascending_app l1 l2 :
  ascending l1 -> ascending l2 ->
  (forall a b, In a l1 -> In b l2 -> a < b) ->
  ascending (l1 ++ l2).
Proof.
  unfold ascending. induction l1 as [|a l1 IH]; intros H1 H2 H; simpl; trivial.
  apply StronglySorted_inv in H1. destruct H1 as [H1 Ha].
  constructor.
  - apply IH; trivial. intros; apply H; simpl; auto.
  - apply Forall_app. split; trivial.
    apply Forall_forall. intros b Hb. apply H; simpl; auto.
Qed.

Lemma ascending_idsFrom n c : ascending (idsFrom n c).
Proof.
  induction c as [|c IH]; [constructor|].
  rewrite idsFrom_S. apply ascending_app; trivial.
  - repeat constructor.
  - intros a b Ha [<-|[]]. apply In_idsFrom in Ha. lia.
Qed.

Lemma ascending_after l1 k l2 :
  ascending (l1 ++ k :: l2) -> forall k', In k' l2 -> k < k'.
Proof.
  unfold ascending. induction l1 as [|a l1 IH]; simpl; intros H k' Hk'.
  - apply StronglySorted_inv in H. destruct H as [_ H].
    rewrite Forall_forall in H. auto.
  - apply StronglySorted_inv in H. destruct H as [H _]. eauto.
Qed.

Lemma ascending_NoDup l : ascending l -> NoDup l.
Proof.
  unfold ascending. induction 1 as [|a l Hl IH Ha]; constructor; trivial.
  intros Hin. rewrite Forall_forall in Ha. specialize (Ha _ Hin). lia.
Qed.

Lemma ascending_filter {V} (f : Z * V -> bool) (m : JsMap.t V) :
  ascending (JsMap.keys m) -> ascending (JsMap.keys (filter f m)).
Proof.
  unfold ascending, JsMap.keys.
  induction m as [|[k v] m IH]; simpl; intros H; trivial.
  apply StronglySorted_inv in H. destruct H as [H Hk].
  destruct (f (k, v)); simpl; auto.
  constructor; auto.
  rewrite Forall_forall in *. intros k' Hk'. apply Hk.
  apply in_map_iff in Hk'. destruct Hk' as ([k1 v1] & <- & Hin).
  apply filter_In in Hin. apply in_map_iff. exists (k1, v1). tauto.
Qed.

Section TrackerIds.

Variable hypot_fin : Q -> Q -> Q.

Import JsNumFacts JsMapFacts JsSetFacts.

(** The first entry, in iteration order, among those at the least
    distance wins the inner loop: every unassigned entry before it is
    strictly farther, or has no distance at all. *)
Lemma fold_closer_first assigned c l : forall k0 d0 k d,
  fold_left (closer hypot_fin assigned c) l (k0, d0) = (k, d) ->
  (k, d) = (k0, d0) \/
  exists l1 b l2,
    l = l1 ++ (k, b) :: l2 /\ (d <? d0)%js = true /\
    d = distance hypot_fin c b /\
    forall k' b', In (k', b') l1 -> JsSet.has k' assigned = false ->
                  (distance hypot_fin c b' <=? d)%js = false.
Proof.
  induction l as [|[k1 b1] l IH]; intros k0 d0 k d Hf; simpl in Hf.
  - left. congruence.
  - destruct (JsSet.has k1 assigned) eqn:Ha.
    + destruct (IH _ _ _ _ Hf) as [H|(l1 & b & l2 & -> & Hlt & Hd & Hl1)];
        [now left|].
      right. exists ((k1, b1) :: l1), b, l2. repeat split; trivial.
      intros k' b' [[= <- <-]|Hin] Hu; [congruence | eauto].
    + destruct (distance hypot_fin c b1 <? d0)%js eqn:Hlt1.
      * destruct (IH _ _ _ _ Hf)
          as [[= -> ->]|(l1 & b & l2 & -> & Hlt & Hd & Hl1)].
        -- right. exists [], b1, l. repeat split; trivial. intros ? ? [].
        -- right. exists ((k1, b1) :: l1), b, l2. repeat split; trivial.
           ++ eapply ltb_trans; eauto.
           ++ intros k' b' [[= <- <-]|Hin] Hu; [|eauto].
              eapply leb_beaten; [eassumption | apply ltb_irrefl].
      * destruct (IH _ _ _ _ Hf) as [H|(l1 & b & l2 & -> & Hlt & Hd & Hl1)];
          [now left|].
        right. exists ((k1, b1) :: l1), b, l2. repeat split; trivial.
        intros k' b' [[= <- <-]|Hin] Hu; [|eauto].
        eapply leb_beaten; eassumption.
Qed.

Lemma findClosest_lowest radius st c k d :
  ascending (JsMap.keys (activeBlobs (self st))) ->
  findClosest hypot_fin radius st c = (k, d) -> k <> -1 ->
  forall k' b', unassigned st k' b' -> k' < k ->
                (distance hypot_fin c b' <=? d)%js = false.
Proof.
  intros Hs Hf Hk k' b' [Hin Hu] Hlt. unfold findClosest in Hf.
  apply fold_closer_first in Hf.
  destruct Hf as [[= -> ->]|(l1 & b & l2 & Hl & _ & _ & Hl1)]; [congruence|].
  rewrite Hl in Hin, Hs. apply in_app_or in Hin.
  destruct Hin as [Hin|[[= -> ->]|Hin]]; [eauto | lia |].
  unfold JsMap.keys in Hs. rewrite map_app in Hs. simpl in Hs.
  assert (k < k'); [|lia].
  apply (ascending_after _ _ _ Hs). apply in_map_iff. now exists (k', b').
Qed.

(** What the candidate loop keeps, beside [frame_inv]: the keys are those
    of the call's start followed by the ids created since, an assigned id
    is a key, and the id [k] has been returned once if it was created in
    this call, and once more if it is assigned. *)
Record pass_inv (this : CVProcessor) (st : Tracking) : Prop := {
  pi_wf : wf (self st);
  pi_next : nextBlobId this <= nextBlobId (self st);
  pi_keys : JsMap.keys (activeBlobs (self st)) =
            JsMap.keys (activeBlobs this) ++
            idsFrom (nextBlobId this) (created this st);
  pi_assigned : forall k, JsSet.has k (assignedIds st) = true ->
                          In k (JsMap.keys (activeBlobs (self st)));
  pi_created : (created this st <= length (trackedBlobs st))%nat;
  pi_count : forall k,
      occurrences k (trackedBlobs st) =
      Nat.add
        (Nat.b2n ((nextBlobId this <=? k) && (k <? nextBlobId (self st))))
        (Nat.b2n (JsSet.has k (assignedIds st)))
}.

Lemma pass_inv_init this :
  wf this ->
  pass_inv this {| self := this; assignedIds := JsSet.empty; trackedBlobs := [] |}.
Proof.
  intros Hwf. constructor; simpl; trivial; try lia; try discriminate.
  - unfold created. simpl. rewrite Z.sub_diag. simpl. now rewrite app_nil_r.
  - unfold created. simpl. lia.
  - intros k. unfold occurrences. simpl.
    destruct (nextBlobId this <=? k) eqn:E1, (k <? nextBlobId this) eqn:E2;
      simpl; trivial; lia.
Qed.

Lemma occurrences_snoc k tracked u :
  occurrences k (tracked ++ [u]) =
  Nat.add (occurrences k tracked) (Nat.b2n (id u =? k)).
Proof.
  unfold occurrences. rewrite map_app, count_occ_app. simpl.
  destruct (Z.eq_dec (id u) k) as [E|E], (id u =? k) eqn:E'; trivial; lia.
Qed.

Lemma pass_inv_step settings now radius this st c st' :
  pass_inv this st ->
  tracked_as hypot_fin settings now radius st c st' ->
  pass_inv this st'.
Proof.
  intros [Hwf Hnext Hkeys Hass Hcr Hcount] Ht.
  assert (Hwf' : wf (self st')) by (eapply tracked_as_wf; eauto).
  destruct Ht as [existing [Hin Hun] Hnear Hmin | Hfar].
  - assert (Hkey : In (id existing) (JsMap.keys (activeBlobs (self st)))).
    { apply in_map_iff. now exists (id existing, existing). }
    constructor; simpl; trivial.
    + now rewrite keys_set_in.
    + intros k. rewrite has_add, keys_set_in by trivial.
      destruct (JsSet.has k (assignedIds st)) eqn:E; simpl; auto.
      intros Hk. apply Z.eqb_eq in Hk. now subst.
    + rewrite length_app. simpl. unfold created in *. simpl. lia.
    + intros k. rewrite occurrences_snoc, Hcount, has_add. simpl.
      destruct (id existing =? k) eqn:E.
      * apply Z.eqb_eq in E. subst k. rewrite Hun, Z.eqb_refl. simpl. lia.
      * replace (k =? id existing) with false
          by (symmetry; rewrite Z.eqb_sym; exact E).
        rewrite orb_false_r. simpl. lia.
  - assert (Hfresh : ~ In (nextBlobId (self st))
                       (JsMap.keys (activeBlobs (self st)))).
    { intros Hk. apply (wf_keys_below _ _ Hwf) in Hk. lia. }
    assert (Hc : created this (spawnBlob now st c) = S (created this st)).
    { unfold created. simpl. lia. }
    constructor; trivial.
    + simpl. lia.
    + rewrite Hc, idsFrom_S. simpl.
      rewrite set_notin by trivial.
      unfold JsMap.keys in *. rewrite map_app, Hkeys, <- app_assoc. simpl.
      do 3 f_equal. unfold created. lia.
    + simpl. intros k Hk. apply Hass in Hk.
      rewrite set_notin by trivial.
      unfold JsMap.keys in *. rewrite map_app. apply in_or_app. now left.
    + rewrite Hc. simpl. rewrite length_app. simpl. lia.
    + intros k. simpl. rewrite occurrences_snoc, Hcount. simpl.
      destruct (nextBlobId (self st) =? k) eqn:E.
      * apply Z.eqb_eq in E. subst k.
        destruct (JsSet.has (nextBlobId (self st)) (assignedIds st)) eqn:Ea;
          [apply Hass in Ea; contradiction|].
        replace (nextBlobId this <=? nextBlobId (self st)) with true
          by (symmetry; apply Z.leb_le; lia).
        rewrite Z.ltb_irrefl.
        replace (nextBlobId (self st) <? nextBlobId (self st) + 1) with true
          by (symmetry; apply Z.ltb_lt; lia).
        simpl. lia.
      * apply Z.eqb_neq in E.
        replace (k <? nextBlobId (self st) + 1) with (k <? nextBlobId (self st));
          [unfold Nat.b2n at 3; lia|].
        destruct (k <? nextBlobId (self st)) eqn:E1; symmetry;
          [apply Z.ltb_lt; apply Z.ltb_lt in E1
          |apply Z.ltb_ge; apply Z.ltb_ge in E1]; lia.
Qed.

(** The candidate loop does not throw, and keeps both invariants and the
    candidates' five fields. *)
Lemma matchingPass_ids settings scaleFactor now cands this :
  wf this ->
  exists st,
    matchingPass hypot_fin settings scaleFactor now cands this = Ok st /\
    frame_inv now this cands st /\ pass_inv this st /\
    map detection (trackedBlobs st) = cands.
Proof.
  intros Hwf. unfold matchingPass.
  destruct (forEach_ind
              (trackBlob hypot_fin settings now (maxDist scaleFactor))
              (fun done st => frame_inv now this done st /\ pass_inv this st /\
                              map detection (trackedBlobs st) = done))
    with (xs := cands) (done := @nil Candidate)
         (s := {| self := this; assignedIds := JsSet.empty; trackedBlobs := [] |})
    as (st & Hst & HP).
  - intros done st c (Hf & Hp & Hd).
    destruct (trackBlob_spec hypot_fin settings now (maxDist scaleFactor) st c
                (fi_wf _ _ _ _ Hf)) as (st' & Hst' & Ht).
    exists st'. split; trivial. split; [|split].
    + eapply frame_inv_step; eauto.
    + eapply pass_inv_step; eauto.
    + destruct Ht; simpl; rewrite map_app, Hd; simpl; now destruct c.
  - split; [now apply frame_inv_init | split; [now apply pass_inv_init | trivial]].
  - exists st. auto.
Qed.

Lemma pass_ascending this st :
  wf this -> ascending (JsMap.keys (activeBlobs this)) -> pass_inv this st ->
  ascending (JsMap.keys (activeBlobs (self st))).
Proof.
  intros Hwf Hs Hp. rewrite (pi_keys _ _ Hp).
  apply ascending_app; trivial; [apply ascending_idsFrom|].
  intros a b Ha Hb. apply (wf_keys_below _ _ Hwf) in Ha.
  apply In_idsFrom in Hb. lia.
Qed.

(** One call on the contours of a frame, with what the candidate loop
    keeps. *)
Lemma processFrame_pass cs now settings scaleFactor this :
  wf this ->
  exists st,
    matchingPass hypot_fin settings scaleFactor now
      (extract settings scaleFactor cs) this = Ok st /\
    frame_inv now this (extract settings scaleFactor cs) st /\
    pass_inv this st /\
    map detection (trackedBlobs st) = extract settings scaleFactor cs /\
    processFrame hypot_fin (Contours cs) now settings scaleFactor this =
    Ok ({| nextBlobId := nextBlobId (self st);
           activeBlobs :=
             filter (fun e => negb (expired now (snd e))) (activeBlobs (self st)) |},
        trackedBlobs st).
Proof.
  intros Hwf.
  destruct (matchingPass_ids settings scaleFactor now
              (extract settings scaleFactor cs) this Hwf)
    as (st & Hst & Hf & Hp & Hd).
  destruct (processFrame_contours hypot_fin cs now settings scaleFactor this Hwf)
    as (st2 & Hst2 & _ & Hr & _).
  assert (st2 = st) by congruence. subst st2.
  exists st. auto.
Qed.

Lemma processFrame_ascending frame now settings scaleFactor this this' tracked :
  wf this -> ascending (JsMap.keys (activeBlobs this)) ->
  processFrame hypot_fin frame now settings scaleFactor this = Ok (this', tracked) ->
  ascending (JsMap.keys (activeBlobs this')).
Proof.
  intros Hwf Hs H. destruct frame as [| | |cs]; try (injection H as <- _; exact Hs).
  destruct (processFrame_pass cs now settings scaleFactor this Hwf)
    as (st & _ & _ & Hp & _ & Hr).
  rewrite Hr in H. injection H as <- _. simpl.
  apply ascending_filter. now apply pass_ascending with this.
Qed.

Lemma runs_ascending allowed p results p' :
  wf p -> ascending (JsMap.keys (activeBlobs p)) ->
  runs hypot_fin allowed p results p' ->
  ascending (JsMap.keys (activeBlobs p')).
Proof.
  intros Hwf Hs Hr. induction Hr as [p | p frame now settings scaleFactor p1 tracked
                                       results p' _ Hp _ IH | p p1 results p' Hrd _ IH];
    trivial.
  - apply IH.
    + destruct (processFrame_ok hypot_fin frame now settings scaleFactor p Hwf)
        as (q & t & Hq & Hwfq). congruence.
    + eapply processFrame_ascending; eauto.
  - apply IH; [eapply rendered_wf; eauto|].
    now rewrite (rendered_keys _ _ Hrd).
Qed.

Lemma reachable_ascending p :
  reachable hypot_fin p -> ascending (JsMap.keys (activeBlobs p)).
Proof.
  intros [results Hr].
  apply (runs_ascending _ _ _ _ wf_new) in Hr; trivial. constructor.
Qed.

(** X1.  In every state the tracker can reach, the active blobs are held
    in ascending order of their ids, which is the order the closest-blob
    loop and the prune visit them in; the ids are distinct, each blob is
    stored under its own id, and every id in use lies between [1] and
    [nextBlobId - 1]. *)
Theorem active_blobs_are_in_ascending_id_order (p : CVProcessor) :
  reachable hypot_fin p ->
  ascending (JsMap.keys (activeBlobs p)) /\
  NoDup (JsMap.keys (activeBlobs p)) /\
  1 <= nextBlobId p /\
  (forall k b, JsMap.get k (activeBlobs p) = Some b ->
     id b = k /\ 1 <= k < nextBlobId p) /\
  (forall i j ki kj, (i < j)%nat ->
     nth_error (JsMap.keys (activeBlobs p)) i = Some ki ->
     nth_error (JsMap.keys (activeBlobs p)) j = Some kj -> ki < kj).
Proof.
  intros Hr. pose proof (reachable_ascending p Hr) as Hs.
  destruct (reachable_wf hypot_fin p Hr) as (Hnd & Hn & Hget).
  repeat split; trivial; try (now apply (Hget k b)).
  revert Hs. generalize (JsMap.keys (activeBlobs p)). unfold ascending.
  intros l Hl. induction Hl as [|a l Hl IH Ha]; intros i j ki kj Hij Hi Hj.
  - destruct i; discriminate.
  - destruct j as [|j]; [lia|]. simpl in Hj. destruct i as [|i]; simpl in Hi.
    + injection Hi as <-. rewrite Forall_forall in Ha. apply Ha.
      eapply nth_error_In; eauto.
    + apply (IH i j); trivial. lia.
Qed.

(** X2.  An id that has been handed out and is no longer active is never
    used again: in every later state it is still below [nextBlobId] and not
    active, and no later call returns a blob with it. *)
Theorem retired_id_is_never_used_again
    (p p' : CVProcessor) (results : list (list DetectedBlob)) (k : Z) :
  reachable hypot_fin p ->
  k < nextBlobId p -> ~ In k (JsMap.keys (activeBlobs p)) ->
  runs hypot_fin (fun _ => True) p results p' ->
  k < nextBlobId p' /\ ~ In k (JsMap.keys (activeBlobs p')) /\
  JsMap.get k (activeBlobs p') = None /\
  forall tracked b, In tracked results -> In b tracked -> id b <> k.
Proof.
  intros Hr Hk Hn Hruns.
  destruct (retired_forever hypot_fin _ p results p' k
              (reachable_wf hypot_fin p Hr) (conj Hk Hn) Hruns)
    as ([Hk' Hn'] & Hres).
  repeat split; trivial. now apply get_None.
Qed.

(** X3.  The ids a call creates are [nextBlobId], [nextBlobId + 1], ...
    without a gap: the counter advances by at most one per returned blob,
    every id it passes over is the id of a returned blob and is active
    after the call, and no returned id reaches the new counter. *)
Theorem new_ids_are_consecutive_and_returned
    (frame : Frame) (now : Z) (settings : TrackerSettings) (scaleFactor : num)
    (this : CVProcessor) :
  reachable hypot_fin this ->
  exists this' tracked,
    processFrame hypot_fin frame now settings scaleFactor this = Ok (this', tracked) /\
    nextBlobId this <= nextBlobId this'
      <= nextBlobId this + Z.of_nat (length tracked) /\
    (forall k, nextBlobId this <= k < nextBlobId this' ->
       In k (map id tracked) /\ In k (JsMap.keys (activeBlobs this'))) /\
    (forall b, In b tracked -> 1 <= id b < nextBlobId this').
Proof.
  intros Hr. pose proof (reachable_wf hypot_fin this Hr) as Hwf.
  destruct frame as [| | |cs];
    try (exists this, []; simpl; repeat split; trivial; try lia;
         intros ? []).
  destruct (processFrame_pass cs now settings scaleFactor this Hwf)
    as (st & _ & Hf & Hp & _ & Hres).
  eexists _, _. split; [exact Hres|]. simpl.
  pose proof (pi_next _ _ Hp) as Hnext. pose proof (pi_created _ _ Hp) as Hcr.
  unfold created in Hcr.
  split; [lia|]. split.
  - intros k Hk.
    assert (Hin : In k (map id (trackedBlobs st))).
    { apply (count_occ_In Z.eq_dec). fold (occurrences k (trackedBlobs st)).
      rewrite (pi_count _ _ Hp).
      replace (nextBlobId this <=? k) with true by (symmetry; apply Z.leb_le; lia).
      replace (k <? nextBlobId (self st)) with true
        by (symmetry; apply Z.ltb_lt; lia).
      simpl. lia. }
    split; trivial.
    apply in_map_iff in Hin. destruct Hin as (b & <- & Hb).
    destruct (tracked_entry_kept now this _ st b Hf Hb)
      as (b' & _ & _ & _ & _ & Hget).
    eapply get_keys; eauto.
  - intros b Hb. destruct (fi_ids _ _ _ _ Hf b Hb) as [Hk|Hk]; [|
      destruct Hwf as (_ & ? & _); lia].
    apply (wf_keys_below _ _ Hwf) in Hk. lia.
Qed.

(** X4.  How far the returned ids can repeat: one call returns no id more
    than twice, an id that was in use before the call at most once, and an
    id twice only if the call created it; a call that creates no blob
    returns distinct ids. *)
Theorem an_id_is_returned_at_most_twice
    (frame : Frame) (now : Z) (settings : TrackerSettings) (scaleFactor : num)
    (this : CVProcessor) :
  reachable hypot_fin this ->
  exists this' tracked,
    processFrame hypot_fin frame now settings scaleFactor this = Ok (this', tracked) /\
    (forall k, (occurrences k tracked <= 2)%nat) /\
    (forall k, k < nextBlobId this -> (occurrences k tracked <= 1)%nat) /\
    (forall k, occurrences k tracked = 2%nat ->
               nextBlobId this <= k < nextBlobId this') /\
    (nextBlobId this' = nextBlobId this -> NoDup (map id tracked)).
Proof.
  intros Hr. pose proof (reachable_wf hypot_fin this Hr) as Hwf.
  destruct frame as [| | |cs];
    try (exists this, []; unfold occurrences; simpl;
         split; [reflexivity|]; split; [intros; lia|]; split; [intros; lia|];
         split; [intros; lia | constructor]).
  destruct (processFrame_pass cs now settings scaleFactor this Hwf)
    as (st & _ & _ & Hp & _ & Hres).
  eexists _, _. split; [exact Hres|]. simpl.
  pose proof (pi_count _ _ Hp) as Hc.
  split; [|split; [|split]].
  - intros k. rewrite Hc.
    destruct ((nextBlobId this <=? k) && (k <? nextBlobId (self st)))%bool,
             (JsSet.has k (assignedIds st)); simpl; lia.
  - intros k Hk. rewrite Hc.
    replace (nextBlobId this <=? k) with false by (symmetry; apply Z.leb_gt; lia).
    simpl. destruct (JsSet.has k (assignedIds st)); simpl; lia.
  - intros k H. rewrite Hc in H.
    destruct (nextBlobId this <=? k) eqn:E1;
      [|simpl in H; destruct (JsSet.has k (assignedIds st)); discriminate].
    destruct (k <? nextBlobId (self st)) eqn:E2;
      [|simpl in H; destruct (JsSet.has k (assignedIds st)); discriminate].
    apply Z.leb_le in E1. apply Z.ltb_lt in E2. lia.
  - intros Hsame. apply (NoDup_count_occ Z.eq_dec). intros k.
    fold (occurrences k (trackedBlobs st)). rewrite Hc.
    destruct (nextBlobId this <=? k) eqn:E1, (k <? nextBlobId (self st)) eqn:E2;
      simpl; destruct (JsSet.has k (assignedIds st)); simpl; lia.
Qed.

(** X5.  Ties go to the oldest blob: when the closest-blob loop picks the
    id [k], every unassigned active blob with a lower id is strictly
    farther from the candidate (or has no distance to it), so that among
    the unassigned blobs at the least distance the one with the lowest id
    is matched. *)
Theorem ties_go_to_the_lowest_id
    (settings : TrackerSettings) (scaleFactor : num) (now : Z)
    (this : CVProcessor) (cands : list Candidate) (c : Candidate) :
  reachable hypot_fin this ->
  exists st,
    matchingPass hypot_fin settings scaleFactor now cands this = Ok st /\
    forall k d,
      findClosest hypot_fin (maxDist scaleFactor) st c = (k, d) -> k <> -1 ->
      (exists b, unassigned st k b /\ d = distance hypot_fin c b /\
                 (d <? maxDist scaleFactor)%js = true) /\
      (forall k' b', unassigned st k' b' ->
         (distance hypot_fin c b' <? d)%js = false) /\
      (forall k' b', unassigned st k' b' -> k' < k ->
         (distance hypot_fin c b' <=? d)%js = false).
Proof.
  intros Hr. pose proof (reachable_wf hypot_fin this Hr) as Hwf.
  destruct (matchingPass_ids settings scaleFactor now cands this Hwf)
    as (st & Hst & Hf & Hp & _).
  exists st. split; trivial. intros k d Hc Hk.
  destruct (findClosest_spec hypot_fin _ st c k d (pi_wf _ _ Hp) Hc)
    as [(-> & _)|(_ & b & Hb & Hd & Hlt & Hmin)]; [congruence|].
  split; [exists b; auto|]. split; trivial.
  eapply findClosest_lowest; eauto.
  apply pass_ascending with this; trivial. now apply reachable_ascending.
Qed.

(** X6.  A call returns one blob for each contour whose scaled area
    exceeds [minArea], in the order of the contours; the blob has the
    centre and the size of the contour's bounding box and the contour's
    area, scaled back to the space of the original video, and is stamped
    with the time of the call.  The scaled values are the doubles the
    source computes, every operation rounded. *)
Theorem one_blob_per_admitted_contour
    (cs : list Contour) (now : Z) (settings : TrackerSettings)
    (scaleFactor : num) (this : CVProcessor) :
  reachable hypot_fin this ->
  exists this' tracked,
    processFrame hypot_fin (Contours cs) now settings scaleFactor this =
    Ok (this', tracked) /\
    map (fun b => (x b, y b, (w b, h b), area b, lastSeen b)) tracked =
    map (fun contour =>
           let rect := boundingRect contour in
           (((rect_x rect + rect_width rect / 2) * scaleFactor)%double,
            ((rect_y rect + rect_height rect / 2) * scaleFactor)%double,
            ((rect_width rect * scaleFactor)%double,
             (rect_height rect * scaleFactor)%double),
            (contourArea contour * (scaleFactor * scaleFactor))%double,
            now))
        (filter (fun contour =>
                   ((contourArea contour * (scaleFactor * scaleFactor))%double
                    >? minArea settings)%js) cs).
Proof.
  intros Hr. pose proof (reachable_wf hypot_fin this Hr) as Hwf.
  destruct (processFrame_pass cs now settings scaleFactor this Hwf)
    as (st & _ & Hf & _ & Hd & Hres).
  eexists _, _. split; [exact Hres|].
  rewrite extract_filter in Hd.
  pose proof (fi_seen _ _ _ _ Hf) as Hseen.
  change (filter (fun contour =>
                    ((contourArea contour * (scaleFactor * scaleFactor))%double
                     >? minArea settings)%js) cs)
    with (filter (admitted settings scaleFactor) cs).
  revert Hd Hseen. generalize (filter (admitted settings scaleFactor) cs).
  generalize (trackedBlobs st).
  induction l as [|b l IH]; intros [|contour l'] Hd Hseen; try discriminate;
    trivial.
  simpl in Hd. injection Hd as Hx Hy Hw Hh Ha Hl. simpl.
  rewrite (IH l' Hl) by (intros; apply Hseen; now right).
  rewrite (Hseen b) by now left.
  rewrite Hx, Hy, Hw, Hh, Ha. reflexivity.
Qed.


End TrackerIds.

(** ** The theorems on ids at concrete inputs *)

(** The tracker after a first frame, at time 0, with two regions far from
    each other: the blobs 1 and 2. *)
Definition twoRegions : CVProcessor :=
  Eval vm_compute in
    match
      processFrame hypot_ref
        (Contours [contourAt 10 10 150; contourAt 300 300 150]) 0
        initialSettings 1 newCVProcessor
    with
    | Ok (this, _) => this
    | TypeError => newCVProcessor
    end.

Lemma twoRegions_reachable : reachable hypot_ref twoRegions.
Proof.
  eexists.
  eapply (runs_frame hypot_ref (fun _ => True) newCVProcessor
            (Contours [contourAt 10 10 150; contourAt 300 300 150]) 0
            initialSettings 1 twoRegions);
    [exact I | vm_compute; reflexivity | apply runs_done].
Defined.

(** A second frame, a second later, in which only the second region is
    found: the blob 1 has timed out, and the id 1 is retired. *)
Definition oneRetired : CVProcessor :=
  Eval vm_compute in
    match
      processFrame hypot_ref (Contours [contourAt 300 300 150]) 1000
        initialSettings 1 twoRegions
    with
    | Ok (this, _) => this
    | TypeError => newCVProcessor
    end.

Lemma oneRetired_reachable : reachable hypot_ref oneRetired.
Proof.
  eexists.
  eapply (runs_frame hypot_ref (fun _ => True) newCVProcessor
            (Contours [contourAt 10 10 150; contourAt 300 300 150]) 0
            initialSettings 1 twoRegions);
    [exact I | vm_compute; reflexivity |].
  eapply (runs_frame hypot_ref (fun _ => True) twoRegions
            (Contours [contourAt 300 300 150]) 1000
            initialSettings 1 oneRetired);
    [exact I | vm_compute; reflexivity | apply runs_done].
Defined.

Lemma active_blobs_are_in_ascending_id_order_witness :
  reachable hypot_ref twoRegions /\
  ascending (JsMap.keys (activeBlobs twoRegions)) /\
  NoDup (JsMap.keys (activeBlobs twoRegions)).
Proof.
  split; [exact twoRegions_reachable|].
  destruct (active_blobs_are_in_ascending_id_order hypot_ref twoRegions
              twoRegions_reachable) as (Hs & Hnd & _).
  split; assumption.
Defined.

(** The region at (10,10) comes back after the blob 1 has timed out: it
    gets the id 3, not the id 1. *)
Lemma retired_id_is_never_used_again_witness :
  (reachable hypot_ref oneRetired /\
   1 < nextBlobId oneRetired /\
   ~ In 1 (JsMap.keys (activeBlobs oneRetired))) /\
  exists results this',
    processFrames hypot_ref
      [ {| callFrame := Contours [contourAt 10 10 150]; callNow := 1100;
           callSettings := initialSettings; callScaleFactor := 1 |} ]
      oneRetired = Ok (results, this') /\
    JsMap.get 1 (activeBlobs this') = None /\
    forall tracked b, In tracked results -> In b tracked -> id b <> 1.
Proof.
  assert (Hk : 1 < nextBlobId oneRetired) by (simpl; lia).
  assert (Hn : ~ In 1 (JsMap.keys (activeBlobs oneRetired))).
  { simpl. intros [H|[]]. discriminate. }
  split; [split; [exact oneRetired_reachable | split; assumption]|].
  destruct (processFrames hypot_ref
              [ {| callFrame := Contours [contourAt 10 10 150]; callNow := 1100;
                   callSettings := initialSettings; callScaleFactor := 1 |} ]
              oneRetired) as [[results this']|] eqn:E;
    [|vm_compute in E; discriminate].
  exists results, this'. split; [reflexivity|].
  assert (Hruns : runs hypot_ref (fun _ => True) oneRetired results this').
  { eapply processFrames_runs; [|exact E]. repeat constructor. }
  destruct (retired_id_is_never_used_again hypot_ref oneRetired this' results 1
              oneRetired_reachable Hk Hn Hruns) as (_ & _ & Hget & Hres).
  split; assumption.
Defined.

(** A frame with a region near the blob 1 and a new region far from both
    blobs: the new region gets the id 3. *)
Lemma new_ids_are_consecutive_and_returned_witness :
  reachable hypot_ref twoRegions /\
  exists this' tracked,
    processFrame hypot_ref
      (Contours [contourAt 12 11 150; contourAt 600 10 150]) 40
      initialSettings 1 twoRegions = Ok (this', tracked) /\
    nextBlobId twoRegions <= nextBlobId this'
      <= nextBlobId twoRegions + Z.of_nat (length tracked) /\
    (forall k, nextBlobId twoRegions <= k < nextBlobId this' ->
       In k (map id tracked) /\ In k (JsMap.keys (activeBlobs this'))) /\
    (forall b, In b tracked -> 1 <= id b < nextBlobId this').
Proof.
  split; [exact twoRegions_reachable|].
  exact (new_ids_are_consecutive_and_returned hypot_ref
           (Contours [contourAt 12 11 150; contourAt 600 10 150]) 40
           initialSettings 1 twoRegions twoRegions_reachable).
Defined.

(** Two regions near the blob 1 and none new: the ids returned are
    distinct. *)
Lemma an_id_is_returned_at_most_twice_witness :
  reachable hypot_ref twoRegions /\
  exists this' tracked,
    processFrame hypot_ref
      (Contours [contourAt 12 11 150; contourAt 290 300 150]) 40
      initialSettings 1 twoRegions = Ok (this', tracked) /\
    (forall k, (occurrences k tracked <= 2)%nat) /\
    (forall k, k < nextBlobId twoRegions -> (occurrences k tracked <= 1)%nat) /\
    (forall k, occurrences k tracked = 2%nat ->
               nextBlobId twoRegions <= k < nextBlobId this') /\
    (nextBlobId this' = nextBlobId twoRegions -> NoDup (map id tracked)).
Proof.
  split; [exact twoRegions_reachable|].
  exact (an_id_is_returned_at_most_twice hypot_ref
           (Contours [contourAt 12 11 150; contourAt 290 300 150]) 40
           initialSettings 1 twoRegions twoRegions_reachable).
Defined.

(** A candidate at (155,155) is as far from the blob 1 at (10,10) as from
    the blob 2 at (300,300); with the radius of the scale factor 3 both are
    within reach, and the blob 1 is picked. *)
Lemma ties_go_to_the_lowest_id_witness :
  reachable hypot_ref twoRegions /\
  fst (findClosest hypot_ref (maxDist 3)
         {| self := twoRegions; assignedIds := JsSet.empty; trackedBlobs := [] |}
         (candidateAt 155 155)) = 1 /\
  exists st,
    matchingPass hypot_ref initialSettings 3 40 [] twoRegions = Ok st /\
    forall k d,
      findClosest hypot_ref (maxDist 3) st (candidateAt 155 155) = (k, d) ->
      k <> -1 ->
      forall k' b', unassigned st k' b' -> k' < k ->
        (distance hypot_ref (candidateAt 155 155) b' <=? d)%js = false.
Proof.
  split; [exact twoRegions_reachable|]. split; [vm_compute; reflexivity|].
  destruct (ties_go_to_the_lowest_id hypot_ref initialSettings 3 40 twoRegions
              [] (candidateAt 155 155) twoRegions_reachable) as (st & Hst & H).
  exists st. split; [exact Hst|].
  intros k d Hc Hk. exact (proj2 (proj2 (H k d Hc Hk))).
Defined.

(** The preview of a video 864 pixels wide, whose scale is the double next
    to 1.8, with [minArea = 810]: a region of area 250 is left out, its
    scaled area being the double 810, and a region of area 251 is
    returned. *)
Lemma one_blob_per_admitted_contour_witness :
  reachable hypot_ref twoRegions /\
  exists this' tracked,
    processFrame hypot_ref
      (Contours [contourAt 100 100 250; contourAt 40 40 251]) 40
      (withMinArea 810) (previewScale 864 480) twoRegions = Ok (this', tracked) /\
    map (fun b => (x b, y b, (w b, h b), area b, lastSeen b)) tracked =
    [ (((30 + 20 / 2) * previewScale 864 480)%double,
       ((30 + 20 / 2) * previewScale 864 480)%double,
       ((20 * previewScale 864 480)%double, (20 * previewScale 864 480)%double),
       (251 * (previewScale 864 480 * previewScale 864 480))%double, 40) ].
Proof.
  split; [exact twoRegions_reachable|].
  destruct (one_blob_per_admitted_contour hypot_ref
              [contourAt 100 100 250; contourAt 40 40 251] 40
              (withMinArea 810) (previewScale 864 480) twoRegions
              twoRegions_reachable)
    as (this' & tracked & Heq & Hmap).
  exists this', tracked. split; [exact Heq|]. rewrite Hmap. reflexivity.
Defined.

(* ================================================================== *)
(** * The export: how it ends, and what it hands over *)
(* ================================================================== *)

(** The calls of [onRenderComplete] among the events. *)
Definition completions (es : list Event) : list (string * string) :=
  flat_map (fun e => match e with
                     | RenderComplete mimeType extension => [(mimeType, extension)]
                     | _ => []
                     end) es.

(** The calls of [recorder.stop()] among the events. *)
Definition recorderStops (es : list Event) : nat :=
  length (filter (fun e => match e with RecorderStop => true | _ => false end) es).

(** The calls of [track.requestFrame()] among the events. *)
Definition framesRequested (es : list Event) : nat :=
  length (filter (fun e => match e with RequestFrame => true | _ => false end) es).

(** [ceil(30 * q)]: the turns after which a sum of [1 / 30] has reached
    [q], could it be added up exactly. *)
Definition turnsFor (q : Q) : nat := Z.to_nat (Qceiling (inject_Z 30 * q)).

(** The longest duration the bounds on the turns are shown for: [2^20]
    seconds, twelve days. *)
Definition longestDuration : Q := inject_Z (2 ^ 20).

Section TurnsOfTheLoop.

Import JsNumFacts DoubleFacts ExportFacts.
Local Open Scope Q_scope.

(** ** The sum of the frame durations against [n / 30] *)

(** What one rounded addition and the rounding of [1 / 30] can be off by,
    below [longestDuration]: a little more than [2^-33]. *)
Definition slack : Q := (inject_Z (2 ^ 20 + 2) * 2 ^ (-53))%Q.

Lemma frameQ_near : (1 # 30) - 2 ^ (-53) <= frameQ <= (1 # 30) + 2 ^ (-53).
Proof. split; vm_compute; discriminate. Qed.

(** One turn adds [1 / 30] to [currentTime], up to [slack]. *)
Lemma timeQ_S_near n :
  timeQ n <= longestDuration ->
  timeQ n + (1 # 30) - slack <= timeQ (S n) <= timeQ n + (1 # 30) + slack.
Proof.
  intros Hd. pose proof (timeQ_nonneg n) as H0.
  destruct frameQ_near as [Hf1 Hf2].
  cbn [timeQ].
  destruct (round64_error (timeQ n + frameQ)) as [H1 H2].
  { apply Qle_trans with (1 # 60); [vm_compute; discriminate|].
    change (2 ^ (-53)) with (1 # 9007199254740992) in Hf1. lra. }
  revert H1 H2 Hf1 Hf2 Hd. unfold slack, longestDuration.
  change (2 ^ (-53)) with (1 # 9007199254740992).
  change (inject_Z (2 ^ 20 + 2)) with 1048578.
  change (inject_Z (2 ^ 20)) with 1048576.
  generalize (Double.round64 (timeQ n + frameQ)) frameQ (timeQ n) H0.
  intros r f t Ht H1 H2 Hf1 Hf2 Hd. split; nra.
Qed.

(** After [k] turns that did not take [currentTime] past [longestDuration],
    it is [k / 30] up to [k] times [slack]. *)
Lemma timeQ_near k :
  (forall j, (j < k)%nat -> timeQ j <= longestDuration) ->
  inject_Z (Z.of_nat k) * ((1 # 30) - slack) <= timeQ k
  <= inject_Z (Z.of_nat k) * ((1 # 30) + slack).
Proof.
  induction k as [|k IH]; intros Hd.
  - change (inject_Z (Z.of_nat 0)) with 0. cbn [timeQ]. change (inject_Z 0) with 0.
    split; lra.
  - destruct IH as [IH1 IH2]; [intros j Hj; apply Hd; lia|].
    destruct (timeQ_S_near k (Hd k (Nat.lt_succ_diag_r k))) as [H1 H2].
    rewrite Nat2Z.inj_succ. unfold Z.succ. rewrite inject_Z_plus.
    change (inject_Z 1) with 1.
    revert IH1 IH2 H1 H2.
    generalize (inject_Z (Z.of_nat k)) (timeQ k) (timeQ (S k)) slack.
    intros K t t' e IH1 IH2 H1 H2. split; lra.
Qed.

Lemma turnsFor_spec q :
  inject_Z 30 * q <= inject_Z (Z.of_nat (turnsFor q)) /\
  (0 <= q -> inject_Z (Z.of_nat (turnsFor q)) < inject_Z 30 * q + 1).
Proof.
  unfold turnsFor.
  pose proof (Qle_ceiling (inject_Z 30 * q)) as H1.
  pose proof (Qceiling_lt (inject_Z 30 * q)) as H2.
  unfold Z.sub in H2. rewrite inject_Z_plus in H2.
  change (inject_Z (- (1))) with (- (1)) in H2.
  split.
  - eapply Qle_trans; [exact H1|]. rewrite <- Zle_Qle. lia.
  - intros Hq.
    assert (H0 : (0 <= Qceiling (inject_Z 30 * q))%Z).
    { change 0%Z with (Qceiling 0). apply Qceiling_resp_le.
      change (inject_Z 30) with 30. lra. }
    rewrite Z2Nat.id by exact H0. lra.
Qed.

(** While the loop goes on it has done at most [ceil(30 * q)] turns. *)
Lemma continues_below browser q i :
  q <= longestDuration ->
  continues browser (Fin q) i = true -> (i <= turnsFor q)%nat.
Proof.
  intros Hq H. unfold continues in H. rewrite timeAt_Fin in H.
  apply andb_prop in H. destruct H as [H _]. apply ltb_Fin in H.
  destruct (Nat.le_gt_cases i (turnsFor q)) as [Hle|Hgt]; trivial. exfalso.
  set (N := S (turnsFor q)).
  assert (HN : timeQ N < q).
  { eapply Qle_lt_trans; [apply (timeQ_mono N i); unfold N; lia | exact H]. }
  destruct (timeQ_near N) as [Hlow _].
  { intros j Hj. apply Qle_trans with (timeQ N); [apply timeQ_mono; lia | lra]. }
  destruct (turnsFor_spec q) as [Ht1 Ht2].
  pose proof (timeQ_nonneg N) as H0. assert (Hq0 : 0 <= q) by lra.
  specialize (Ht2 Hq0).
  unfold N in Hlow, HN. rewrite Nat2Z.inj_succ in Hlow. unfold Z.succ in Hlow.
  rewrite inject_Z_plus in Hlow. change (inject_Z 1) with 1 in Hlow.
  revert Hlow HN Ht1 Ht2 Hq Hq0. unfold slack, longestDuration.
  change (2 ^ (-53)) with (1 # 9007199254740992).
  change (inject_Z (2 ^ 20 + 2)) with 1048578.
  change (inject_Z (2 ^ 20)) with 1048576. change (inject_Z 30) with 30.
  generalize (inject_Z (Z.of_nat (turnsFor q))) (timeQ (S (turnsFor q))).
  intros T t Hlow HN Ht1 Ht2 Hq Hq0. nra.
Qed.

(** When the loop stops because [currentTime] has reached the duration, it
    has done at least [ceil(30 * q) - 1] turns. *)
Lemma stops_at_or_after browser q n :
  q <= longestDuration ->
  (forall i, cancelled browser i = false) ->
  (forall i, (i < n)%nat -> continues browser (Fin q) i = true) ->
  continues browser (Fin q) n = false -> (turnsFor q <= n + 1)%nat.
Proof.
  intros Hq Hc Hall H. unfold continues in H. rewrite timeAt_Fin, Hc in H.
  cbn [negb] in H. rewrite andb_true_r in H.
  assert (Hn : q <= timeQ n).
  { destruct (Qlt_le_dec (timeQ n) q) as [Hlt|]; trivial.
    apply ltb_Fin in Hlt. congruence. }
  assert (Hbefore : forall j, (j < n)%nat -> timeQ j < q).
  { intros j Hj. specialize (Hall j Hj). unfold continues in Hall.
    rewrite timeAt_Fin in Hall. apply andb_prop in Hall as [Hall _].
    now apply ltb_Fin. }
  assert (Hle : (n <= S (turnsFor q))%nat).
  { destruct n as [|n]; [lia|].
    pose proof (continues_below browser q n Hq (Hall n (Nat.lt_succ_diag_r n))).
    lia. }
  destruct (timeQ_near n) as [_ Hup].
  { intros j Hj. specialize (Hbefore j Hj). lra. }
  destruct (turnsFor_spec q) as [Ht1 Ht2].
  destruct (Qlt_le_dec q 0) as [Hneg|Hq0].
  { assert (E : (Qceiling (inject_Z 30 * q) <= 0)%Z).
    { change 0%Z with (Qceiling 0). apply Qceiling_resp_le.
      change (inject_Z 30) with 30. lra. }
    unfold turnsFor. lia. }
  specialize (Ht2 Hq0).
  assert (HnT : inject_Z (Z.of_nat n) <= inject_Z (Z.of_nat (turnsFor q)) + 1).
  { rewrite <- (inject_Z_plus _ 1), <- Zle_Qle. lia. }
  assert (Hgoal : inject_Z (Z.of_nat (turnsFor q)) < inject_Z (Z.of_nat n) + 2).
  { revert Hup Hn Ht1 Ht2 Hq Hq0 HnT. unfold slack, longestDuration.
    change (2 ^ (-53)) with (1 # 9007199254740992).
    change (inject_Z (2 ^ 20 + 2)) with 1048578.
    change (inject_Z (2 ^ 20)) with 1048576. change (inject_Z 30) with 30.
    generalize (inject_Z (Z.of_nat (turnsFor q))) (inject_Z (Z.of_nat n)) (timeQ n).
    intros T K t Hup Hn Ht1 Ht2 Hq Hq0 HnT. nra. }
  rewrite <- (inject_Z_plus _ 2), <- Zlt_Qlt in Hgoal. lia.
Qed.

End TurnsOfTheLoop.

Section ExportEnds.

Import JsNumFacts DoubleFacts ExportFacts.

Lemma completions_turns browser duration k :
  completions (turnsEvents browser duration k) = [] /\
  recorderStops (turnsEvents browser duration k) = 0%nat.
Proof.
  unfold turnsEvents, recorderStops.
  induction (seq 0 k) as [|n l [IH1 IH2]]; [split; reflexivity|].
  simpl. destruct (hasRequestFrame browser); simpl; auto.
Qed.

Lemma framesProcessed_run browser duration k tail :
  framesProcessed tail = [] ->
  length (framesProcessed
            (([RecorderStart; Seek 0] ++ turnsEvents browser duration k) ++ tail))
  = k.
Proof.
  intros Ht. unfold framesProcessed in *.
  rewrite !flat_map_app, Ht, app_nil_r. simpl.
  fold (framesProcessed (turnsEvents browser duration k)).
  now rewrite framesProcessed_turns, length_map, length_seq.
Qed.

(** X7.  The export of a video of a finite duration [d], of at most [2^20]
    seconds, comes to its end: the loop is left after at most
    [ceil(30 * d) + 1] turns, cancelled or not, so no more frames than that
    are processed; and an export that is not cancelled processes at least
    [ceil(30 * d) - 1] frames.  [currentTime] being a sum of doubles, the
    number of turns can be one off [ceil(30 * d)] on either side. *)
Theorem export_of_a_finite_duration_ends (browser : Browser) (q : Q) :
  or_else (videoDuration browser) 10 = Fin q ->
  (q <= longestDuration)%Q ->
  (forall fuel, (turnsFor q + 1 <= fuel)%nat ->
     fst (runRender fuel browser) = true) /\
  (forall fuel,
     (length (framesProcessed (snd (runRender fuel browser)))
      <= turnsFor q + 1)%nat) /\
  (hasContext browser = true ->
   (forall n, cancelled browser n = false) ->
   forall fuel, fst (runRender fuel browser) = true ->
     (turnsFor q - 1 <= length (framesProcessed (snd (runRender fuel browser))))%nat).
Proof.
  intros Hd Hlong.
  destruct (hasContext browser) eqn:Hctx.
  - assert (H : forall fuel, exists frames,
               (forall i, (i < frames)%nat -> continues browser (Fin q) i = true) /\
               (continues browser (Fin q) frames = false /\
                fst (runRender fuel browser) = true \/
                (fuel <= turnsFor q)%nat /\ fst (runRender fuel browser) = false) /\
               length (framesProcessed (snd (runRender fuel browser))) = frames /\
               (frames <= turnsFor q + 1)%nat).
    { intros fuel.
      destruct (runRender_spec fuel browser Hctx) as (frames & Hall & Hres).
      rewrite Hd in Hall, Hres. exists frames.
      assert (Hle : (frames <= turnsFor q + 1)%nat).
      { destruct frames as [|n]; [lia|].
        pose proof (continues_below browser q n Hlong
                      (Hall n (Nat.lt_succ_diag_r n))).
        lia. }
      split; [exact Hall|].
      destruct Hres as [(Hc & Hf & ->)|(Hc & Hf & ->)]; simpl.
      - split; [left; auto|]. split; trivial.
        now apply framesProcessed_run.
      - split; [right; split; trivial;
                apply (continues_below browser q frames Hlong) in Hc; lia|].
        split; trivial.
        now rewrite framesProcessed_turns, length_map, length_seq. }
    split; [|split].
    + intros fuel Hfuel.
      destruct (H fuel) as (frames & _ & [(_ & Hf)|(Hlt & _)] & _);
        [assumption | lia].
    + intros fuel. destruct (H fuel) as (frames & _ & _ & -> & Hle). lia.
    + intros _ Hnc fuel Hfin.
      destruct (H fuel) as (frames & Hall & [(Hc & _)|(_ & Hf)] & -> & _);
        [|congruence].
      pose proof (stops_at_or_after browser q frames Hlong Hnc Hall Hc). lia.
  - assert (H : forall fuel, runRender fuel browser = (true, [])).
    { intros fuel. unfold runRender. now rewrite Hctx. }
    split; [|split].
    + intros fuel _. now rewrite H.
    + intros fuel. rewrite H. simpl. lia.
    + discriminate.
Qed.

(** X8.  A video whose duration is reported as [Infinity] is never
    exported: as long as the export is not cancelled the loop goes on, every
    progress report is [0], the recorder is not stopped and
    [onRenderComplete] is not called. *)
Theorem export_of_an_endless_video_never_completes
    (browser : Browser) (fuel : nat) :
  hasContext browser = true ->
  videoDuration browser = PInf ->
  (forall n, (n <= fuel)%nat -> cancelled browser n = false) ->
  fst (runRender fuel browser) = false /\
  length (framesProcessed (snd (runRender fuel browser))) = fuel /\
  progressReports (snd (runRender fuel browser)) = repeat (of_Z 0) fuel /\
  completions (snd (runRender fuel browser)) = [] /\
  recorderStops (snd (runRender fuel browser)) = 0%nat.
Proof.
  intros Hctx Hd Hnc.
  destruct (runRender_spec fuel browser Hctx) as (frames & Hall & Hres).
  rewrite Hd in Hall, Hres. change (or_else PInf 10) with PInf in *.
  assert (Hcont : forall n, (n <= fuel)%nat -> continues browser PInf n = true).
  { intros n Hn. unfold continues. rewrite timeAt_Fin, (Hnc n Hn). reflexivity. }
  destruct Hres as [(Hc & Hf & _)|(_ & -> & ->)];
    [rewrite Hcont in Hc by trivial; discriminate|].
  simpl. split; trivial.
  split; [now rewrite framesProcessed_turns, length_map, length_seq|].
  destruct (completions_turns browser PInf fuel) as [Hc1 Hc2].
  split; [|split; assumption].
  change (progressReports (turnsEvents browser PInf fuel) = repeat (of_Z 0) fuel).
  rewrite progressReports_turns.
  clear. generalize 0%nat at 1. induction fuel as [|fuel IH]; intros s; trivial.
  simpl. rewrite timeAt_Fin, progressAt_PInf. f_equal. apply IH.
Qed.

(** X9.  The format of the export: the extension is [mp4] exactly when the
    browser supports one of the four MP4 types, and the type recorded is
    then the first it supports, in the order of the list; otherwise the
    extension is [webm] and the type is VP9 WebM if supported, plain WebM if
    not.  The extension always agrees with the container named by the type,
    and the type is one the browser supports, unless it is the last resort
    [video/webm]. *)
Theorem export_format_is_the_first_supported (browser : Browser) :
  let mimeType := fst (exportFormat browser) in
  let extension := snd (exportFormat browser) in
  let supported := isTypeSupported browser in
  (extension = "mp4"%string \/ extension = "webm"%string) /\
  (extension = "mp4"%string <->
   exists t, In t mp4Types /\ supported t = true) /\
  (extension = "mp4"%string ->
   exists before after,
     mp4Types = before ++ mimeType :: after /\ supported mimeType = true /\
     forall t, In t before -> supported t = false) /\
  (extension = "webm"%string ->
   mimeType = if supported "video/webm;codecs=vp9"%string
              then "video/webm;codecs=vp9"%string else "video/webm"%string) /\
  (String.prefix "video/mp4" mimeType = true <-> extension = "mp4"%string) /\
  (String.prefix "video/webm" mimeType = true <-> extension = "webm"%string) /\
  (supported mimeType = true \/ mimeType = "video/webm"%string).
Proof.
  unfold exportFormat.
  destruct (find (isTypeSupported browser) mp4Types) as [t|] eqn:Hfind; simpl.
  - pose proof (find_some _ _ Hfind) as [Hin Hs].
    assert (Hpre : String.prefix "video/mp4" t = true /\
                   String.prefix "video/webm" t = false).
    { unfold mp4Types in Hin. simpl in Hin.
      destruct Hin as [<-|[<-|[<-|[<-|[]]]]]; split; reflexivity. }
    destruct Hpre as [Hp1 Hp2].
    split; [now left|].
    split; [split; [intros _; exists t; split; assumption | reflexivity]|].
    split.
    + intros _. clear Hin Hp1 Hp2. revert Hfind Hs. generalize mp4Types.
      induction l as [|a l IH]; simpl; [discriminate|].
      destruct (isTypeSupported browser a) eqn:Ha.
      * intros [= ->] _. exists [], l. repeat split; trivial. intros ? [].
      * intros Hf Hs. destruct (IH Hf Hs) as (before & after & -> & Ht & Hb).
        exists (a :: before), after. repeat split; trivial.
        intros t' [<-|Hin]; auto.
    + split; [discriminate|]. split; [tauto|]. split; [|now left].
      rewrite Hp2. split; discriminate.
  - assert (Hnone : forall t, In t mp4Types -> isTypeSupported browser t = false)
      by (apply find_none; exact Hfind).
    destruct (isTypeSupported browser "video/webm;codecs=vp9") eqn:Hvp9;
      cbn [fst snd];
      (split; [now right|]);
      (split; [split; [discriminate
                      | intros (t & Hin & Hs);
                        rewrite (Hnone t Hin) in Hs; discriminate]|]);
      (split; [discriminate|]); (split; [reflexivity|]);
      (split; [split; [vm_compute; discriminate | discriminate]|]);
      (split; [split; reflexivity|]); auto.
Qed.

(** X10.  How the export ends: without a 2D context nothing happens at
    all; while the loop is running the recorder has not been stopped and
    [onRenderComplete] has not been called; and an export that has come to
    its end has stopped the recorder once, after the last frame, and called
    [onRenderComplete] once, last of all, with the extension that goes with
    the type the recorder and the blob were made with.  Where the track has
    [requestFrame], it was called once for every frame processed; where it
    has not, it was never called, and what the recorder holds is what the
    stream sampled by itself. *)
Theorem export_completes_once_after_the_recorder_stops
    (fuel : nat) (browser : Browser) :
  let finished := fst (runRender fuel browser) in
  let es := snd (runRender fuel browser) in
  (hasContext browser = false -> finished = true /\ es = []) /\
  (finished = false -> completions es = [] /\ recorderStops es = 0%nat) /\
  framesRequested es =
    (if hasRequestFrame browser then length (framesProcessed es) else 0%nat) /\
  (hasContext browser = true -> finished = true ->
   exists before,
     es = before ++
          [RecorderStop; Seek 0;
           RenderComplete (fst (exportFormat browser))
             (snd (exportFormat browser))] /\
     completions before = [] /\ recorderStops before = 0%nat /\
     framesProcessed before = framesProcessed es /\
     completions es = [exportFormat browser] /\
     recorderStops es = 1%nat).
Proof.
  assert (Hreq : forall duration k,
            framesRequested (turnsEvents browser duration k) =
            if hasRequestFrame browser then k else 0%nat).
  { intros duration k. unfold turnsEvents, framesRequested.
    rewrite <- (length_seq k 0) at 2.
    induction (seq 0 k) as [|n l IH]; [now destruct (hasRequestFrame browser)|].
    cbn [flat_map]. rewrite filter_app, length_app, IH. unfold renderFrame.
    destruct (hasRequestFrame browser); reflexivity. }
  split; [|split; [|split]].
  - intros Hctx. unfold runRender. rewrite Hctx. now split.
  - destruct (hasContext browser) eqn:Hctx;
      [|unfold runRender; rewrite Hctx; discriminate].
    destruct (runRender_spec fuel browser Hctx) as (frames & _ & Hres).
    destruct Hres as [(_ & _ & ->)|(_ & _ & ->)]; simpl; [discriminate|].
    intros _. apply completions_turns.
  - destruct (hasContext browser) eqn:Hctx;
      [|unfold runRender; rewrite Hctx; now destruct (hasRequestFrame browser)].
    destruct (runRender_spec fuel browser Hctx) as (frames & _ & Hres).
    destruct Hres as [(_ & _ & ->)|(_ & _ & ->)]; cbn [snd].
    + rewrite framesProcessed_run by reflexivity.
      unfold framesRequested. rewrite !filter_app, !length_app.
      fold (framesRequested
              (turnsEvents browser (or_else (videoDuration browser) 10) frames)).
      rewrite Hreq. simpl. lia.
    + rewrite <- (app_nil_r (_ ++ _)), framesProcessed_run by reflexivity.
      rewrite app_nil_r.
      unfold framesRequested. rewrite !filter_app, !length_app.
      fold (framesRequested
              (turnsEvents browser (or_else (videoDuration browser) 10) frames)).
      rewrite Hreq. simpl. lia.
  - intros Hctx.
    destruct (runRender_spec fuel browser Hctx) as (frames & _ & Hres).
    destruct Hres as [(_ & _ & ->)|(_ & _ & ->)]; [|discriminate].
    intros _. cbn [fst snd].
    destruct (completions_turns browser (or_else (videoDuration browser) 10) frames)
      as [Hc1 Hc2].
    eexists. split; [reflexivity|].
    split; [unfold completions in *; rewrite !flat_map_app; simpl; exact Hc1|].
    split; [unfold recorderStops in *; rewrite !filter_app, !length_app;
            simpl; exact Hc2|].
    split; [unfold framesProcessed; rewrite !flat_map_app; simpl;
            now rewrite app_nil_r|].
    split.
    + unfold completions in *. rewrite !flat_map_app. simpl.
      rewrite Hc1. now destruct (exportFormat browser).
    + unfold recorderStops in *. rewrite !filter_app, !length_app.
      simpl. rewrite Hc2. reflexivity.
Qed.


End ExportEnds.

(** ** The theorems on the export at concrete inputs *)

(** A video whose metadata give no length, as a stream does. *)
Definition endlessVideo : Browser :=
  {| hasContext := true;
     isTypeSupported := fun _ => false;
     hasRequestFrame := false;
     videoDuration := PInf;
     cancelled := fun _ => false |}.

(** A one-second video, exported to its end. *)
Definition oneSecond : Browser :=
  {| hasContext := true;
     isTypeSupported := fun _ => true;
     hasRequestFrame := true;
     videoDuration := 1;
     cancelled := fun _ => false |}.

(** The export of the one-second video does 31 turns, one more than
    [ceil(30 * 1)]: after 30 turns the sum of the frame durations is still a
    little below 1. *)
Lemma export_of_a_finite_duration_ends_witness :
  (or_else (videoDuration oneSecond) 10 = Fin (inject_Z 1) /\
   (inject_Z 1 <= longestDuration)%Q) /\
  turnsFor (inject_Z 1) = 30%nat /\
  (ExportFacts.timeAt 30 <? 1)%js = true /\
  fst (runRender 31 oneSecond) = true /\
  (29 <= length (ExportFacts.framesProcessed (snd (runRender 31 oneSecond)))
   <= 31)%nat /\
  length (ExportFacts.framesProcessed (snd (runRender 31 oneSecond))) = 31%nat.
Proof.
  assert (Hlong : (inject_Z 1 <= longestDuration)%Q) by discriminate.
  split; [split; [reflexivity | exact Hlong]|].
  split; [reflexivity|]. split; [vm_compute; reflexivity|].
  destruct (export_of_a_finite_duration_ends oneSecond (inject_Z 1) eq_refl Hlong)
    as (Hends & Hmost & Hleast).
  change (turnsFor (inject_Z 1)) with 30%nat in *.
  assert (Hfin : fst (runRender 31 oneSecond) = true)
    by (apply Hends; simpl; lia).
  split; [exact Hfin|]. split; [split|].
  - exact (Hleast eq_refl (fun _ => eq_refl) 31%nat Hfin).
  - exact (Hmost 31%nat).
  - vm_compute. reflexivity.
Defined.

(** A video of a tenth of a second, the duration being the double next to
    0.1: the export does 3 turns, one fewer than [ceil(30 * d)], the sum of
    three frame durations being rounded up to that double. *)
Example a_tenth_of_a_second_takes_three_turns :
  let d := Double.round64 0.1 in
  turnsFor d = 4%nat /\
  ExportFacts.timeAt 3 = Fin d /\
  forall hasRequestFrame,
    length (ExportFacts.framesProcessed
              (snd (runRender 10
                      {| hasContext := true;
                         isTypeSupported := fun _ => true;
                         hasRequestFrame := hasRequestFrame;
                         videoDuration := Fin d;
                         cancelled := fun _ => false |}))) = 3%nat.
Proof.
  split; [vm_compute; reflexivity|]. split; [vm_compute; reflexivity|].
  intros [|]; vm_compute; reflexivity.
Qed.

Lemma export_of_an_endless_video_never_completes_witness :
  (hasContext endlessVideo = true /\ videoDuration endlessVideo = PInf) /\
  fst (runRender 5 endlessVideo) = false /\
  ExportFacts.progressReports (snd (runRender 5 endlessVideo)) =
    repeat (of_Z 0) 5 /\
  completions (snd (runRender 5 endlessVideo)) = [].
Proof.
  split; [split; reflexivity|].
  destruct (export_of_an_endless_video_never_completes endlessVideo 5
              eq_refl eq_refl (fun _ _ => eq_refl))
    as (Hrun & _ & Hprog & Hcompl & _).
  split; [exact Hrun|]. split; [exact Hprog | exact Hcompl].
Defined.

(* ================================================================== *)
(** * The smoother: the pull toward the blob, and the jitter *)
(* ================================================================== *)

Section SmootherBounds.

Variables sin cos : num -> num.

Local Open Scope Q_scope.

Lemma lerp_Fin (v t f : Q) :
  lerp (Fin v) (Fin t) (Fin f) = Fin (v + (t + - v) * f).
Proof. reflexivity. Qed.

Lemma lerp_between (v t f v' : Q) :
  0.1 <= f <= 0.8 -> v' == v + (t + - v) * f ->
  t - v' == (1 - f) * (t - v) /\
  (v <= t -> v <= v' <= t) /\ (t <= v -> t <= v' <= v) /\
  Qabs (t - v') <= 0.9 * Qabs (t - v).
Proof.
  intros Hf Hv'.
  assert (Hgap : t - v' == (1 - f) * (t - v)) by (rewrite Hv'; ring).
  split; [exact Hgap|]. split; [|split].
  - intros Hle. split; nra.
  - intros Hle. split; nra.
  - rewrite Hgap, Qabs_Qmult. rewrite (Qabs_pos (1 - f)) by lra.
    assert (H0 : 0 <= Qabs (t - v)) by apply Qabs_nonneg. nra.
Qed.

(** X11.  With [drift] between 0 and 1, as the slider gives it, the factor
    of the interpolation lies between 0.1 and 0.8, and one call of
    [drawOverlays] moves the display position of a blob toward its true
    position without passing it: on each axis the new display position
    lies between the old one and the true one, and what is left of the gap
    is [1 - lerpFactor] of it, at most nine tenths. *)
Theorem display_position_moves_toward_the_blob
    (settings : TrackerSettings) (time : num) (blob : DetectedBlob)
    (d vx vy tx ty : Q) :
  drift settings = Fin d -> 0 <= d <= 1 ->
  x blob = Fin tx -> y blob = Fin ty ->
  orInit (visualX blob) (x blob) = Fin vx ->
  orInit (visualY blob) (y blob) = Fin vy ->
  exists f vx' vy',
    lerpFactor settings = Fin f /\ f == 0.8 - 0.7 * d /\ 0.1 <= f <= 0.8 /\
    visualX (fst (drawOverlay sin cos settings time blob)) = Some (Fin vx') /\
    visualY (fst (drawOverlay sin cos settings time blob)) = Some (Fin vy') /\
    (tx - vx' == (1 - f) * (tx - vx) /\
     (vx <= tx -> vx <= vx' <= tx) /\ (tx <= vx -> tx <= vx' <= vx) /\
     Qabs (tx - vx') <= 0.9 * Qabs (tx - vx)) /\
    (ty - vy' == (1 - f) * (ty - vy) /\
     (vy <= ty -> vy <= vy' <= ty) /\ (ty <= vy -> ty <= vy' <= vy) /\
     Qabs (ty - vy') <= 0.9 * Qabs (ty - vy)).
Proof.
  intros Hd Hd01 Hx Hy Hvx Hvy.
  assert (Hf : lerpFactor settings = Fin (0.8 + - (d * 0.7))).
  { unfold lerpFactor. rewrite Hd. reflexivity. }
  assert (Hf01 : 0.1 <= 0.8 + - (d * 0.7) <= 0.8) by (split; lra).
  exists (0.8 + - (d * 0.7)), (vx + (tx + - vx) * (0.8 + - (d * 0.7))),
         (vy + (ty + - vy) * (0.8 + - (d * 0.7))).
  split; [exact Hf|]. split; [ring|]. split; [exact Hf01|].
  split; [simpl; now rewrite Hvx, Hx, Hf|].
  split; [simpl; now rewrite Hvy, Hy, Hf|].
  split; apply lerp_between; trivial; reflexivity.
Qed.

(** X12.  The jitter displaces the marker from the display position by at
    most [40 * jitter] on each axis, whatever the time and the blob: the
    sum of a sine and a cosine lies between -2 and 2, and is scaled by
    [jitter * 20].  With [jitter = 0] the marker is drawn at the display
    position. *)
Theorem jitter_displaces_the_marker_by_at_most_forty_jitter
    (settings : TrackerSettings) (blob : DetectedBlob) (j t vx' vy' : Q) :
  (forall a, exists s, sin (Fin a) = Fin s /\ -1 <= s <= 1) ->
  (forall a, exists c, cos (Fin a) = Fin c /\ -1 <= c <= 1) ->
  jitter settings = Fin j -> 0 <= j ->
  visualX (fst (drawOverlay sin cos settings (Fin t) blob)) = Some (Fin vx') ->
  visualY (fst (drawOverlay sin cos settings (Fin t) blob)) = Some (Fin vy') ->
  exists dx dy,
    snd (drawOverlay sin cos settings (Fin t) blob) = (Fin dx, Fin dy) /\
    Qabs (dx - vx') <= 40 * j /\ Qabs (dy - vy') <= 40 * j /\
    (j == 0 -> dx == vx' /\ dy == vy').
Proof.
  intros Hsin Hcos Hj Hj0 Hvx Hvy.
  unfold drawOverlay in *. cbn [fst snd visualX visualY] in *.
  injection Hvx as Hvx. injection Hvy as Hvy. rewrite Hvx, Hvy, Hj.
  destruct (Hsin (t * 0.01 + inject_Z (id blob))) as (s1 & Hs1 & Hs1b).
  destruct (Hcos (t * 0.05)) as (c1 & Hc1 & Hc1b).
  destruct (Hcos (t * 0.01 + inject_Z (id blob))) as (c2 & Hc2 & Hc2b).
  destruct (Hsin (t * 0.03)) as (s2 & Hs2 & Hs2b).
  unfold of_Z.
  change (Fin t * Fin 0.01 + Fin (inject_Z (id blob)))%js
    with (Fin (t * 0.01 + inject_Z (id blob))).
  change (Fin t * Fin 0.05)%js with (Fin (t * 0.05)).
  change (Fin t * Fin 0.03)%js with (Fin (t * 0.03)).
  rewrite Hs1, Hc1, Hc2, Hs2.
  exists (vx' + (s1 + c1) * j * inject_Z 20), (vy' + (c2 + s2) * j * inject_Z 20).
  split; [reflexivity|].
  change (inject_Z 20) with 20.
  split; [|split].
  - apply Qabs_Qle_condition. split; nra.
  - apply Qabs_Qle_condition. split; nra.
  - intros H0. split; nra.
Qed.

End SmootherBounds.

(** ** The theorems on the smoother at concrete inputs *)

(** Stand-ins for [Math.sin] and [Math.cos] at one point of their range. *)
Definition sinAtZero : num -> num := fun _ => 0.
Definition cosAtZero : num -> num := fun _ => 1.

Lemma display_position_moves_toward_the_blob_witness :
  (drift initialSettings = Fin 0.2 /\ (0 <= 0.2 <= 1)%Q /\
   x laggingBlob = Fin (inject_Z 10) /\
   orInit (visualX laggingBlob) (x laggingBlob) = Fin 0) /\
  exists f vx',
    lerpFactor initialSettings = Fin f /\ (f == 0.66)%Q /\
    visualX (fst (drawOverlay sinAtZero cosAtZero initialSettings 0 laggingBlob))
    = Some (Fin vx') /\
    (0 <= vx' <= inject_Z 10)%Q.
Proof.
  assert (Hd : (0 <= 0.2 <= 1)%Q) by (split; lra).
  split; [repeat split; trivial; apply Hd|].
  destruct (display_position_moves_toward_the_blob sinAtZero cosAtZero
              initialSettings 0 laggingBlob 0.2 0 0 (inject_Z 10) (inject_Z 10)
              eq_refl Hd eq_refl eq_refl eq_refl eq_refl)
    as (f & vx' & vy' & Hf & Hfv & _ & Hvx & _ & (_ & Hbetween & _) & _).
  exists f, vx'. split; [exact Hf|]. split; [rewrite Hfv; lra|].
  split; [exact Hvx|]. apply Hbetween. change (inject_Z 10) with 10%Q. lra.
Defined.

Lemma jitter_displaces_the_marker_by_at_most_forty_jitter_witness :
  (jitter initialSettings = Fin 0.1 /\ (0 <= 0.1)%Q) /\
  exists dx dy,
    snd (drawOverlay sinAtZero cosAtZero initialSettings (Fin 0) laggingBlob)
    = (Fin dx, Fin dy) /\
    (Qabs (dx - 6.600) <= 40 * 0.1)%Q /\ (Qabs (dy - 6.600) <= 40 * 0.1)%Q.
Proof.
  assert (Hj : (0 <= 0.1)%Q) by lra.
  split; [split; [reflexivity | exact Hj]|].
  destruct (jitter_displaces_the_marker_by_at_most_forty_jitter
              sinAtZero cosAtZero initialSettings laggingBlob 0.1 0 6.600 6.600)
    as (dx & dy & Hdraw & Hx & Hy & _); trivial.
  - intros a. exists 0%Q. split; [reflexivity | split; lra].
  - intros a. exists 1%Q. split; [reflexivity | split; lra].
  - exists dx, dy. repeat split; assumption.
Defined.

(* ================================================================== *)
(** * The blur kernel, the preview and the colours *)
(* ================================================================== *)

Module JsMathFacts.

Import JsMath.

Local Open Scope Q_scope.

(** The remainder of a non-negative number by a positive one lies between
    [0] and the divisor, and differs from the number by a multiple of the
    divisor. *)
Lemma rem_nonneg (p q : Q) :
  0 <= p -> 0 < q ->
  exists (r : Q) (m : Z),
    rem (Fin p) (Fin q) = Fin r /\ 0 <= r < q /\ p == r + q * inject_Z m /\
    (0 <= m)%Z.
Proof.
  intros Hp Hq.
  assert (Hq0 : Qeq_bool q 0 = false).
  { destruct (Qeq_bool q 0) eqn:E; trivial. apply Qeq_bool_eq in E. lra. }
  assert (Hpq : 0 <= p / q).
  { apply Qle_shift_div_l; trivial. lra. }
  assert (Ht : truncate (p / q) = Qfloor (p / q)).
  { unfold truncate. destruct (Qle_bool 0 (p / q)) eqn:E; trivial.
    apply Qle_bool_iff in Hpq. congruence. }
  exists (p - q * inject_Z (Qfloor (p / q))), (Qfloor (p / q)).
  split; [simpl; now rewrite Hq0, Ht|].
  pose proof (Qfloor_le (p / q)) as Hlo.
  pose proof (Qlt_floor (p / q)) as Hhi.
  assert (Hmul : q * (p / q) == p) by (field; lra).
  rewrite inject_Z_plus in Hhi. change (inject_Z 1) with 1 in Hhi.
  split; [|split; [ring|]].
  - split; nra.
  - assert (H0 : (Qfloor 0 <= Qfloor (p / q))%Z) by now apply Qfloor_resp_le.
    exact H0.
Qed.

(** On an integer, [n % 2] is [0] exactly when [n] is even. *)
Lemma rem_2_even (n : Z) :
  (rem (of_Z n) (of_Z 2) ==? of_Z 0)%js = Z.even n.
Proof.
  unfold rem, of_Z.
  change (Qeq_bool (inject_Z 2) 0) with false. cbv iota.
  unfold eqb.
  assert (Hdiv : inject_Z n / inject_Z 2 = (n * 1 # 2)) by reflexivity.
  assert (Ht : (truncate (inject_Z n / inject_Z 2) =
                if 0 <=? n then n / 2 else - (- n / 2))%Z).
  { rewrite Hdiv. unfold truncate, Qle_bool, Qceiling, Qfloor. simpl.
    rewrite !Z.mul_1_r. destruct (0 <=? n)%Z; trivial. }
  rewrite Ht.
  destruct (Qeq_bool _ _) eqn:E.
  - apply Qeq_bool_eq in E. symmetry. rewrite Z.even_spec.
    destruct (0 <=? n)%Z eqn:Hn.
    + exists (n / 2)%Z.
      assert (H : inject_Z n == inject_Z (2 * (n / 2))).
      { rewrite inject_Z_mult. change (inject_Z 0) with 0 in E. lra. }
      exact (proj1 (inject_Z_injective _ _) H).
    + exists (- (- n / 2))%Z.
      assert (H : inject_Z n == inject_Z (2 * - (- n / 2))).
      { rewrite inject_Z_mult. change (inject_Z 0) with 0 in E. lra. }
      exact (proj1 (inject_Z_injective _ _) H).
  - apply Qeq_bool_neq in E. symmetry.
    destruct (Z.even n) eqn:Hev; trivial. exfalso. apply E.
    apply Z.even_spec in Hev. destruct Hev as [m ->].
    change (inject_Z 0) with 0.
    destruct (0 <=? 2 * m)%Z.
    + replace (2 * m / 2)%Z with m by (rewrite Z.mul_comm, Z.div_mul; lia).
      rewrite inject_Z_mult. ring.
    + replace (- (2 * m) / 2)%Z with (- m)%Z
        by (replace (- (2 * m))%Z with (- m * 2)%Z by lia;
            rewrite Z.div_mul; lia).
      rewrite Z.opp_involutive, inject_Z_mult. ring.
Qed.

End JsMathFacts.

Section Preview.

Import JsNumFacts JsMathFacts ExportFacts.

(** X13.  The side of the blur kernel is odd whenever [blurSize] is an
    integer: an odd [blurSize], as the slider gives it, is taken as it is,
    and an even one is raised by one. *)
Theorem blur_kernel_is_odd (settings : TrackerSettings) (n : Z) :
  blurSize settings = of_Z n ->
  blurKernel settings = (if Z.even n then (of_Z n + 1)%js else of_Z n) /\
  exists k,
    (blurKernel settings ==? of_Z k)%js = true /\ Z.odd k = true /\
    k = (if Z.even n then n + 1 else n).
Proof.
  intros Hn. unfold blurKernel. rewrite Hn.
  change (JsMath.rem (of_Z n) 2 ==? 0)%js
    with (JsMath.rem (of_Z n) (of_Z 2) ==? of_Z 0)%js.
  rewrite rem_2_even. split; trivial.
  destruct (Z.even n) eqn:Hev.
  - exists (n + 1). repeat split.
    + unfold eqb, add, of_Z. apply Qeq_bool_iff. now rewrite inject_Z_plus.
    + rewrite Z.add_1_r, Z.odd_succ. exact Hev.
  - exists n. repeat split.
    + unfold eqb, of_Z. apply Qeq_bool_iff. reflexivity.
    + rewrite <- Z.negb_even, Hev. reflexivity.
Qed.






Lemma hue_gap (p p' h h' : Q) (m m' : Z) :
  (p == h + 360 * inject_Z m)%Q -> (p' == h' + 360 * inject_Z m')%Q ->
  (0 <= h < 360)%Q -> (0 <= h' < 360)%Q ->
  ((h == h')%Q <-> exists c : Z, (p - p' == 360 * inject_Z c)%Q).
Proof.
  intros Hp Hp' Hh Hh'. split.
  - intros He. exists (m - m'). unfold Z.sub.
    rewrite inject_Z_plus, inject_Z_opp. lra.
  - intros [c Hc].
    assert (Hz : (h - h' == 360 * inject_Z (c - m + m'))%Q).
    { unfold Z.sub. rewrite !inject_Z_plus, inject_Z_opp. lra. }
    assert (H1 : (inject_Z (-1) < inject_Z (c - m + m'))%Q)
      by (change (inject_Z (-1)) with (-1)%Q; lra).
    assert (H2 : (inject_Z (c - m + m') < inject_Z 1)%Q)
      by (change (inject_Z 1) with 1%Q; lra).
    rewrite <- Zlt_Qlt in H1, H2.
    assert (H0 : c - m + m' = 0) by lia.
    rewrite H0 in Hz. change (inject_Z 0) with 0%Q in Hz. lra.
Qed.

(** X17.  In the colour mode [random] the hue of a blob lies between 0
    and 360, it depends on the id only, not on the time, and two blobs
    whose ids differ by less than 30000 never have the same hue. *)
Theorem random_colours_tell_blobs_apart
    (time time' : num) (blob blob' : DetectedBlob) :
  0 <= id blob -> 0 <= id blob' ->
  exists h h' : Q,
    blobColor Random time blob = Hsl (Fin h) /\
    blobColor Random time' blob = Hsl (Fin h) /\
    blobColor Random time blob' = Hsl (Fin h') /\
    (0 <= h < 360)%Q /\ (0 <= h' < 360)%Q /\
    (id blob <> id blob' -> Z.abs (id blob - id blob') < 30000 ->
     ~ (h == h')%Q).
Proof.
  intros Hk Hk'.
  assert (Hp : forall k, 0 <= k -> (0 <= inject_Z k * 137.508)%Q).
  { intros k H. rewrite Zle_Qle in H. change (inject_Z 0) with 0%Q in H. nra. }
  destruct (rem_nonneg (inject_Z (id blob) * 137.508) 360 (Hp _ Hk))
    as (h & m & Hh & Hhb & Hhm & _); [lra|].
  destruct (rem_nonneg (inject_Z (id blob') * 137.508) 360 (Hp _ Hk'))
    as (h' & m' & Hh' & Hhb' & Hhm' & _); [lra|].
  exists h, h'. unfold blobColor.
  change (of_Z (id blob) * Fin 137.508)%js with (Fin (inject_Z (id blob) * 137.508)).
  change (of_Z (id blob') * Fin 137.508)%js
    with (Fin (inject_Z (id blob') * 137.508)).
  change (of_Z 360) with (Fin 360). rewrite Hh, Hh'.
  repeat (split; [reflexivity || assumption|]).
  intros Hne Habs He.
  apply (hue_gap _ _ _ _ _ _ Hhm Hhm' Hhb Hhb') in He. destruct He as [c Hc].
  assert (Hz : (inject_Z ((id blob - id blob') * 11459) ==
                inject_Z (30000 * c))%Q).
  { unfold Z.sub. rewrite !inject_Z_mult, inject_Z_plus, inject_Z_opp.
    change (inject_Z 11459) with 11459%Q. change (inject_Z 30000) with 30000%Q.
    lra. }
  apply (proj1 (inject_Z_injective _ _)) in Hz.
  assert (Hdiv : (30000 | id blob - id blob')).
  { apply Z.gauss with 11459; [|reflexivity].
    exists c. lia. }
  destruct Hdiv as [e He]. lia.
Qed.

(** X18.  In the colour mode [cycle] the hue of a blob at a time from 0
    on lies between 0 and 360, and two blobs drawn at the same time have
    the same hue exactly when their ids differ by a multiple of 12. *)
Theorem cycle_colours_repeat_every_twelve_ids
    (t : Q) (blob blob' : DetectedBlob) :
  (0 <= t)%Q -> 0 <= id blob -> 0 <= id blob' ->
  exists h h' : Q,
    blobColor Cycle (Fin t) blob = Hsl (Fin h) /\
    blobColor Cycle (Fin t) blob' = Hsl (Fin h') /\
    (0 <= h < 360)%Q /\ (0 <= h' < 360)%Q /\
    ((h == h')%Q <-> (12 | id blob - id blob')).
Proof.
  intros Ht Hk Hk'.
  assert (Hp : forall k, 0 <= k -> (0 <= t * 0.1 + inject_Z k * 30)%Q).
  { intros k H. rewrite Zle_Qle in H. change (inject_Z 0) with 0%Q in H. nra. }
  destruct (rem_nonneg (t * 0.1 + inject_Z (id blob) * 30) 360 (Hp _ Hk))
    as (h & m & Hh & Hhb & Hhm & _); [lra|].
  destruct (rem_nonneg (t * 0.1 + inject_Z (id blob') * 30) 360 (Hp _ Hk'))
    as (h' & m' & Hh' & Hhb' & Hhm' & _); [lra|].
  exists h, h'. unfold blobColor.
  change (Fin t * Fin 0.1 + of_Z (id blob) * 30)%js
    with (Fin (t * 0.1 + inject_Z (id blob) * 30)).
  change (Fin t * Fin 0.1 + of_Z (id blob') * 30)%js
    with (Fin (t * 0.1 + inject_Z (id blob') * 30)).
  change (of_Z 360) with (Fin 360). rewrite Hh, Hh'.
  repeat (split; [reflexivity || assumption|]).
  rewrite (hue_gap _ _ _ _ _ _ Hhm Hhm' Hhb Hhb').
  split.
  - intros [c Hc]. exists c.
    assert (Hz : (inject_Z (id blob - id blob') == inject_Z (c * 12))%Q).
    { unfold Z.sub. rewrite inject_Z_mult, inject_Z_plus, inject_Z_opp.
      change (inject_Z 12) with 12%Q. lra. }
    exact (proj1 (inject_Z_injective _ _) Hz).
  - intros [c Hc]. exists c.
    assert (Hz : (inject_Z (id blob) - inject_Z (id blob') ==
                  inject_Z c * 12)%Q).
    { change 12%Q with (inject_Z 12).
      rewrite <- inject_Z_mult, <- Hc. unfold Z.sub.
      rewrite inject_Z_plus, inject_Z_opp. ring. }
    lra.
Qed.


End Preview.

(** ** The theorems on the preview at concrete inputs *)

Definition withBlurSize (size : num) : TrackerSettings :=
  {| threshold := threshold initialSettings;
     minArea := minArea initialSettings;
     blurSize := size;
     historyLength := historyLength initialSettings;
     jitter := jitter initialSettings;
     drift := drift initialSettings;
     showVideo := showVideo initialSettings |}.

Lemma blur_kernel_is_odd_witness :
  blurSize (withBlurSize 8) = of_Z 8 /\
  blurKernel (withBlurSize 8) = (of_Z 8 + 1)%js /\
  blurKernel initialSettings = of_Z 5.
Proof.
  split; [reflexivity|]. split.
  - exact (proj1 (blur_kernel_is_odd (withBlurSize 8) 8 eq_refl)).
  - exact (proj1 (blur_kernel_is_odd initialSettings 5 eq_refl)).
Defined.


(** A video of 1920 by 1080 pixels is analysed at a quarter of its size. *)
Example full_hd_is_analysed_at_a_quarter :
  previewScale 1920 1080 = 4 /\
  processSize 1920 1080 (previewScale 1920 1080) = (of_Z 480, of_Z 270).
Proof. split; vm_compute; reflexivity. Qed.

Lemma random_colours_tell_blobs_apart_witness :
  (0 <= id blobAtOrigin /\ 0 <= id laggingBlob) /\
  exists h : Q,
    blobColor Random 0 blobAtOrigin = Hsl (Fin h) /\
    blobColor Random 1000 blobAtOrigin = Hsl (Fin h) /\
    (0 <= h < 360)%Q.
Proof.
  assert (H1 : 0 <= id blobAtOrigin) by (simpl; lia).
  assert (H2 : 0 <= id laggingBlob) by (simpl; lia).
  split; [split; assumption|].
  destruct (random_colours_tell_blobs_apart 0 1000 blobAtOrigin laggingBlob H1 H2)
    as (h & h' & Hh & Hh' & _ & Hb & _).
  exists h. split; [exact Hh|]. split; [exact Hh' | exact Hb].
Defined.

Lemma cycle_colours_repeat_every_twelve_ids_witness :
  ((0 <= 250)%Q /\ 0 <= id blobAtOrigin /\ 0 <= id laggingBlob) /\
  exists h h' : Q,
    blobColor Cycle (Fin 250) blobAtOrigin = Hsl (Fin h) /\
    blobColor Cycle (Fin 250) laggingBlob = Hsl (Fin h') /\
    (h == h')%Q.
Proof.
  assert (Ht : (0 <= 250)%Q) by lra.
  assert (H1 : 0 <= id blobAtOrigin) by (simpl; lia).
  assert (H2 : 0 <= id laggingBlob) by (simpl; lia).
  split; [repeat split; assumption|].
  destruct (cycle_colours_repeat_every_twelve_ids 250 blobAtOrigin laggingBlob
              Ht H1 H2) as (h & h' & Hh & Hh' & _ & _ & Heq).
  exists h, h'. split; [exact Hh|]. split; [exact Hh'|].
  apply Heq. exists 0. reflexivity.
Defined.

(* ================================================================== *)
(** * The matrices: nothing leaked, nothing deleted twice *)
(* ================================================================== *)

Definition optList (m : option nat) : list nat :=
  match m with
  | Some a => [a]
  | None => []
  end.

(** The objects the five fields refer to, in the order of the fields. *)
Definition owned (this : Mats) : list nat :=
  optList (src this) ++ optList (dst this) ++ optList (gray this) ++
  optList (hierarchy this) ++ optList (contours this).

(** All five fields are set. *)
Definition complete (this : Mats) : Prop :=
  src this <> None /\ dst this <> None /\ gray this <> None /\
  hierarchy this <> None /\ contours this <> None.

(** The calls in order, on the same processor. *)
Definition matsCalls (calls : list MatsCall) (state : Mats * Opencv)
  : result (Mats * Opencv) :=
  forEach (fun state call => matsCall call state) calls state.

(** What every call keeps: the objects alive are those the fields refer
    to, each once; without [cv] there is none; and a set of matrices that
    is not complete has the dimensions [0] by [0]. *)
Record tidy (this : Mats) (heap : Opencv) : Prop := {
  t_live : live heap = owned this;
  t_nodup : NoDup (live heap);
  t_below : Forall (fun a => (a < allocated heap)%nat) (live heap);
  t_cv : cv this = false -> owned this = [];
  t_full : complete this \/ lastDimensions this = (of_Z 0, of_Z 0)
}.

Section MatsFacts.

Lemma filter_other (a : nat) (l : list nat) :
  ~ In a l -> filter (fun m' => negb (Nat.eqb a m')) l = l.
Proof.
  induction l as [|b l IH]; simpl; intros H; trivial.
  destruct (Nat.eqb a b) eqn:E.
  - apply Nat.eqb_eq in E. subst. exfalso. apply H. now left.
  - simpl. f_equal. apply IH. intros Hin. apply H. now right.
Qed.

Lemma deleteIf_ok (m : option nat) (rest : list nat) (heap : Opencv) :
  live heap = optList m ++ rest -> NoDup (live heap) ->
  exists heap',
    deleteIf m heap = Ok heap' /\ live heap' = rest /\
    allocated heap' = allocated heap.
Proof.
  intros Hl Hnd. destruct m as [a|]; simpl in *.
  - unfold deleteMat. rewrite Hl in *. simpl. rewrite Nat.eqb_refl. simpl.
    eexists. split; [reflexivity|]. simpl. split; trivial.
    apply filter_other. now inversion Hnd.
  - exists heap. auto.
Qed.

Lemma lazyInit_owned windowCv this :
  owned (lazyInit windowCv this) = owned this /\
  lastDimensions (lazyInit windowCv this) = lastDimensions this /\
  src (lazyInit windowCv this) = src this /\
  cv (lazyInit windowCv this) = (cv this || windowCv)%bool /\
  (complete (lazyInit windowCv this) <-> complete this).
Proof.
  unfold lazyInit, owned, complete.
  destruct (cv this) eqn:Hcv, windowCv; simpl; rewrite ?Hcv; tauto.
Qed.

Lemma lazyInit_tidy windowCv this heap :
  tidy this heap -> tidy (lazyInit windowCv this) heap.
Proof.
  intros [Hl Hnd Hb Hcv Hfull].
  destruct (lazyInit_owned windowCv this) as (Ho & Hd & _ & Hc & Hfl).
  constructor; trivial.
  - now rewrite Ho.
  - rewrite Ho, Hc. intros H. apply orb_false_elim in H. tauto.
  - rewrite Hd. tauto.
Qed.

(** [cleanup] does not throw, and leaves no object alive. *)
Lemma cleanup_spec windowCv this heap :
  tidy this heap ->
  exists this' heap',
    cleanup windowCv this heap = Ok (this', heap') /\
    tidy this' heap' /\ live heap' = [] /\ owned this' = [] /\
    allocated heap' = allocated heap /\
    cv this' = (cv this || windowCv)%bool /\
    (cv this' = true -> lastDimensions this' = (of_Z 0, of_Z 0)).
Proof.
  intros Ht. apply (lazyInit_tidy windowCv) in Ht.
  destruct (lazyInit_owned windowCv this) as (_ & _ & _ & Hc & _).
  unfold cleanup. revert Ht Hc. generalize (lazyInit windowCv this).
  intros t [Hl Hnd Hb Hcv Hfull] Hc.
  destruct (cv t) eqn:Ecv; simpl.
  - unfold owned in Hl.
    destruct (deleteIf_ok _ _ _ Hl Hnd) as (h1 & -> & Hl1 & Ha1). simpl.
    rewrite Hl in Hnd. apply NoDup_app_remove_l in Hnd.
    destruct (deleteIf_ok _ _ _ Hl1 (eq_ind_r _ Hnd Hl1)) as (h2 & -> & Hl2 & Ha2).
    simpl. apply NoDup_app_remove_l in Hnd.
    destruct (deleteIf_ok _ _ _ Hl2 (eq_ind_r _ Hnd Hl2)) as (h3 & -> & Hl3 & Ha3).
    simpl. apply NoDup_app_remove_l in Hnd.
    destruct (deleteIf_ok _ _ _ Hl3 (eq_ind_r _ Hnd Hl3)) as (h4 & -> & Hl4 & Ha4).
    simpl. apply NoDup_app_remove_l in Hnd.
    rewrite <- (app_nil_r (optList (contours t))) in Hl4.
    assert (Hnd4 : NoDup (live h4)).
    { rewrite Hl4, app_nil_r. exact Hnd. }
    destruct (deleteIf_ok _ _ _ Hl4 Hnd4) as (h5 & -> & Hl5 & Ha5).
    simpl. eexists _, _. split; [reflexivity|].
    split; [|repeat split; trivial; congruence].
    constructor; simpl; rewrite ?Hl5; trivial;
      first [now right | constructor].
  - exists t, heap. split; [reflexivity|].
    split; [constructor; auto|]. rewrite Hl.
    split; [|split; [|split; [|split]]]; auto; congruence.
Qed.

Lemma owned_nil this :
  owned this = [] ->
  src this = None /\ dst this = None /\ gray this = None /\
  hierarchy this = None /\ contours this = None.
Proof.
  unfold owned.
  destruct (src this), (dst this), (gray this), (hierarchy this),
    (contours this); simpl; intros H; try discriminate; tauto.
Qed.

Ltac tidy_lists :=
  repeat match goal with
         | |- NoDup _ => constructor
         | |- Forall _ _ => constructor
         | |- ~ In _ _ => simpl; intuition lia
         | |- (_ < _)%nat => simpl; lia
         end.

(** The [try] block on a processor without matrices. *)
Lemma allocate_spec throwsAt width height this heap :
  owned this = [] -> live heap = [] -> cv this = true ->
  lastDimensions this = (of_Z 0, of_Z 0) ->
  tidy (fst (allocate throwsAt width height this heap))
       (snd (allocate throwsAt width height this heap)) /\
  cv (fst (allocate throwsAt width height this heap)) = true /\
  (throwsAt = None ->
   complete (fst (allocate throwsAt width height this heap)) /\
   lastDimensions (fst (allocate throwsAt width height this heap)) =
     (width, height) /\
   live (snd (allocate throwsAt width height this heap)) =
     map (fun i => (allocated heap + i)%nat) (seq 0 5)).
Proof.
  intros Ho Hl Hcv Hd. apply owned_nil in Ho.
  destruct Ho as (H1 & H2 & H3 & H4 & H5).
  destruct this as [c s d g h cs ld], heap as [n l]. simpl in *. subst.
  destruct throwsAt as [[|[|[|[|[|k]]]]]|]; simpl;
    (split; [constructor; simpl; trivial; try discriminate; tidy_lists;
             first [now right | left; repeat split; discriminate]
            |split; [reflexivity|]]);
    try discriminate.
  intros _. split; [repeat split; discriminate|]. split; [reflexivity|].
  repeat (f_equal; try lia).
Qed.

(** [ensureMats] does not throw and keeps the invariant. *)
Lemma ensureMats_spec windowCv throwsAt width height this heap :
  tidy this heap ->
  exists this' heap',
    ensureMats windowCv throwsAt width height this heap = Ok (this', heap') /\
    tidy this' heap'.
Proof.
  intros Ht. unfold ensureMats.
  pose proof (lazyInit_tidy windowCv _ _ Ht) as Ht1.
  destruct (cv (lazyInit windowCv this)) eqn:Ecv; simpl;
    [|eexists _, _; split; [reflexivity | assumption]].
  destruct (_ && _ && _)%bool;
    [eexists _, _; split; [reflexivity | assumption]|].
  destruct (cleanup_spec windowCv _ _ Ht1)
    as (c & h & -> & Htc & Hlc & Hoc & _ & Hcvc & Hdc). simpl.
  assert (Hc : cv c = true) by (rewrite Hcvc, Ecv; reflexivity).
  exists (fst (allocate throwsAt width height c h)),
         (snd (allocate throwsAt width height c h)).
  split; [now rewrite <- surjective_pairing|].
  apply (allocate_spec throwsAt width height c h Hoc Hlc Hc (Hdc Hc)).
Qed.

Lemma matsCall_spec call this heap :
  tidy this heap ->
  exists this' heap',
    matsCall call (this, heap) = Ok (this', heap') /\ tidy this' heap'.
Proof.
  intros Ht. destruct call as [windowCv throwsAt width height|windowCv]; simpl.
  - now apply ensureMats_spec.
  - destruct (cleanup_spec windowCv _ _ Ht) as (c & h & Hc & Htc & _).
    exists c, h. auto.
Qed.

Lemma newMats_tidy cvGiven windowCv :
  tidy (newMats cvGiven windowCv) {| allocated := 0; live := [] |}.
Proof.
  constructor; simpl; trivial; first [now right | constructor].
Qed.

Lemma matsCalls_spec calls : forall this heap,
  tidy this heap ->
  exists this' heap',
    matsCalls calls (this, heap) = Ok (this', heap') /\ tidy this' heap'.
Proof.
  unfold matsCalls.
  induction calls as [|call calls IH]; intros this heap Ht; simpl.
  - exists this, heap. auto.
  - destruct (matsCall_spec call _ _ Ht) as (this1 & heap1 & -> & Ht1). simpl.
    apply IH, Ht1.
Qed.

(** X19.  The matrices of OpenCV are neither leaked nor deleted twice.
    After any calls of [ensureMats] and [cleanup] on a new processor,
    whatever the sizes asked for, whether [window.cv] is there, and whichever
    constructor throws, none of the calls has thrown, the objects alive are
    exactly those the five fields refer to, each once, so there are at most
    five; and a [cleanup] then leaves none alive and every field [null]. *)
Theorem matrices_are_neither_leaked_nor_deleted_twice
    (cvGiven windowCv : bool) (calls : list MatsCall) :
  exists this heap,
    matsCalls calls (newMats cvGiven windowCv, {| allocated := 0; live := [] |})
    = Ok (this, heap) /\
    live heap = owned this /\ NoDup (live heap) /\ (length (live heap) <= 5)%nat /\
    (cv this = false -> live heap = []) /\
    forall windowCv',
      exists this' heap',
        cleanup windowCv' this heap = Ok (this', heap') /\
        live heap' = [] /\ owned this' = [] /\
        allocated heap' = allocated heap.
Proof.
  destruct (matsCalls_spec calls _ _ (newMats_tidy cvGiven windowCv))
    as (this & heap & Hrun & Ht).
  exists this, heap. split; [exact Hrun|].
  pose proof (t_live _ _ Ht) as Hl.
  split; [exact Hl|]. split; [exact (t_nodup _ _ Ht)|]. split; [|split].
  - rewrite Hl. unfold owned.
    destruct (src this), (dst this), (gray this), (hierarchy this),
      (contours this); simpl; lia.
  - intros Hcv. rewrite Hl. exact (t_cv _ _ Ht Hcv).
  - intros windowCv'.
    destruct (cleanup_spec windowCv' _ _ Ht)
      as (c & h & Hc & _ & Hlc & Hoc & Hac & _).
    exists c, h. auto.
Qed.



End MatsFacts.


(* ================================================================== *)
(** * The page: when a download is offered *)
(* ================================================================== *)

(** The page after the handlers have run for the actions, in order, whether
    or not the panel offers them. *)
Definition handled (actions : list Action) (app : App) : App :=
  fold_left (fun app action => act action app) actions app.

(** What every handler keeps. *)
Record consistent (app : App) : Prop := {
  c_download : downloadUrl app <> None <-> renderState app = Completed;
  c_file : renderState app = Rendering -> videoFile app <> None;
  c_url : forall url, downloadUrl app = Some url ->
                      (url < objectUrls app)%nat /\ ~ In url (revokedUrls app);
  c_revoked : Forall (fun url => (url < objectUrls app)%nat) (revokedUrls app);
  c_once : NoDup (revokedUrls app)
}.

Section AppFacts.

Lemma consistent_new : consistent newApp.
Proof.
  constructor; simpl; try discriminate; try constructor; intros H;
    try discriminate; now elim H.
Qed.

Lemma act_consistent action app : consistent app -> consistent (act action app).
Proof.
  intros Hall. pose proof Hall as [Hd Hf Hu Hr Ho].
  destruct action as [[|file files]| | |progress|extension|time]; simpl;
    try (constructor; assumption).
  - constructor; simpl; trivial; try discriminate.
    + split; [intros H; now elim H | discriminate].
    + destruct (downloadUrl app) as [url|] eqn:E; trivial.
      destruct (Hu url eq_refl) as [Hlt _].
      apply Forall_app. split; trivial. repeat constructor. exact Hlt.
    + destruct (downloadUrl app) as [url|] eqn:E; trivial.
      destruct (Hu url eq_refl) as [_ Hnin].
      apply NoDup_app; trivial; [repeat constructor; intros [] |].
      intros a Ha [<-|[]]. contradiction.
  - unfold handleGenerate. destruct (videoFile app) eqn:E; [|exact Hall].
    constructor; simpl; trivial; try discriminate.
    split; [intros H; now elim H | discriminate].
  - constructor; simpl; trivial; try discriminate.
    + split; [reflexivity | discriminate].
    + intros url [= <-]. split; [lia|].
      intros Hin. rewrite Forall_forall in Hr. specialize (Hr _ Hin). lia.
    + eapply Forall_impl; [|exact Hr]. simpl. intros; lia.
Qed.

Lemma handled_consistent actions : forall app,
  consistent app -> consistent (handled actions app).
Proof.
  unfold handled. induction actions as [|a actions IH]; intros app H; simpl;
    trivial.
  apply IH. now apply act_consistent.
Qed.

Lemma session_consistent actions : forall app,
  consistent app -> consistent (session actions app).
Proof.
  unfold session. induction actions as [|a actions IH]; intros app H; simpl;
    trivial.
  apply IH. destruct (offered app a); trivial. now apply act_consistent.
Qed.

(** X21.  Whatever the order in which the handlers of the page are
    called, a download is held exactly when the render state is
    [completed], and the footer shows the download link exactly then; the
    URL held has been created and has not been revoked, no URL is revoked
    twice, and the page is rendering only with a file loaded. *)
Theorem download_is_offered_exactly_when_completed (actions : list Action) :
  let app := handled actions newApp in
  (downloadUrl app <> None <-> renderState app = Completed) /\
  ((exists url extension, footer app = DownloadLink url extension) <->
   renderState app = Completed) /\
  (forall url, downloadUrl app = Some url ->
     (url < objectUrls app)%nat /\ ~ In url (revokedUrls app)) /\
  NoDup (revokedUrls app) /\
  (renderState app = Rendering -> videoFile app <> None).
Proof.
  intros app.
  destruct (handled_consistent actions newApp consistent_new)
    as [Hd Hf Hu Hr Ho].
  fold app in Hd, Hf, Hu, Hr, Ho.
  split; [exact Hd|]. split; [|auto].
  unfold footer, isRendering. split.
  - intros (url & extension & H).
    destruct (renderState app) eqn:E; try discriminate; trivial.
    destruct (downloadUrl app) eqn:E'; try discriminate.
    apply Hd. discriminate.
  - intros H. rewrite H.
    destruct (downloadUrl app) as [url|] eqn:E.
    + eauto.
    + apply Hd in H. now elim H.
Qed.

(** A file input that was closed without a file. *)
Definition noUpload (action : Action) : Prop :=
  forall files, action = Upload files -> files = [].

Lemma completed_stays actions : forall app,
  Forall noUpload actions ->
  renderState app = Completed -> downloadUrl app <> None ->
  renderState (session actions app) = Completed /\
  downloadUrl (session actions app) <> None.
Proof.
  unfold session.
  induction actions as [|a actions IH]; intros app Hall Hc Hd; simpl; auto.
  inversion Hall as [|? ? Ha Hall']; subst.
  apply IH; trivial; destruct (offered app a) eqn:Eo; trivial;
    destruct a as [[|file files]| | |progress|extension|time]; simpl; trivial;
    try discriminate;
    try (specialize (Ha _ eq_refl); discriminate);
    unfold offered, footer, isRendering in Eo; rewrite Hc in Eo;
    destruct (downloadUrl app); try discriminate; now elim Hd.
Qed.

Lemma session_paused actions : forall app,
  (isRendering app = true -> isPlaying app = false) ->
  isRendering (session actions app) = true ->
  isPlaying (session actions app) = false.
Proof.
  unfold session.
  induction actions as [|a actions IH]; intros app H; simpl; auto.
  apply IH. destruct (offered app a) eqn:Eo; trivial.
  destruct a as [[|file files]| | |progress|extension|time]; simpl; trivial;
    try discriminate.
  - unfold offered in Eo. intros Hr. unfold isRendering in *.
    simpl in Hr. destruct (renderState app); discriminate.
  - unfold handleGenerate. destruct (videoFile app); trivial.
Qed.

(** X22.  With the controls as the panel offers them: while the page is
    rendering the preview is paused and a file is loaded; an export is
    started only from the idle state; and once an export is completed the
    page stays completed, with the download link in the footer, until a
    file is uploaded, so that a second export needs a new upload. *)
Theorem completed_export_stays_until_the_next_upload
    (actions more : list Action) :
  let app := session actions newApp in
  (isRendering app = true -> isPlaying app = false /\ videoFile app <> None) /\
  (offered app Generate = true -> renderState app = Idle) /\
  (renderState app = Completed -> Forall noUpload more ->
   renderState (session more app) = Completed /\
   exists url extension, footer (session more app) = DownloadLink url extension).
Proof.
  intros app.
  pose proof (session_consistent actions newApp consistent_new) as Hc.
  fold app in Hc. destruct Hc as [Hd Hf Hu Hr Ho].
  split; [|split].
  - intros Hren. split.
    + apply (session_paused actions newApp); trivial.
    + apply Hf. unfold isRendering in Hren.
      destruct (renderState app); trivial; discriminate.
  - unfold offered, footer, isRendering.
    destruct (renderState app) eqn:E; trivial; try discriminate.
    destruct (downloadUrl app) eqn:E'; try discriminate.
    exfalso. exact (proj2 Hd eq_refl eq_refl).
  - intros Hcompl Hmore.
    destruct (completed_stays more app Hmore Hcompl (proj2 Hd Hcompl))
      as [Hs Hu'].
    split; trivial. unfold footer, isRendering. rewrite Hs.
    destruct (downloadUrl (session more app)) as [url|]; [eauto | now elim Hu'].
Qed.

End AppFacts.

(* ================================================================== *)
(** * The shared objects: what drawing does to the tracker *)
(* ================================================================== *)

(** Every address held in [activeBlobs] has been allocated. *)
Definition valid (this : Shared) : Prop :=
  Forall (fun e => (snd e < length (objects this))%nat) (entries this).

(** The entries by value. *)
Definition byValue (heap : list DetectedBlob) (es : JsMap.t nat)
  : JsMap.t DetectedBlob :=
  map (fun e => (fst e, object heap (snd e))) es.

Section SharedFacts.

Variable hypot_fin : Q -> Q -> Q.
Variables sin cos : num -> num.

Import JsMapFacts.

Lemma object_old heap u a :
  (a < length heap)%nat -> object (heap ++ [u]) a = object heap a.
Proof. intros H. unfold object. now rewrite app_nth1. Qed.

Lemma object_new heap u : object (heap ++ [u]) (length heap) = u.
Proof. unfold object. now rewrite nth_middle. Qed.

Lemma byValue_old heap u es :
  Forall (fun e => (snd e < length heap)%nat) es ->
  byValue (heap ++ [u]) es = byValue heap es.
Proof.
  intros H. unfold byValue. apply map_ext_in. intros e He.
  rewrite Forall_forall in H. now rewrite object_old by auto.
Qed.

Lemma byValue_get heap es k :
  JsMap.get k (byValue heap es) = option_map (object heap) (JsMap.get k es).
Proof.
  induction es as [|[k' a] es IH]; simpl; trivial.
  destruct (k' =? k); trivial.
Qed.

Lemma byValue_set heap es k a :
  byValue heap (JsMap.set k a es) = JsMap.set k (object heap a) (byValue heap es).
Proof.
  induction es as [|[k' a'] es IH]; simpl; trivial.
  destruct (k' =? k); simpl; trivial. now rewrite <- IH.
Qed.

Lemma byValue_delete heap es k :
  byValue heap (JsMap.delete k es) = JsMap.delete k (byValue heap es).
Proof.
  induction es as [|[k' a'] es IH]; simpl; trivial.
  destruct (k' =? k); simpl; trivial. now rewrite <- IH.
Qed.

Lemma set_valid (heap : list DetectedBlob) (u : DetectedBlob)
    (es : JsMap.t nat) (k : Z) :
  Forall (fun e => (snd e < length heap)%nat) es ->
  Forall (fun e => (snd e < length (heap ++ [u]))%nat)
    (JsMap.set k (length heap) es).
Proof.
  rewrite length_app. simpl.
  induction es as [|[k' a'] es IH]; simpl; intros H.
  - repeat constructor. simpl. lia.
  - inversion H as [|? ? Ha Hes]; subst. simpl in Ha.
    destruct (k' =? k); constructor; simpl; auto; try lia.
    eapply Forall_impl; [|exact Hes]. simpl. intros; lia.
Qed.

(** What the loop over the candidates keeps, by address: the addresses
    held are allocated, and the blobs returned so far are the objects
    allocated since the call began, in order. *)
Record shared_inv (base : nat) (st : SharedTracking) : Prop := {
  si_valid : valid (sharedSelf st);
  si_tracked : sharedTracked st = seq base (length (sharedTracked st));
  si_length : length (objects (sharedSelf st)) =
              (base + length (sharedTracked st))%nat
}.

Lemma shared_inv_tracked base st :
  shared_inv base st ->
  Forall (fun a => (a < length (objects (sharedSelf st)))%nat) (sharedTracked st).
Proof.
  intros [_ Ht Hl]. rewrite Hl. apply Forall_forall. intros a Ha.
  rewrite Ht in Ha. apply in_seq in Ha. lia.
Qed.

(** One candidate: by address and by value the callback does the same. *)
Lemma trackShared_sim settings now radius base st c :
  shared_inv base st ->
  match trackShared hypot_fin settings now radius st c with
  | Ok st' =>
      trackBlob hypot_fin settings now radius (trackingContents st) c =
        Ok (trackingContents st') /\
      shared_inv base st' /\
      exists u k,
        objects (sharedSelf st') = objects (sharedSelf st) ++ [u] /\
        sharedTracked st' =
          sharedTracked st ++ [length (objects (sharedSelf st))] /\
        entries (sharedSelf st') =
          JsMap.set k (length (objects (sharedSelf st)))
            (entries (sharedSelf st)) /\
        (wf (contents (sharedSelf st)) -> id u = k)
  | TypeError =>
      trackBlob hypot_fin settings now radius (trackingContents st) c = TypeError
  end.
Proof.
  intros Hinv. pose proof (shared_inv_tracked _ _ Hinv) as Htr.
  destruct Hinv as [Hv Ht Hl].
  unfold trackShared, trackBlob.
  destruct (findClosest hypot_fin radius (trackingContents st) c) as [k d].
  assert (Hmap : forall u,
            map (object (objects (sharedSelf st) ++ [u]))
              (sharedTracked st ++ [length (objects (sharedSelf st))]) =
            map (object (objects (sharedSelf st))) (sharedTracked st) ++ [u]).
  { intros u. rewrite map_app. simpl. rewrite object_new. f_equal.
    apply map_ext_in. intros a Ha. rewrite Forall_forall in Htr.
    now apply object_old, Htr. }
  assert (Hinv' : forall u k' cnt asg,
            shared_inv base
              {| sharedSelf :=
                   {| counter := cnt;
                      entries := JsMap.set k' (length (objects (sharedSelf st)))
                                   (entries (sharedSelf st));
                      objects := objects (sharedSelf st) ++ [u] |};
                 sharedAssigned := asg;
                 sharedTracked :=
                   sharedTracked st ++ [length (objects (sharedSelf st))] |}).
  { intros u k' cnt asg. constructor; simpl.
    - apply set_valid. exact Hv.
    - rewrite length_app. simpl. rewrite Nat.add_1_r, seq_S, <- Ht. now rewrite Hl.
    - rewrite !length_app. simpl. lia. }
  destruct (negb (k =? -1)).
  - unfold matchBlob. simpl. fold (byValue (objects (sharedSelf st))
                                     (entries (sharedSelf st))).
    rewrite byValue_get.
    destruct (JsMap.get k (entries (sharedSelf st))) as [a|] eqn:Hget; simpl;
      trivial.
    split; [|split; [apply Hinv'|]].
    2:{ eexists _, k. repeat split. intros (_ & _ & Hids). simpl.
        apply (Hids k (object (objects (sharedSelf st)) a)). simpl.
        fold (byValue (objects (sharedSelf st)) (entries (sharedSelf st))).
        now rewrite byValue_get, Hget. }
    unfold trackingContents, contents. simpl.
    fold (byValue (objects (sharedSelf st) ++
                   [updated settings now (object (objects (sharedSelf st)) a) c])
            (JsMap.set k (length (objects (sharedSelf st)))
               (entries (sharedSelf st)))).
    rewrite byValue_set, object_new, byValue_old, Hmap by exact Hv.
    reflexivity.
  - split; [|split; [apply Hinv' | eexists _, _; repeat split]].
    unfold spawnBlob, trackingContents, contents. simpl.
    fold (byValue (objects (sharedSelf st) ++
                   [newEntity now (counter (sharedSelf st)) c])
            (JsMap.set (counter (sharedSelf st)) (length (objects (sharedSelf st)))
               (entries (sharedSelf st)))).
    rewrite byValue_set, object_new, byValue_old, Hmap by exact Hv.
    reflexivity.
Qed.

Lemma forEach_sim settings now radius base cs : forall st,
  shared_inv base st ->
  match forEach (trackShared hypot_fin settings now radius) cs st with
  | Ok st' =>
      forEach (trackBlob hypot_fin settings now radius) cs (trackingContents st) =
        Ok (trackingContents st') /\
      shared_inv base st' /\
      exists us,
        objects (sharedSelf st') = objects (sharedSelf st) ++ us /\
        length us = length cs /\
        sharedTracked st' =
          sharedTracked st ++ seq (length (objects (sharedSelf st))) (length cs)
  | TypeError =>
      forEach (trackBlob hypot_fin settings now radius) cs (trackingContents st) =
        TypeError
  end.
Proof.
  induction cs as [|c cs IH]; intros st Hinv; simpl.
  - split; trivial. split; trivial. exists []. now rewrite !app_nil_r.
  - pose proof (trackShared_sim settings now radius base st c Hinv) as H1.
    destruct (trackShared hypot_fin settings now radius st c) as [st1|];
      [|now rewrite H1].
    destruct H1 as (-> & Hinv1 & u & k & Hobj & Htr & _). simpl.
    specialize (IH st1 Hinv1).
    destruct (forEach (trackShared hypot_fin settings now radius) cs st1)
      as [st2|]; trivial.
    destruct IH as (-> & Hinv2 & us & Hobj2 & Hlen & Htr2).
    split; trivial. split; trivial.
    exists (u :: us). rewrite Hobj2, Hobj, <- app_assoc. simpl.
    split; trivial. split; [now rewrite Hlen|].
    rewrite Htr2, Htr, Hobj, <- app_assoc, length_app. simpl.
    now rewrite Nat.add_1_r.
Qed.

Lemma prune_fold now heap es : forall acc,
  byValue heap
    (fold_left
       (fun es e =>
          if expired now (object heap (snd e))
          then JsMap.delete (fst e) es else es) es acc) =
  fold_left (pruneBlob now) (byValue heap es) (byValue heap acc).
Proof.
  induction es as [|[k a] es IH]; intros acc; simpl; trivial.
  rewrite IH. f_equal.
  destruct (expired now (object heap a)); trivial. apply byValue_delete.
Qed.

Lemma prune_sim now this :
  contents (pruneShared now this) =
  {| nextBlobId := nextBlobId (contents this);
     activeBlobs := prune now (activeBlobs (contents this)) |}.
Proof.
  unfold contents, pruneShared, prune. simpl. f_equal. apply prune_fold.
Qed.

(** The entry of an id returned in this call holds an object allocated in
    this call. *)
Definition fresh (base : nat) (st : SharedTracking) : Prop :=
  forall k a,
    In (k, a) (entries (sharedSelf st)) ->
    In k (map id (trackedBlobs (trackingContents st))) ->
    (base <= a)%nat.

Lemma In_set_entries (es : JsMap.t nat) k v k' a :
  NoDup (JsMap.keys es) ->
  In (k', a) (JsMap.set k v es) ->
  (k', a) = (k, v) \/ (k' <> k /\ In (k', a) es).
Proof.
  induction es as [|[k1 a1] es IH]; simpl; intros Hnd Hin.
  - destruct Hin as [[= <- <-]|[]]. now left.
  - inversion Hnd as [|? ? Hnin Hnd']; subst.
    destruct (Z.eqb_spec k1 k) as [->|Hne].
    + destruct Hin as [[= <- <-]|Hin]; [now left|].
      right. split; [|now right]. intros ->. apply Hnin.
      apply in_map_iff. now exists (k, a).
    + destruct Hin as [[= <- <-]|Hin]; [right; split; auto|].
      destruct (IH Hnd' Hin) as [H|[H1 H2]]; auto.
Qed.

Lemma byValue_keys heap es : JsMap.keys (byValue heap es) = JsMap.keys es.
Proof.
  unfold byValue, JsMap.keys. rewrite map_map. reflexivity.
Qed.

Lemma trackShared_fresh settings now radius base st c st' :
  shared_inv base st -> wf (contents (sharedSelf st)) -> fresh base st ->
  trackShared hypot_fin settings now radius st c = Ok st' ->
  wf (contents (sharedSelf st')) /\ fresh base st'.
Proof.
  intros Hinv Hwf Hfresh Hstep.
  pose proof (trackShared_sim settings now radius base st c Hinv) as Hsim.
  rewrite Hstep in Hsim.
  destruct Hsim as (Hval & Hinv' & u & k & Hobj & Htr & Hent & Hid).
  specialize (Hid Hwf).
  destruct (trackBlob_spec hypot_fin settings now radius (trackingContents st) c
              Hwf) as (stv & Hstv & Has).
  rewrite Hval in Hstv. injection Hstv as <-.
  split; [exact (tracked_as_wf hypot_fin settings now radius
                   (trackingContents st) c (trackingContents st') Hwf Has)|].
  intros k' a Hin Hk'. rewrite Hent in Hin.
  destruct Hwf as (Hnd & _). simpl in Hnd.
  fold (byValue (objects (sharedSelf st)) (entries (sharedSelf st))) in Hnd.
  rewrite byValue_keys in Hnd.
  destruct (In_set_entries _ _ _ _ _ Hnd Hin) as [[= -> ->]|[Hne Hin']].
  - destruct Hinv as [_ _ Hl]. lia.
  - apply (Hfresh k' a Hin'). simpl in *.
    rewrite Htr, Hobj, map_app, map_app in Hk'. simpl in Hk'.
    rewrite object_new in Hk'. apply in_app_or in Hk'.
    destruct Hk' as [Hk'|[Hk'|[]]]; [|congruence].
    replace (map (object (objects (sharedSelf st))) (sharedTracked st))
      with (map (object (objects (sharedSelf st) ++ [u])) (sharedTracked st));
      [exact Hk'|].
    apply map_ext_in. intros r Hr. apply object_old.
    pose proof (shared_inv_tracked _ _ Hinv) as Hall.
    rewrite Forall_forall in Hall. auto.
Qed.

Lemma forEach_fresh settings now radius base cs : forall st st',
  shared_inv base st -> wf (contents (sharedSelf st)) -> fresh base st ->
  forEach (trackShared hypot_fin settings now radius) cs st = Ok st' ->
  wf (contents (sharedSelf st')) /\ fresh base st'.
Proof.
  induction cs as [|c cs IH]; intros st st' Hinv Hwf Hfresh H; simpl in H.
  - injection H as <-. auto.
  - destruct (trackShared hypot_fin settings now radius st c) as [st1|] eqn:E;
      [|discriminate].
    simpl in H.
    destruct (trackShared_fresh _ _ _ _ _ _ _ Hinv Hwf Hfresh E) as [Hwf1 Hf1].
    pose proof (trackShared_sim settings now radius base st c Hinv) as Hsim.
    rewrite E in Hsim. destruct Hsim as (_ & Hinv1 & _).
    exact (IH st1 st' Hinv1 Hwf1 Hf1 H).
Qed.

Lemma pruned_entries now heap (es : JsMap.t nat) : forall acc e,
  In e
    (fold_left
       (fun (es : JsMap.t nat) e =>
          if expired now (object heap (snd e))
          then JsMap.delete (fst e) es else es) es acc) ->
  In e acc.
Proof.
  assert (Hdel : forall k (m : JsMap.t nat) e, In e (JsMap.delete k m) -> In e m).
  { intros k m e. induction m as [|[k1 a1] m IH]; simpl; trivial.
    destruct (k1 =? k); simpl; intuition. }
  induction es as [|[k a] es IH]; intros acc e; simpl; trivial.
  intros H. apply IH in H.
  destruct (expired now (object heap a)); eauto.
Qed.

(** One call: by address and by value [processFrame] does the same; the
    blobs returned are new objects; and the entry of every id returned
    holds one of them. *)
Lemma processFrame_sim frame now settings scaleFactor this :
  valid this -> wf (contents this) ->
  exists this' blobs,
    processFrameShared hypot_fin frame now settings scaleFactor this =
      Ok (this', blobs) /\
    processFrame hypot_fin frame now settings scaleFactor (contents this) =
      Ok (contents this', map (object (objects this')) blobs) /\
    valid this' /\ wf (contents this') /\
    blobs = seq (length (objects this)) (length blobs) /\
    length (objects this') = (length (objects this) + length blobs)%nat /\
    (forall k a, In (k, a) (entries this') ->
       In k (map id (map (object (objects this')) blobs)) ->
       (length (objects this) <= a)%nat).
Proof.
  intros Hv Hwf.
  destruct frame as [| | |cs];
    try (exists this, []; simpl; split; [reflexivity|]; split; [reflexivity|];
         split; [exact Hv|]; split; [exact Hwf|]; split; [reflexivity|];
         split; [lia | intros k a _ []]).
  unfold processFrameShared, processFrame, track, matchingPass.
  set (init := {| sharedSelf := this; sharedAssigned := JsSet.empty;
                  sharedTracked := [] |}).
  assert (Hinit : shared_inv (length (objects this)) init).
  { constructor; simpl; trivial. }
  assert (Hfresh0 : fresh (length (objects this)) init).
  { intros k a _ []. }
  pose proof (forEach_sim settings now (maxDist scaleFactor) _
                (extract settings scaleFactor cs) init Hinit) as Hsim.
  change {| self := contents this; assignedIds := JsSet.empty; trackedBlobs := [] |}
    with (trackingContents init).
  destruct (matchingPass_inv hypot_fin settings scaleFactor now
              (extract settings scaleFactor cs) (contents this) Hwf)
    as (stv & Hstv & _).
  unfold matchingPass in Hstv.
  change {| self := contents this; assignedIds := JsSet.empty; trackedBlobs := [] |}
    with (trackingContents init) in Hstv.
  destruct (forEach (trackShared hypot_fin settings now (maxDist scaleFactor))
              (extract settings scaleFactor cs) init) as [st|] eqn:E;
    [|congruence].
  destruct Hsim as (Heq & Hinv & us & Hobj & Hlen & Htr).
  destruct (forEach_fresh _ _ _ _ _ _ _ Hinit Hwf Hfresh0 E) as [Hwf' Hfresh].
  rewrite Heq. simpl.
  exists (pruneShared now (sharedSelf st)), (sharedTracked st).
  split; [reflexivity|]. rewrite prune_sim. split; [reflexivity|].
  destruct Hinv as [Hval Hseq Hl]. simpl in Hseq, Hl.
  split; [|split; [|split; [exact Hseq | split; [exact Hl|]]]].
  - unfold valid, pruneShared. simpl. apply Forall_forall. intros e He.
    apply pruned_entries in He. unfold valid in Hval.
    rewrite Forall_forall in Hval. auto.
  - apply (prune_wf now (contents (sharedSelf st)) Hwf').
  - intros k a Hin Hk. simpl in Hin. apply pruned_entries in Hin.
    exact (Hfresh k a Hin Hk).
Qed.

Lemma assign_length a b (heap : list DetectedBlob) :
  length (assign a b heap) = length heap.
Proof.
  unfold assign. destruct (a <? length heap)%nat eqn:E; trivial.
  apply Nat.ltb_lt in E.
  rewrite length_app, length_firstn. cbn [length]. rewrite length_skipn. lia.
Qed.

Lemma object_assign a b heap a' :
  (a < length heap)%nat ->
  object (assign a b heap) a' = if (a' =? a)%nat then b else object heap a'.
Proof.
  intros Ha. unfold assign, object.
  replace (a <? length heap)%nat with true by (symmetry; now apply Nat.ltb_lt).
  assert (Hlen : length (firstn a heap) = a) by (apply firstn_length_le; lia).
  destruct (Nat.eqb_spec a' a) as [->|Hne].
  - rewrite <- Hlen at 1. apply nth_middle.
  - destruct (Nat.lt_ge_cases a' a) as [Hlt|Hge].
    + rewrite app_nth1 by lia. rewrite nth_firstn.
      now replace (a' <? a)%nat with true by (symmetry; now apply Nat.ltb_lt).
    + rewrite app_nth2 by lia. rewrite Hlen.
      replace (a' - a)%nat with (S (a' - a - 1)) by lia. cbn [nth].
      rewrite nth_skipn. f_equal. lia.
Qed.

Lemma drawn_once settings time blobs : forall heap,
  NoDup blobs -> Forall (fun a => (a < length heap)%nat) blobs ->
  length (fold_left (drawShared sin cos settings time) blobs heap) = length heap /\
  forall a,
    object (fold_left (drawShared sin cos settings time) blobs heap) a =
    if existsb (Nat.eqb a) blobs
    then fst (drawOverlay sin cos settings time (object heap a))
    else object heap a.
Proof.
  induction blobs as [|b blobs IH]; intros heap Hnd Hall;
    cbn [fold_left existsb]; auto.
  inversion Hnd as [|? ? Hnin Hnd']; subst.
  inversion Hall as [|? ? Hb Hall']; subst.
  assert (Hlen : length (drawShared sin cos settings time heap b) = length heap)
    by apply assign_length.
  destruct (IH (drawShared sin cos settings time heap b) Hnd') as [Hl Hobj].
  { eapply Forall_impl; [|exact Hall']. cbv beta. intros. now rewrite Hlen. }
  split; [now rewrite Hl|].
  intros a. rewrite Hobj. unfold drawShared.
  rewrite !object_assign by trivial.
  destruct (Nat.eqb_spec a b) as [->|Hne]; cbn [orb]; trivial.
  replace (existsb (Nat.eqb b) blobs) with false; trivial.
  symmetry. apply not_true_is_false. intros H. apply existsb_exists in H.
  destruct H as (x & Hx & Hxb). apply Nat.eqb_eq in Hxb. now subst.
Qed.

Lemma sameButVisual_drawn settings time b :
  sameButVisual b (fst (drawOverlay sin cos settings time b)).
Proof. repeat split. Qed.

Lemma sameButVisual_trans b1 b2 b3 :
  sameButVisual b1 b2 -> sameButVisual b2 b3 -> sameButVisual b1 b3.
Proof.
  unfold sameButVisual. intuition congruence.
Qed.

Lemma drawn_sameButVisual settings time blobs : forall heap a,
  sameButVisual (object heap a)
    (object (fold_left (drawShared sin cos settings time) blobs heap) a).
Proof.
  induction blobs as [|b blobs IH]; intros heap a; simpl.
  - repeat split.
  - eapply sameButVisual_trans; [|apply IH].
    unfold drawShared, assign.
    destruct (b <? length heap)%nat eqn:E; [|repeat split].
    apply Nat.ltb_lt in E.
    pose proof (object_assign b
                  (fst (drawOverlay sin cos settings time (object heap b)))
                  heap a E) as H.
    unfold assign in H.
    replace (b <? length heap)%nat with true in H
      by (symmetry; now apply Nat.ltb_lt).
    rewrite H. destruct (Nat.eqb_spec a b) as [->|_]; [|repeat split].
    apply sameButVisual_drawn.
Qed.

(** Drawing is a step of [rendered], whatever the blobs drawn. *)
Lemma drawOverlaysShared_rendered settings time blobs this :
  rendered (contents this)
    (contents (drawOverlaysShared sin cos settings time blobs this)).
Proof.
  split; [reflexivity|]. simpl.
  induction (entries this) as [|[k a] es IH]; simpl; constructor; trivial.
  simpl. split; trivial. apply drawn_sameButVisual.
Qed.

Lemma drawOverlaysShared_valid settings time blobs this :
  valid this -> valid (drawOverlaysShared sin cos settings time blobs this).
Proof.
  unfold valid. simpl. intros H.
  assert (Hlen : forall bs heap,
            length (fold_left (drawShared sin cos settings time) bs heap) =
            length heap).
  { induction bs as [|b bs IH]; intros heap; simpl; trivial.
    rewrite IH. apply assign_length. }
  now rewrite Hlen.
Qed.


Lemma runs_frame_last allowed p results p1 frame now settings scaleFactor p2 tracked :
  runs hypot_fin allowed p results p1 -> allowed settings ->
  processFrame hypot_fin frame now settings scaleFactor p1 = Ok (p2, tracked) ->
  runs hypot_fin allowed p (results ++ [tracked]) p2.
Proof.
  intros Hr Ha Hp.
  induction Hr as [p | p frame0 now0 settings0 scale0 p1 tracked0 results p'
                       Hal Hp0 Hr IH | p p1 results p' Hrd Hr IH]; simpl.
  - eapply runs_frame; [exact Ha | exact Hp | constructor].
  - eapply runs_frame; [exact Hal | exact Hp0 | exact (IH Hp)].
  - eapply runs_render; [exact Hrd | exact (IH Hp)].
Qed.

Lemma runs_render_last allowed p results p1 p2 :
  runs hypot_fin allowed p results p1 -> rendered p1 p2 ->
  runs hypot_fin allowed p results p2.
Proof.
  intros Hr Hd.
  induction Hr as [p | p frame0 now0 settings0 scale0 p1 tracked0 results p'
                       Hal Hp0 Hr IH | p p1 results p' Hrd Hr IH].
  - eapply runs_render; [exact Hd | constructor].
  - eapply runs_frame; [exact Hal | exact Hp0 | exact (IH Hd)].
  - eapply runs_render; [exact Hrd | exact (IH Hd)].
Qed.

(** The states of the tracker with its heap: [processFrame] is called, and
    between the calls [drawOverlays] is, on any blobs that exist. *)
Inductive sharedReachable : Shared -> Prop :=
| shared_new : sharedReachable newShared
| shared_frame this frame now settings scaleFactor this' blobs :
    sharedReachable this ->
    processFrameShared hypot_fin frame now settings scaleFactor this =
      Ok (this', blobs) ->
    sharedReachable this'
| shared_draw this settings time blobs :
    sharedReachable this ->
    sharedReachable (drawOverlaysShared sin cos settings time blobs this).

Lemma sharedReachable_inv this :
  sharedReachable this -> valid this /\ reachable hypot_fin (contents this).
Proof.
  induction 1 as [|this frame now settings scaleFactor this' blobs _ [Hv Hr] Hp
                  |this settings time blobs _ [Hv Hr]].
  - split; [constructor | apply reachable_new].
  - destruct (processFrame_sim frame now settings scaleFactor this Hv
                (reachable_wf hypot_fin _ Hr))
      as (this1 & blobs1 & Hp1 & Hval & Hv1 & _).
    rewrite Hp in Hp1. injection Hp1 as <- <-.
    split; trivial. destruct Hr as [results Hruns].
    exists (results ++ [map (object (objects this')) blobs]).
    eapply runs_frame_last; eauto.
  - split; [now apply drawOverlaysShared_valid|].
    destruct Hr as [results Hruns]. exists results.
    eapply runs_render_last; eauto. apply drawOverlaysShared_rendered.
Qed.

(** X23.  With the blobs as shared objects the tracker stays within what
    was proved of it by value.  In every state that calls of [processFrame]
    and of [drawOverlays] lead to, the tracking state is one the tracker can
    reach; a call of [processFrame] does not throw and computes, by address,
    what it computes by value, the blobs it returns being new objects, all
    different; and a call of [drawOverlays], on whatever blobs, changes
    nothing of the tracking state but display positions. *)
Theorem shared_objects_stay_within_the_tracker_model (this : Shared) :
  sharedReachable this ->
  reachable hypot_fin (contents this) /\
  (forall frame now settings scaleFactor,
     exists this' blobs,
       processFrameShared hypot_fin frame now settings scaleFactor this =
         Ok (this', blobs) /\
       processFrame hypot_fin frame now settings scaleFactor (contents this) =
         Ok (contents this', map (object (objects this')) blobs) /\
       NoDup blobs /\
       (forall b, In b blobs ->
          (length (objects this) <= b < length (objects this'))%nat)) /\
  (forall settings time blobs,
     rendered (contents this)
       (contents (drawOverlaysShared sin cos settings time blobs this))).
Proof.
  intros Hs. destruct (sharedReachable_inv this Hs) as [Hv Hr].
  split; [exact Hr|]. split; [|intros; apply drawOverlaysShared_rendered].
  intros frame now settings scaleFactor.
  destruct (processFrame_sim frame now settings scaleFactor this Hv
              (reachable_wf hypot_fin _ Hr))
    as (this' & blobs & Hp & Hval & _ & _ & Hseq & Hlen & _).
  exists this', blobs. split; [exact Hp|]. split; [exact Hval|].
  split.
  - rewrite Hseq. apply seq_NoDup.
  - intros b Hb. rewrite Hseq in Hb. apply in_seq in Hb. lia.
Qed.

(** X24.  Drawing moves exactly the blobs just returned.  After a call of
    [processFrame] and a call of [drawOverlays] on the blobs it returned,
    every blob of the list has been drawn once, and the tracker holds, for
    each id that was returned, the active blob with its display position
    moved as [drawOverlays] moves it, once, and every other active blob as
    it was. *)
Theorem drawing_moves_exactly_the_blobs_returned
    (this this' : Shared) (frame : Frame) (now : Z)
    (settings : TrackerSettings) (scaleFactor : num) (blobs : list nat)
    (settings' : TrackerSettings) (time : num) :
  sharedReachable this ->
  processFrameShared hypot_fin frame now settings scaleFactor this =
    Ok (this', blobs) ->
  let tracked := map (object (objects this')) blobs in
  let drawn := drawOverlaysShared sin cos settings' time blobs this' in
  map (object (objects drawn)) blobs =
    map (fun b => fst (drawOverlay sin cos settings' time b)) tracked /\
  nextBlobId (contents drawn) = nextBlobId (contents this') /\
  activeBlobs (contents drawn) =
    map (fun e =>
           if existsb (fun b => id b =? fst e) tracked
           then (fst e, fst (drawOverlay sin cos settings' time (snd e)))
           else e)
        (activeBlobs (contents this')).
Proof.
  intros Hs Hp tracked drawn.
  destruct (sharedReachable_inv this Hs) as [Hv Hr].
  destruct (processFrame_sim frame now settings scaleFactor this Hv
              (reachable_wf hypot_fin _ Hr))
    as (this1 & blobs1 & Hp1 & _ & Hv' & Hwf' & Hseq & Hlen & Hfresh).
  rewrite Hp in Hp1. injection Hp1 as <- <-.
  assert (Hnd : NoDup blobs) by (rewrite Hseq; apply seq_NoDup).
  assert (Hall : Forall (fun a => (a < length (objects this'))%nat) blobs).
  { apply Forall_forall. intros a Ha. rewrite Hseq in Ha.
    apply in_seq in Ha. lia. }
  destruct (drawn_once settings' time blobs (objects this') Hnd Hall)
    as [_ Hobj].
  assert (Hmem : forall a, existsb (Nat.eqb a) blobs = true <-> In a blobs).
  { intros a. rewrite existsb_exists. split.
    - intros (b & Hb & E). apply Nat.eqb_eq in E. now subst.
    - intros Ha. exists a. split; trivial. apply Nat.eqb_refl. }
  split; [|split; [reflexivity|]].
  - unfold tracked, drawn. simpl. rewrite map_map. apply map_ext_in.
    intros a Ha. rewrite Hobj.
    now replace (existsb (Nat.eqb a) blobs) with true
      by (symmetry; now apply Hmem).
  - unfold drawn, contents. simpl. rewrite map_map. apply map_ext_in.
    intros [k a] Hin. simpl. rewrite Hobj.
    assert (Hid : id (object (objects this') a) = k).
    { destruct Hwf' as (Hnd' & _ & Hids).
      apply (Hids k (object (objects this') a)).
      apply In_get; trivial. simpl. apply in_map_iff. now exists (k, a). }
    destruct (existsb (Nat.eqb a) blobs) eqn:Ea.
    + replace (existsb (fun b => id b =? k) tracked) with true; trivial.
      symmetry. apply existsb_exists.
      exists (object (objects this') a). split; [|now apply Z.eqb_eq].
      apply in_map. now apply Hmem.
    + replace (existsb (fun b => id b =? k) tracked) with false; trivial.
      symmetry. apply not_true_is_false. intros H.
      apply existsb_exists in H. destruct H as (b & Hb & E).
      apply Z.eqb_eq in E.
      assert (Hk : In k (map id tracked)).
      { apply in_map_iff. now exists b. }
      pose proof (Hfresh k a Hin Hk) as Hge.
      unfold valid in Hv'. rewrite Forall_forall in Hv'.
      specialize (Hv' _ Hin). simpl in Hv'.
      assert (Ha : In a blobs) by (rewrite Hseq; apply in_seq; lia).
      apply Hmem in Ha. congruence.
Qed.


End SharedFacts.

(** ** The theorems on shared objects at concrete inputs *)

(** The tracker with its heap after a first frame with two regions. *)
Definition sharedTwoRegions : Shared :=
  Eval vm_compute in
    match
      processFrameShared hypot_ref
        (Contours [contourAt 10 10 150; contourAt 300 300 150]) 0
        initialSettings 1 newShared
    with
    | Ok (this, _) => this
    | TypeError => newShared
    end.

Lemma sharedTwoRegions_reachable :
  sharedReachable hypot_ref sinAtZero cosAtZero sharedTwoRegions.
Proof.
  apply (shared_frame hypot_ref sinAtZero cosAtZero newShared
           (Contours [contourAt 10 10 150; contourAt 300 300 150]) 0
           initialSettings 1 sharedTwoRegions [0; 1]%nat);
    [apply shared_new | vm_compute; reflexivity].
Defined.

Lemma shared_objects_stay_within_the_tracker_model_witness :
  sharedReachable hypot_ref sinAtZero cosAtZero sharedTwoRegions /\
  reachable hypot_ref (contents sharedTwoRegions) /\
  rendered (contents sharedTwoRegions)
    (contents (drawOverlaysShared sinAtZero cosAtZero initialSettings 0
                 [0; 1]%nat sharedTwoRegions)).
Proof.
  split; [exact sharedTwoRegions_reachable|].
  destruct (shared_objects_stay_within_the_tracker_model hypot_ref
              sinAtZero cosAtZero sharedTwoRegions sharedTwoRegions_reachable)
    as (Hr & _ & Hd).
  split; [exact Hr | apply Hd].
Defined.

(** The second frame finds the first region again, a little to the right;
    the blob 1 is drawn, and the blob 2 is left as it was. *)
Lemma drawing_moves_exactly_the_blobs_returned_witness :
  exists this' blobs,
    processFrameShared hypot_ref (Contours [contourAt 20 10 150]) 40
      initialSettings 1 sharedTwoRegions = Ok (this', blobs) /\
    let tracked := map (object (objects this')) blobs in
    let drawn :=
      drawOverlaysShared sinAtZero cosAtZero initialSettings 40 blobs this' in
    map id tracked = [1] /\
    activeBlobs (contents drawn) =
      map (fun e =>
             if existsb (fun b => id b =? fst e) tracked
             then (fst e,
                   fst (drawOverlay sinAtZero cosAtZero initialSettings 40 (snd e)))
             else e)
          (activeBlobs (contents this')).
Proof.
  destruct (processFrameShared hypot_ref (Contours [contourAt 20 10 150]) 40
              initialSettings 1 sharedTwoRegions) as [[this' blobs]|] eqn:E;
    [|vm_compute in E; discriminate].
  exists this', blobs. split; [reflexivity|].
  destruct (drawing_moves_exactly_the_blobs_returned hypot_ref
              sinAtZero cosAtZero sharedTwoRegions this'
              (Contours [contourAt 20 10 150]) 40 initialSettings 1 blobs
              initialSettings 40 sharedTwoRegions_reachable E)
    as (_ & _ & Hactive).
  split; [|exact Hactive].
  vm_compute in E. injection E as <- <-. reflexivity.
Defined.

(* ================================================================== *)
(** * From frame to frame: what a matched blob carries over *)
(* ================================================================== *)

Section Carried.

Variable hypot_fin : Q -> Q -> Q.
Variables sin cos : num -> num.

Import JsMapFacts.

(** A returned blob whose id was active before the call is the update of
    the blob the tracker held, by one of the candidates. *)
Definition carried (settings : TrackerSettings) (now : Z) (this : CVProcessor)
    (done : list Candidate) (tracked : list DetectedBlob) : Prop :=
  forall b e,
    In b tracked -> JsMap.get (id b) (activeBlobs this) = Some e ->
    exists c, In c done /\ b = updated settings now e c.

Lemma matchingPass_carried settings scaleFactor now cands this :
  wf this ->
  exists st,
    matchingPass hypot_fin settings scaleFactor now cands this = Ok st /\
    frame_inv now this cands st /\ pass_inv this st /\
    carried settings now this cands (trackedBlobs st).
Proof.
  intros Hwf. unfold matchingPass.
  destruct (forEach_ind
              (trackBlob hypot_fin settings now (maxDist scaleFactor))
              (fun done st => frame_inv now this done st /\ pass_inv this st /\
                              carried settings now this done (trackedBlobs st)))
    with (xs := cands) (done := @nil Candidate)
         (s := {| self := this; assignedIds := JsSet.empty; trackedBlobs := [] |})
    as (st & Hst & HP).
  - intros done st c (Hf & Hp & Hc).
    destruct (trackBlob_spec hypot_fin settings now (maxDist scaleFactor) st c
                (fi_wf _ _ _ _ Hf)) as (st' & Hst' & Ht).
    exists st'. split; trivial. split; [|split].
    + eapply frame_inv_step; eauto.
    + eapply pass_inv_step; eauto.
    + assert (Hold : forall b e, In b (trackedBlobs st) ->
                JsMap.get (id b) (activeBlobs this) = Some e ->
                exists c0, In c0 (done ++ [c]) /\ b = updated settings now e c0).
      { intros b e Hb He. destruct (Hc b e Hb He) as (c0 & Hc0 & Hb0).
        exists c0. split; trivial. apply in_or_app. now left. }
      destruct Ht as [existing [Hin Hun] Hnear Hmin | Hfar]; intros b e Hb He;
        simpl in Hb; apply in_app_or in Hb; destruct Hb as [Hb|[<-|[]]]; auto.
      * simpl in He. exists c. split; [apply in_or_app; right; now left|].
        f_equal.
        assert (Hk : ~ In (id existing) (map id (trackedBlobs st))).
        { intros Hk. apply (count_occ_In Z.eq_dec) in Hk.
          fold (occurrences (id existing) (trackedBlobs st)) in Hk.
          rewrite (pi_count _ _ Hp), Hun in Hk.
          apply get_keys in He. apply (wf_keys_below _ _ Hwf) in He.
          replace (nextBlobId this <=? id existing) with false in Hk
            by (symmetry; apply Z.leb_gt; lia).
          simpl in Hk. lia. }
        pose proof (fi_rest _ _ _ _ Hf _ Hk) as Hrest.
        destruct (fi_wf _ _ _ _ Hf) as (Hnd & _).
        apply In_get in Hin; trivial. congruence.
      * simpl in He. apply get_keys in He. apply (wf_keys_below _ _ Hwf) in He.
        pose proof (pi_next _ _ Hp). lia.
  - split; [now apply frame_inv_init|]. split; [now apply pass_inv_init|].
    intros b e [].
  - exists st. auto.
Qed.

Lemma once_same (k : Z) (l : list DetectedBlob) a b :
  (occurrences k l <= 1)%nat -> In a l -> In b l -> id a = k -> id b = k ->
  a = b.
Proof.
  unfold occurrences. induction l as [|c l IH]; simpl; intros Hc Ha Hb Hia Hib;
    [contradiction|].
  destruct (Z.eq_dec (id c) k) as [E|E].
  - assert (Hnone : ~ In k (map id l)).
    { intros H. apply (count_occ_In Z.eq_dec) in H. lia. }
    destruct Ha as [<-|Ha], Hb as [<-|Hb]; trivial; exfalso; apply Hnone;
      apply in_map_iff; eauto.
  - destruct Ha as [<-|Ha]; [congruence|]. destruct Hb as [<-|Hb]; [congruence|].
    now apply IH.
Qed.

(** X25.  What a matched blob carries over.  A blob returned by a call
    whose id was active before the call is the update, by a candidate of the
    frame, of the blob the tracker held for that id: it keeps the display
    position, its trail is the old trail with the old position added (and
    the oldest point dropped past [historyLength]), and it is the blob the
    tracker holds for that id after the call. *)
Theorem matched_blob_carries_its_display_position
    (cs : list Contour) (now : Z) (settings : TrackerSettings)
    (scaleFactor : num) (this : CVProcessor) :
  reachable hypot_fin this ->
  exists this' tracked,
    processFrame hypot_fin (Contours cs) now settings scaleFactor this =
    Ok (this', tracked) /\
    forall b e,
      In b tracked -> JsMap.get (id b) (activeBlobs this) = Some e ->
      (exists c, In c (extract settings scaleFactor cs) /\
                 b = updated settings now e c) /\
      visualX b = visualX e /\ visualY b = visualY e /\
      history b = pushHistory settings e /\
      JsMap.get (id b) (activeBlobs this') = Some b.
Proof.
  intros Hr. pose proof (reachable_wf hypot_fin this Hr) as Hwf.
  destruct (matchingPass_carried settings scaleFactor now
              (extract settings scaleFactor cs) this Hwf)
    as (st & Hst & Hf & Hp & Hc).
  destruct (processFrame_contours hypot_fin cs now settings scaleFactor this Hwf)
    as (st2 & Hst2 & _ & Hres & _).
  assert (st2 = st) by congruence. subst st2.
  eexists _, _. split; [exact Hres|].
  intros b e Hb He. destruct (Hc b e Hb He) as (c & Hin & ->).
  split; [eauto|]. repeat split. simpl.
  destruct (tracked_entry_kept now this _ st _ Hf Hb)
    as (b' & _ & Hb' & Hid & _ & Hget).
  simpl in Hget, Hid.
  replace b' with (updated settings now e c) in Hget; [exact Hget|].
  apply (once_same (id e) (trackedBlobs st)); trivial.
  rewrite (pi_count _ _ Hp).
  simpl in He. apply get_keys in He. apply (wf_keys_below _ _ Hwf) in He.
  replace (nextBlobId this <=? id e) with false
    by (symmetry; apply Z.leb_gt; lia).
  simpl. destruct (JsSet.has (id e) (assignedIds st)); simpl; lia.
Qed.

(** X26.  The display position follows the blob from frame to frame.  If
    the tracker holds a blob for an id, with some display position, and the
    next call of [processFrame] returns that id, then after [drawOverlays]
    has drawn the blobs returned the tracker holds for the id a blob at the
    position of the matched candidate, and its display position is the old
    display position moved toward the new position by [lerpFactor]. *)
Theorem display_position_follows_from_frame_to_frame
    (this this' : Shared) (cs : list Contour) (now : Z)
    (settings : TrackerSettings) (scaleFactor : num) (blobs : list nat)
    (settings' : TrackerSettings) (time : num) (k : Z) (e : DetectedBlob) :
  sharedReachable hypot_fin sin cos this ->
  processFrameShared hypot_fin (Contours cs) now settings scaleFactor this =
    Ok (this', blobs) ->
  JsMap.get k (activeBlobs (contents this)) = Some e ->
  In k (map id (map (object (objects this')) blobs)) ->
  let drawn := drawOverlaysShared sin cos settings' time blobs this' in
  exists c b,
    In c (extract settings scaleFactor cs) /\
    JsMap.get k (activeBlobs (contents drawn)) = Some b /\
    id b = k /\ x b = cand_x c /\ y b = cand_y c /\
    visualX b =
      Some (lerp (orInit (visualX e) (cand_x c)) (cand_x c)
              (lerpFactor settings')) /\
    visualY b =
      Some (lerp (orInit (visualY e) (cand_y c)) (cand_y c)
              (lerpFactor settings')).
Proof.
  intros Hs Hp He Hk drawn.
  destruct (sharedReachable_inv hypot_fin sin cos this Hs) as [Hv Hr].
  pose proof (reachable_wf hypot_fin _ Hr) as Hwf.
  destruct (processFrame_sim hypot_fin (Contours cs) now settings scaleFactor
              this Hv Hwf)
    as (this1 & blobs1 & Hp1 & Hval & Hv' & Hwf' & Hseq & Hlen & Hfresh).
  rewrite Hp in Hp1. injection Hp1 as <- <-.
  destruct (matchingPass_carried settings scaleFactor now
              (extract settings scaleFactor cs) (contents this) Hwf)
    as (st & Hst & Hf & Hpi & Hc).
  destruct (processFrame_contours hypot_fin cs now settings scaleFactor
              (contents this) Hwf) as (st2 & Hst2 & _ & Hres & _).
  assert (st2 = st) by congruence. subst st2.
  rewrite Hval in Hres.
  assert (Htracked : map (object (objects this')) blobs = trackedBlobs st)
    by congruence.
  assert (Hactive : activeBlobs (contents this') =
                    filter (fun e => negb (expired now (snd e)))
                      (activeBlobs (self st))).
  { apply (f_equal (fun r => match r with
                             | Ok (p, _) => activeBlobs p
                             | TypeError => []
                             end)) in Hres. exact Hres. }
  clear Hres. rewrite Htracked in Hk.
  apply in_map_iff in Hk. destruct Hk as (b0 & Hid0 & Hb0).
  assert (Hid : id e = k).
  { destruct Hwf as (_ & _ & Hids). now apply (Hids k e). }
  rewrite <- Hid0 in He.
  destruct (Hc b0 e Hb0 He) as (c & Hin & ->).
  clear Hid0. subst k. simpl in He.
  destruct (tracked_entry_kept now (contents this) _ st _ Hf Hb0)
    as (b' & _ & Hb' & Hid' & _ & Hget).
  assert (Hsame : b' = updated settings now e c).
  { apply (once_same (id e) (trackedBlobs st)); trivial.
    rewrite (pi_count _ _ Hpi).
    pose proof (get_keys _ _ _ He) as Hkey.
    apply (wf_keys_below _ _ Hwf) in Hkey. simpl in Hkey.
    replace (nextBlobId (contents this) <=? id e) with false
      by (symmetry; apply Z.leb_gt; simpl; lia).
    simpl. destruct (JsSet.has (id e) (assignedIds st)); simpl; lia. }
  subst b'. simpl in Hget.
  rewrite <- Hactive in Hget. simpl in Hget.
  fold (byValue (objects this') (entries this')) in Hget.
  rewrite byValue_get in Hget.
  destruct (JsMap.get (id e) (entries this')) as [a|] eqn:Ea; [|discriminate].
  simpl in Hget. injection Hget as Hobj.
  assert (Hina : In (id e, a) (entries this')) by now apply get_In.
  assert (Hblobs : In a blobs).
  { assert (Hge : (length (objects this) <= a)%nat).
    { apply (Hfresh (id e) a Hina). rewrite Htracked.
      apply in_map_iff. exists (updated settings now e c). split; trivial. }
    unfold valid in Hv'. rewrite Forall_forall in Hv'.
    specialize (Hv' _ Hina). simpl in Hv'.
    rewrite Hseq. apply in_seq. lia. }
  assert (Hnd : NoDup blobs) by (rewrite Hseq; apply seq_NoDup).
  assert (Hall : Forall (fun a => (a < length (objects this'))%nat) blobs).
  { apply Forall_forall. intros a' Ha'. rewrite Hseq in Ha'.
    apply in_seq in Ha'. lia. }
  destruct (drawn_once sin cos settings' time blobs (objects this') Hnd Hall)
    as [_ Hdrawn].
  exists c, (fst (drawOverlay sin cos settings' time (updated settings now e c))).
  split; [exact Hin|]. split.
  - unfold drawn. simpl.
    fold (byValue (fold_left (drawShared sin cos settings' time) blobs
                     (objects this')) (entries this')).
    rewrite byValue_get, Ea. simpl. rewrite Hdrawn, Hobj.
    replace (existsb (Nat.eqb a) blobs) with true; trivial.
    symmetry. apply existsb_exists. exists a. split; trivial.
    apply Nat.eqb_refl.
  - repeat split.
Qed.


End Carried.

(** ** The theorems on what is carried over at concrete inputs *)

Lemma matched_blob_carries_its_display_position_witness :
  reachable hypot_ref twoRegions /\
  exists this' tracked,
    processFrame hypot_ref (Contours [contourAt 12 11 150]) 40
      initialSettings 1 twoRegions = Ok (this', tracked) /\
    forall b e,
      In b tracked -> JsMap.get (id b) (activeBlobs twoRegions) = Some e ->
      visualX b = visualX e /\ visualY b = visualY e /\
      JsMap.get (id b) (activeBlobs this') = Some b.
Proof.
  split; [exact twoRegions_reachable|].
  destruct (matched_blob_carries_its_display_position hypot_ref
              [contourAt 12 11 150] 40 initialSettings 1 twoRegions
              twoRegions_reachable) as (this' & tracked & Heq & Hall).
  exists this', tracked. split; [exact Heq|].
  intros b e Hb He. destruct (Hall b e Hb He) as (_ & Hx & Hy & _ & Hget).
  repeat split; assumption.
Defined.

(** The region of the blob 1 is found again ten pixels to the right; the
    display position, which was at the blob, follows by 0.66 of the way. *)
Lemma display_position_follows_from_frame_to_frame_witness :
  exists this' blobs e c b,
    processFrameShared hypot_ref (Contours [contourAt 20 10 150]) 40
      initialSettings 1 sharedTwoRegions = Ok (this', blobs) /\
    JsMap.get 1 (activeBlobs (contents sharedTwoRegions)) = Some e /\
    JsMap.get 1
      (activeBlobs
         (contents
            (drawOverlaysShared sinAtZero cosAtZero initialSettings 40 blobs
               this'))) = Some b /\
    visualX b =
      Some (lerp (orInit (visualX e) (cand_x c)) (cand_x c)
              (lerpFactor initialSettings)).
Proof.
  destruct (processFrameShared hypot_ref (Contours [contourAt 20 10 150]) 40
              initialSettings 1 sharedTwoRegions) as [[this' blobs]|] eqn:E;
    [|vm_compute in E; discriminate].
  destruct (JsMap.get 1 (activeBlobs (contents sharedTwoRegions))) as [e|] eqn:He;
    [|vm_compute in He; discriminate].
  assert (Hk : In 1 (map id (map (object (objects this')) blobs))).
  { vm_compute in E. injection E as <- <-. left. reflexivity. }
  destruct (display_position_follows_from_frame_to_frame hypot_ref
              sinAtZero cosAtZero sharedTwoRegions this'
              [contourAt 20 10 150] 40 initialSettings 1 blobs
              initialSettings 40 1 e sharedTwoRegions_reachable E He Hk)
    as (c & b & _ & Hget & _ & _ & _ & Hvx & _).
  exists this', blobs, e, c, b. repeat split; trivial.
Defined.

(* ================================================================== *)
(** * A frame with one region *)
(* ================================================================== *)

Section OneRegion.

Variable hypot_fin : Q -> Q -> Q.

Import JsNumFacts JsMapFacts.

Lemma leb_of_neither (a b m : num) :
  (a <? m)%js = true -> (b <? m)%js = true ->
  (b <? a)%js = false -> (a <=? b)%js = false -> False.
Proof.
  destruct a as [| | |p], b as [| | |q], m as [| | |r]; simpl;
    intros Ha Hb H1 H2; try discriminate;
    rewrite <- Qcompare_antisym in H1;
    destruct (p ?= q)%Q; discriminate.
Qed.

(** The blob nearest to the candidate, within the radius; among the
    nearest, the one with the lowest id. *)
Definition nearest (scaleFactor : num) (this : CVProcessor) (c : Candidate)
    (e : DetectedBlob) : Prop :=
  In (id e, e) (activeBlobs this) /\
  (distance hypot_fin c e <? maxDist scaleFactor)%js = true /\
  (forall k b, In (k, b) (activeBlobs this) ->
     (distance hypot_fin c b <? distance hypot_fin c e)%js = false) /\
  (forall k b, In (k, b) (activeBlobs this) -> k < id e ->
     (distance hypot_fin c b <=? distance hypot_fin c e)%js = false).

(** X27.  A frame with one region above [minArea].  If no active blob is
    within the matching radius of the region, the call returns one new blob,
    with the id [nextBlobId], and advances the counter by one.  Otherwise it
    returns the update of the active blob nearest to the region, the one
    with the lowest id among the nearest, under that blob's id, and creates
    no id: an object alone in its neighbourhood keeps its id from frame to
    frame. *)
Theorem lone_region_keeps_the_id_of_the_nearest_blob
    (cs : list Contour) (c : Candidate) (now : Z) (settings : TrackerSettings)
    (scaleFactor : num) (this : CVProcessor) :
  reachable hypot_fin this ->
  extract settings scaleFactor cs = [c] ->
  exists this' tracked,
    processFrame hypot_fin (Contours cs) now settings scaleFactor this =
    Ok (this', tracked) /\
    ((forall k b, In (k, b) (activeBlobs this) ->
        (distance hypot_fin c b <? maxDist scaleFactor)%js = false) ->
     tracked = [newEntity now (nextBlobId this) c] /\
     nextBlobId this' = nextBlobId this + 1) /\
    (forall e, nearest scaleFactor this c e ->
       tracked = [updated settings now e c] /\
       nextBlobId this' = nextBlobId this /\
       JsMap.get (id e) (activeBlobs this') = Some (updated settings now e c)).
Proof.
  intros Hr Hc. pose proof (reachable_wf hypot_fin this Hr) as Hwf.
  pose proof (reachable_ascending hypot_fin this Hr) as Hasc.
  destruct (processFrame_contours hypot_fin cs now settings scaleFactor this Hwf)
    as (st & Hst & Hf & Hres & Hget).
  rewrite Hc in Hst, Hf.
  eexists _, _. split; [exact Hres|].
  set (init := {| self := this; assignedIds := JsSet.empty; trackedBlobs := [] |})
    in *.
  unfold matchingPass in Hst. fold init in Hst. simpl in Hst.
  assert (Hun : forall k b, unassigned init k b <-> In (k, b) (activeBlobs this)).
  { intros k b. unfold unassigned. simpl. tauto. }
  unfold trackBlob in Hst.
  destruct (findClosest hypot_fin (maxDist scaleFactor) init c) as [k d] eqn:Hfind.
  pose proof (findClosest_spec hypot_fin _ init c k d Hwf Hfind) as Hspec.
  split.
  - intros Hfar.
    destruct Hspec as [(-> & _ & _)|(_ & b & Hb & -> & Hlt & _)].
    + simpl in Hst. injection Hst as <-. simpl. auto.
    + apply Hun in Hb. rewrite (Hfar _ _ Hb) in Hlt. discriminate.
  - intros e (Hin & Hnear & Hmin & Hlow).
    destruct Hspec as [(-> & _ & Hnone)|(Hk & b & Hb & -> & Hlt & Hminb)].
    { rewrite (Hnone _ _ (proj2 (Hun _ _) Hin)) in Hnear. discriminate. }
    pose proof (findClosest_lowest hypot_fin _ init c k _ Hasc Hfind Hk) as Hlowb.
    pose proof (proj1 (Hun _ _) Hb) as Hinb.
    destruct Hwf as (Hnd & Hn & Hids).
    pose proof (In_get _ _ _ Hnd Hinb) as Hgetb.
    pose proof (In_get _ _ _ Hnd Hin) as Hgete.
    assert (Hke : k = id e).
    { destruct (Z.lt_trichotomy k (id e)) as [Hlt'|[Heq|Hgt]]; trivial; exfalso.
      - apply (leb_of_neither (distance hypot_fin c b) (distance hypot_fin c e)
                 (maxDist scaleFactor)); trivial.
        + apply (Hminb (id e) e). now apply Hun.
        + now apply (Hlow k b).
      - apply (leb_of_neither (distance hypot_fin c e) (distance hypot_fin c b)
                 (maxDist scaleFactor)); trivial.
        + now apply (Hmin k b).
        + apply (Hlowb (id e) e); [now apply Hun | lia]. }
    subst k. assert (b = e) by congruence. subst b.
    destruct (Z.eqb_spec (id e) (-1)) as [|_]; [contradiction|].
    simpl in Hst. unfold matchBlob in Hst. simpl in Hst. rewrite Hgete in Hst.
    simpl in Hst. injection Hst as <-. simpl.
    split; trivial. split; trivial.
    rewrite get_filter by (apply NoDup_keys_set; exact Hnd).
    rewrite get_set_eq. simpl.
    now rewrite not_expired_now.
Qed.

End OneRegion.

(** The region of the blob 1 is found again, two pixels to the right. *)
Lemma lone_region_keeps_the_id_of_the_nearest_blob_witness :
  (reachable hypot_ref twoRegions /\
   extract initialSettings 1 [contourAt 12 11 150] =
     [candidateOf 1 (contourAt 12 11 150)]) /\
  exists this' tracked e,
    processFrame hypot_ref (Contours [contourAt 12 11 150]) 40
      initialSettings 1 twoRegions = Ok (this', tracked) /\
    JsMap.get 1 (activeBlobs twoRegions) = Some e /\
    tracked = [updated initialSettings 40 e (candidateOf 1 (contourAt 12 11 150))] /\
    nextBlobId this' = nextBlobId twoRegions.
Proof.
  split; [split; [exact twoRegions_reachable | reflexivity]|].
  destruct (lone_region_keeps_the_id_of_the_nearest_blob hypot_ref
              [contourAt 12 11 150] (candidateOf 1 (contourAt 12 11 150)) 40
              initialSettings 1 twoRegions twoRegions_reachable eq_refl)
    as (this' & tracked & Heq & _ & Hnear).
  destruct (JsMap.get 1 (activeBlobs twoRegions)) as [e|] eqn:He;
    [|vm_compute in He; discriminate].
  exists this', tracked, e. split; [exact Heq|]. split; [reflexivity|].
  assert (Hn : nearest hypot_ref 1 twoRegions
                 (candidateOf 1 (contourAt 12 11 150)) e).
  { vm_compute in He. injection He as <-.
    split; [left; reflexivity|]. split; [vm_compute; reflexivity|].
    split.
    - intros k b [[= <- <-]|[[= <- <-]|[]]]; vm_compute; reflexivity.
    - intros k b [[= <- <-]|[[= <- <-]|[]]] Hk; simpl in Hk; lia. }
  destruct (Hnear e Hn) as (Ht & Hnext & _). split; assumption.
Defined.
